(** * supercluster: the zoom-cascade clustering engine of [index.js]

    A shallow embedding of [index.js] and the properties of its
    specification.

    Numbers.  JavaScript numbers are modelled by the real numbers [R]:
    arithmetic is exact, and the two places where the source relies on
    IEEE infinities (the division and the logarithm in [latY] at the
    poles) are written out.  Rounding and [NaN] are not modelled; in
    particular the search radius [radius / (extent * 2^zoom)] is a
    real quotient, which agrees with the source whenever [extent] is
    not zero, and the statements that depend on its value assume so.
    (The rounding of the two longitude maps is modelled apart, in
    [Rounded], to bound the error of their round trip.)  The zoom
    options and the point counts, which the source only ever adds,
    compares and uses as array indices, are integers ([Z]); the "never
    processed" zoom [Infinity] is a separate constructor.  The zoom
    that a caller passes to [getClusters] is any number.

    Objects.  Cluster objects are shared by reference between the
    arrays returned by [_cluster], the R-trees and the [children]
    arrays, and their [zoom] field is assigned in place.  They live in
    a heap (a list addressed by position); a reference is an index.

    rbush.  The R-tree package is an external dependency.  A tree is
    modelled by the list of the items loaded into it, and [search] is
    a parameter of the development, constrained only to return the
    loaded items whose point lies in the query box, in any order. *)

From Stdlib Require Import Reals Lra Lia ZArith.
From stdpp Require Import base decidable option list sorting sets.

Set Warnings "-clear-no-such-hyp".

#[global] Instance Rle_decision (a b : R) : Decision (a <= b)%R := Rle_dec a b.
#[global] Instance Rlt_decision (a b : R) : Decision (a < b)%R := Rlt_dec a b.
#[global] Instance Rgt_decision (a b : R) : Decision (a > b)%R := Rgt_dec a b.
#[global] Instance Rge_decision (a b : R) : Decision (a >= b)%R := Rge_dec a b.
#[global] Instance Req_decision : EqDecision R := Req_dec_T.

(** ** Coordinate projector *)

Module Projector.
Local Open Scope R_scope.

(** longitude/latitude to spherical mercator in [0..1] range *)
Definition lngX (lng : R) : R := lng / 360 + 0.5.

(** The value of [y] in [latY] before it is clamped, where
    [(1 + sin) / (1 - sin)] and its logarithm are finite. *)
Definition mercatorY (sin : R) : R :=
  0.5 - 0.25 * ln ((1 + sin) / (1 - sin)) / PI.

(** [latY].  At [sin = 1] the source divides by zero: the quotient is
    [+Infinity], so is its logarithm, [y] is [-Infinity] and the
    result is [0].  At [sin = -1] the quotient is [0], its logarithm
    [-Infinity], [y] is [+Infinity] and the result is [1]. *)
Definition latY (lat : R) : R :=
  let sin := sin (lat * PI / 180) in
  if decide (sin = 1) then 0
  else if decide (sin = -1) then 1
  else
    let y := mercatorY sin in
    if decide (y < 0) then 0 else
    if decide (y > 1) then 1 else y.

(** spherical mercator to longitude/latitude *)
Definition xLng (x : R) : R := (x - 0.5) * 360.

Definition yLat (y : R) : R :=
  let y2 := (180 - y * 360) * PI / 180 in
  360 * atan (exp y2) / PI - 90.

End Projector.

(** ** Data model *)

(** The [zoom] field of a cluster: [Infinity] until the cluster is
    processed, then the zoom of the last pass that processed it. *)
Inductive Zoom : Type :=
  | Infinity
  | Level (z : Z).

#[global] Instance Zoom_eq_dec : EqDecision Zoom.
Proof. solve_decision. Defined.

(** [a <= z] for a [zoom] field [a] and a zoom level [z] *)
Definition zoom_le (a : Zoom) (z : Z) : bool :=
  match a with
  | Infinity => false
  | Level a => bool_decide (a ≤ z)%Z
  end.

(** [z < b] for a zoom level [z] and a [zoom] field [b] *)
Definition zoom_lt (z : Z) (b : Zoom) : bool :=
  match b with
  | Infinity => true
  | Level b => bool_decide (z < b)%Z
  end.

(** An input feature.  [geometry] and [coordinates] are absent when
    the property is [undefined]; reading a property of [undefined]
    throws.  [properties] stands for the rest of the feature, which
    the engine passes through. *)
Record Geometry : Type := { coordinates : option (R * R) }.
Record Feature : Type := { geometry : option Geometry; properties : nat }.

(** A reference to a cluster object: its position in the heap. *)
Abbreviation ref := nat (only parsing).

Module Cluster.
Record t : Type := make {
  x : R;                       (* cluster center *)
  y : R;
  wx : R;                      (* weighted cluster center *)
  wy : R;
  zoom : Zoom;                 (* the last zoom the cluster was processed at *)
  children : option (list ref);
  point : option Feature;
  numPoints : Z
}.

Definition set_zoom (z : Zoom) (c : t) : t :=
  make (x c) (y c) (wx c) (wy c) z (children c) (point c) (numPoints c).
Definition set_point (p : Feature) (c : t) : t :=
  make (x c) (y c) (wx c) (wy c) (zoom c) (children c) (Some p) (numPoints c).
End Cluster.

Definition createCluster (x y : R) : Cluster.t :=
  {| Cluster.x := x; Cluster.y := y;
     Cluster.wx := x; Cluster.wy := y;
     Cluster.zoom := Infinity;
     Cluster.children := None;
     Cluster.point := None;
     Cluster.numPoints := 1 |}.

(** squared distance between two points *)
Definition distSq (a b : Cluster.t) : R :=
  let dx := (Cluster.x a - Cluster.x b)%R in
  let dy := (Cluster.y a - Cluster.y b)%R in
  (dx * dx + dy * dy)%R.

Record Options : Type := {
  minZoom : Z;   (* min zoom to generate clusters on *)
  maxZoom : Z;   (* max zoom level to cluster the points on *)
  radius : R;    (* cluster radius in pixels *)
  extent : R;    (* tile extent (radius is calculated relative to it) *)
  nodeSize : Z;  (* size of the R-tree leaf node, affects performance *)
  log : bool     (* whether to log timing info *)
}.

Definition default_options : Options :=
  {| minZoom := 0; maxZoom := 16; radius := 40; extent := 512;
     nodeSize := 16; log := false |}.

(** The options a caller passes: any subset of the recognised ones. *)
Record UserOptions : Type := {
  u_minZoom : option Z;
  u_maxZoom : option Z;
  u_radius : option R;
  u_extent : option R;
  u_nodeSize : option Z;
  u_log : option bool
}.

Definition extend (dest : Options) (src : UserOptions) : Options :=
  {| minZoom := default (minZoom dest) (u_minZoom src);
     maxZoom := default (maxZoom dest) (u_maxZoom src);
     radius := default (radius dest) (u_radius src);
     extent := default (extent dest) (u_extent src);
     nodeSize := default (nodeSize dest) (u_nodeSize src);
     log := default (log dest) (u_log src) |}.

(** An R-tree: the items loaded into it. *)
Abbreviation Tree := (list ref) (only parsing).
Definition BBox : Type := (R * R * R * R)%type.

(** rbush's [load]: bulk insertion of [data] into the tree *)
Definition rbush_load (data : list ref) (t : Tree) : Tree := t ++ data.

(** rbush's [intersects] for the query box [a] and the box
    [[x, y, x, y]] of an item (format [['.x', '.y', '.x', '.y']]) *)
Definition intersects (a : BBox) (c : Cluster.t) : Prop :=
  let '(minX, minY, maxX, maxY) := a in
  (Cluster.x c <= maxX /\ Cluster.y c <= maxY /\
   Cluster.x c >= minX /\ Cluster.y c >= minY)%R.

#[global] Instance intersects_dec a c : Decision (intersects a c).
Proof. destruct a as [[[? ?] ?] ?]; unfold intersects; apply _. Defined.

(** The instance: its options, its trees, and the cluster objects it
    has allocated.  [writes] records every assignment to a [zoom]
    field, in program order. *)
Record SuperCluster : Type := {
  options : Options;
  trees : list Tree;
  heap : list Cluster.t;
  writes : list (ref * Z)
}.

Definition hit (h : list Cluster.t) (a : BBox) (i : ref) : Prop :=
  match h !! i with
  | Some c => intersects a c
  | None => False
  end.

#[global] Instance hit_dec h a i : Decision (hit h a i).
Proof. unfold hit; destruct (h !! i); apply _. Defined.

(** [a[z]] for an array [a] and a number [z] known to be an integer:
    [undefined] outside the array *)
Definition array_get {A : Type} (a : list A) (z : Z) : option A :=
  if decide (0 ≤ z)%Z then a !! Z.to_nat z else None.

(** [a[z]] for an arbitrary number [z]: an array has no element at a
    key that is not an integer *)
Definition array_get_num {A : Type} (a : list A) (z : R) : option A :=
  if decide (IZR (Int_part z) = z) then array_get a (Int_part z) else None.

(** [_initTrees]: an R-tree for each zoom level [0 .. maxZoom + 1] *)
Definition _initTrees (o : Options) : list Tree :=
  replicate (Z.to_nat (maxZoom o + 2)) [].

Definition with_heap (h : list Cluster.t) (this : SuperCluster) : SuperCluster :=
  {| options := options this; trees := trees this;
     heap := h; writes := writes this |}.

Definition with_trees (ts : list Tree) (this : SuperCluster) : SuperCluster :=
  {| options := options this; trees := ts;
     heap := heap this; writes := writes this |}.

(** [b.zoom = zoom] for the object at reference [b] *)
Definition assign_zoom (b : ref) (zoom : Z) (this : SuperCluster) : SuperCluster :=
  {| options := options this; trees := trees this;
     heap := alter (Cluster.set_zoom (Level zoom)) b (heap this);
     writes := writes this ++ [(b, zoom)] |}.

(** A new object enters the heap; its reference is returned. *)
Definition alloc (c : Cluster.t) (this : SuperCluster) : ref * SuperCluster :=
  (length (heap this), with_heap (heap this ++ [c]) this).

(** [this.trees[z].load(data)] *)
Definition tree_load (z : Z) (data : list ref) (this : SuperCluster) : option SuperCluster :=
  t ← array_get (trees this) z;
  Some (with_trees (<[Z.to_nat z := rbush_load data t]> (trees this)) this).

Definition createPointCluster (p : Feature) : option Cluster.t :=
  g ← geometry p;
  coords ← coordinates g;
  let cluster := createCluster (Projector.lngX coords.1) (Projector.latY coords.2) in
  Some (Cluster.set_point p cluster).

(** [points.map(createPointCluster)]: the new objects enter the heap
    in the order of [points]; the array of their references is
    returned. *)
Definition createPointClusters (points : list Feature) (this : SuperCluster)
  : option (list ref * SuperCluster) :=
  leaves ← mapM createPointCluster points;
  Some (seq (length (heap this)) (length leaves),
        with_heap (heap this ++ leaves) this).

(** The features [getClusters] returns: an input feature, or a
    synthesized cluster feature. *)
Inductive Output : Type :=
  | Original (p : Feature)
  | ClusterFeature (numPoints : Z) (coordinates : R * R).

Definition getCluster (cluster : Cluster.t) : Output :=
  match Cluster.point cluster with
  | Some p => Original p
  | None =>
      ClusterFeature (Cluster.numPoints cluster)
        (Projector.xLng (Cluster.wx cluster), Projector.yLat (Cluster.wy cluster))
  end.

Section Engine.

(** rbush's [search]: the items of the tree whose box intersects the
    query box, in the order the tree yields them. *)
Variable rbush_search : list Cluster.t -> Tree -> BBox -> list ref.
Hypothesis rbush_search_spec :
  forall h t a, rbush_search h t a ≡ₚ filter (hit h a) t.

(** The cluster radius in projected units at a zoom level. *)
Definition search_radius (o : Options) (zoom : Z) : R :=
  (radius o / (extent o * powerRZ 2 zoom))%R.

(** The test of the loop of [_getNeighbors]. *)
Definition near (h : list Cluster.t) (p : Cluster.t) (zoom : Z) (r : R) (j : ref) : bool :=
  match h !! j with
  | Some b => zoom_lt zoom (Cluster.zoom b) && bool_decide (distSq p b <= r * r)%R
  | None => false
  end.

Definition _getNeighbors (this : SuperCluster) (i : ref) (zoom : Z) : option (list ref) :=
  p ← heap this !! i;
  let r := search_radius (options this) zoom in
  (* find all nearby points with a bbox search *)
  t ← array_get (trees this) (zoom + 1);
  let bboxNeighbors :=
    rbush_search (heap this) t
      (Cluster.x p - r, Cluster.y p - r, Cluster.x p + r, Cluster.y p + r)%R in
  (* filter out neighbors that are too far or already processed *)
  Some (filter (fun j => near (heap this) p zoom r j = true) bboxNeighbors).

(** The loop over [neighbors] in [_cluster]. *)
Fixpoint absorb (zoom : Z) (neighbors : list ref) (this : SuperCluster)
    (wx wy : R) (numPoints : Z) : option (SuperCluster * R * R * Z) :=
  match neighbors with
  | [] => Some (this, wx, wy, numPoints)
  | j :: neighbors =>
      (* save the zoom (so it doesn't get processed twice) *)
      let this := assign_zoom j zoom this in
      b ← heap this !! j;
      (* accumulate coordinates for calculating weighted center *)
      absorb zoom neighbors this
        (wx + Cluster.x b * IZR (Cluster.numPoints b))%R
        (wy + Cluster.y b * IZR (Cluster.numPoints b))%R
        (numPoints + Cluster.numPoints b)%Z
  end.

(** One iteration of the loop over [points] in [_cluster]. *)
Definition cluster_point (zoom : Z) (i : ref) (this : SuperCluster)
    (clusters : list ref) : option (SuperCluster * list ref) :=
  point ← heap this !! i;
  (* if we've already visited the point at this zoom level, skip it *)
  if zoom_le (Cluster.zoom point) zoom then Some (this, clusters) else
  let this := assign_zoom i zoom this in
  (* find unprocessed neighbors within a cluster radius *)
  neighbors ← _getNeighbors this i zoom;
  match neighbors with
  | [] => Some (this, clusters ++ [i])  (* no neighbors, add a single point as cluster *)
  | _ =>
      let numPoints := Cluster.numPoints point in
      let wx := (Cluster.wx point * IZR numPoints)%R in
      let wy := (Cluster.wy point * IZR numPoints)%R in
      '(this, wx, wy, numPoints) ← absorb zoom neighbors this wx wy numPoints;
      (* form a cluster with neighbors *)
      let cluster := createCluster (Cluster.x point) (Cluster.y point) in
      let cluster :=
        {| Cluster.x := Cluster.x cluster; Cluster.y := Cluster.y cluster;
           (* save weighted cluster center for display *)
           Cluster.wx := (wx / IZR numPoints)%R;
           Cluster.wy := (wy / IZR numPoints)%R;
           Cluster.zoom := Cluster.zoom cluster;
           Cluster.children := Some neighbors;
           Cluster.point := Cluster.point cluster;
           Cluster.numPoints := numPoints |} in
      let '(c, this) := alloc cluster this in
      Some (this, clusters ++ [c])
  end.

Fixpoint cluster_loop (zoom : Z) (points : list ref) (this : SuperCluster)
    (clusters : list ref) : option (SuperCluster * list ref) :=
  match points with
  | [] => Some (this, clusters)
  | i :: points =>
      '(this, clusters) ← cluster_point zoom i this clusters;
      cluster_loop zoom points this clusters
  end.

Definition _cluster (this : SuperCluster) (points : list ref) (zoom : Z)
  : option (SuperCluster * list ref) :=
  cluster_loop zoom points this [].

(** The loop of [load]: [n] iterations, from zoom [z] downwards. *)
Fixpoint load_loop (n : nat) (z : Z) (this : SuperCluster) (clusters : list ref)
  : option (SuperCluster * list ref) :=
  match n with
  | O => Some (this, clusters)
  | S n =>
      (* index input points into an R-tree *)
      this ← tree_load (z + 1) clusters this;
      (* create a new set of clusters for the zoom *)
      '(this, clusters) ← _cluster this clusters z;
      load_loop n (z - 1) this clusters
  end.

Definition load (this : SuperCluster) (points : list Feature) : option SuperCluster :=
  (* generate a cluster object for each point *)
  '(clusters, this) ← createPointClusters points this;
  (* cluster points on max zoom, then cluster the results on previous zoom, etc. *)
  let o := options this in
  '(this, clusters) ←
    load_loop (Z.to_nat (maxZoom o - minZoom o + 1)) (maxZoom o) this clusters;
  (* index top-level clusters *)
  tree_load (minZoom o) clusters this.

Definition getClusters (this : SuperCluster) (bbox : BBox) (zoom : R)
  : option (list Output) :=
  let '(west, south, east, north) := bbox in
  let projBBox :=
    (Projector.lngX west, Projector.latY north,
     Projector.lngX east, Projector.latY south) in
  let o := options this in
  let z := Rmax (IZR (minZoom o)) (Rmin zoom (IZR (maxZoom o + 1))) in
  t ← array_get_num (trees this) z;
  let clusters := rbush_search (heap this) t projBBox in
  mapM (fun i => getCluster <$> heap this !! i) clusters.

End Engine.

(** [supercluster(options)]: a new instance, with empty trees. *)
Definition supercluster (user : UserOptions) : SuperCluster :=
  let o := extend default_options user in
  {| options := o; trees := _initTrees o; heap := []; writes := [] |}.

(** ** Notions used by the statements *)

(** A cluster with its [zoom] field forgotten: the part of an object
    that is never assigned after the object is built. *)
Definition erase (c : Cluster.t) : Cluster.t := Cluster.set_zoom Infinity c.

(** The sum of [numPoints] over a list of references. *)
Fixpoint mass (h : list Cluster.t) (l : list ref) : Z :=
  match l with
  | [] => 0
  | i :: l => from_option Cluster.numPoints 0%Z (h !! i) + mass h l
  end%Z.

(** The sum of [f b * b.numPoints] over a list of references. *)
Fixpoint wsum (f : Cluster.t -> R) (h : list Cluster.t) (l : list ref) : R :=
  match l with
  | [] => 0
  | i :: l =>
      from_option (fun b => f b * IZR (Cluster.numPoints b)) 0 (h !! i) + wsum f h l
  end%R.

(** The heap after [b.zoom = zoom] for every [b] of a list. *)
Definition mark_all (zoom : Z) (l : list ref) (h : list Cluster.t) : list Cluster.t :=
  foldl (fun h j => alter (Cluster.set_zoom (Level zoom)) j h) h l.

(** The object at [i] exists and a pass at [zoom] would still process it. *)
Definition live (h : list Cluster.t) (zoom : Z) (i : ref) : Prop :=
  match h !! i with
  | Some c => zoom_le (Cluster.zoom c) zoom = false
  | None => False
  end.

#[global] Instance live_dec h zoom i : Decision (live h zoom i).
Proof. unfold live; destruct (h !! i); apply _. Defined.

(** Every object of [h] is still in [h'], changed at most in its [zoom]. *)
Definition heap_le (h h' : list Cluster.t) : Prop :=
  forall i c, h !! i = Some c -> exists c', h' !! i = Some c' /\ erase c' = erase c.

(** The zoom values assigned to the object [i], in program order. *)
Definition written_to (i : ref) (ws : list (ref * Z)) : list Z :=
  (filter (fun w => w.1 = i) ws).*2.

(** A strictly decreasing list of zoom levels. *)
Definition decreasing (l : list Z) : Prop := StronglySorted (fun a b => (b < a)%Z) l.

(** All four coordinates of a cluster lie in [[0, 1]]. *)
Definition in_unit_square (c : Cluster.t) : Prop :=
  (0 <= Cluster.x c <= 1 /\ 0 <= Cluster.y c <= 1 /\
   0 <= Cluster.wx c <= 1 /\ 0 <= Cluster.wy c <= 1)%R.

(** A search that returns the hits in the order they were loaded. *)
Definition scan_search (h : list Cluster.t) (t : Tree) (a : BBox) : list ref :=
  filter (hit h a) t.

(** The cluster that [_cluster] builds when [point] claims the
    neighbors [ns], in closed form. *)
Definition aggregate (point : Cluster.t) (h : list Cluster.t) (ns : list ref) : Cluster.t :=
  let n := (Cluster.numPoints point + mass h ns)%Z in
  {| Cluster.x := Cluster.x point;
     Cluster.y := Cluster.y point;
     Cluster.wx :=
       ((Cluster.wx point * IZR (Cluster.numPoints point) + wsum Cluster.x h ns) / IZR n)%R;
     Cluster.wy :=
       ((Cluster.wy point * IZR (Cluster.numPoints point) + wsum Cluster.y h ns) / IZR n)%R;
     Cluster.zoom := Infinity;
     Cluster.children := Some ns;
     Cluster.point := None;
     Cluster.numPoints := n |}.

(** The instance after the point [i], whose object is [point], has
    claimed the neighbors [ns] in a pass at [zoom]. *)
Definition claim (zoom : Z) (i : ref) (point : Cluster.t) (ns : list ref)
    (this : SuperCluster) : SuperCluster :=
  {| options := options this; trees := trees this;
     heap := mark_all zoom (i :: ns) (heap this) ++ [aggregate point (heap this) ns];
     writes := writes this ++ ((fun j => (j, zoom)) <$> i :: ns) |}.

(** The three ways an iteration of the loop of [_cluster] ends: the
    point was already visited; it has no neighbors and is kept; it
    claims its neighbors and a new cluster is pushed. *)
Inductive Step (search : list Cluster.t -> Tree -> BBox -> list ref)
    (zoom : Z) (i : ref) (this : SuperCluster) (clusters : list ref)
  : SuperCluster -> list ref -> Prop :=
  | Step_skip point :
      heap this !! i = Some point ->
      zoom_le (Cluster.zoom point) zoom = true ->
      Step search zoom i this clusters this clusters
  | Step_single point :
      heap this !! i = Some point ->
      zoom_le (Cluster.zoom point) zoom = false ->
      _getNeighbors search (assign_zoom i zoom this) i zoom = Some [] ->
      Step search zoom i this clusters (assign_zoom i zoom this) (clusters ++ [i])
  | Step_merge point ns this' :
      heap this !! i = Some point ->
      zoom_le (Cluster.zoom point) zoom = false ->
      _getNeighbors search (assign_zoom i zoom this) i zoom = Some ns ->
      ns <> [] ->
      Forall (fun j => j < length (heap this)) ns ->
      options this' = options this ->
      trees this' = trees this ->
      heap this' = mark_all zoom (i :: ns) (heap this) ++ [aggregate point (heap this) ns] ->
      writes this' = writes this ++ ((fun j => (j, zoom)) <$> i :: ns) ->
      Step search zoom i this clusters this' (clusters ++ [length (heap this)]).

(** What the loop of [_cluster] at [zoom] relies on, with the points
    [rest] still to visit and [clusters] pushed so far: the tree of
    tier [zoom + 1] holds no object twice and no unvisited object
    outside [rest]; [clusters] holds visited objects only. *)
Record pass_ready (zoom : Z) (this : SuperCluster) (rest clusters : list ref) : Prop := {
  ready_tree :
    exists t, array_get (trees this) (zoom + 1) = Some t /\ NoDup t /\
      Forall (fun j => j < length (heap this)) t /\
      forall j, j ∈ t -> live (heap this) zoom j -> j ∈ rest;
  ready_rest : NoDup rest /\ Forall (fun j => j < length (heap this)) rest;
  ready_clusters :
    NoDup clusters /\ Forall (live (heap this) (zoom - 1)) clusters /\
    forall c, c ∈ clusters -> (c ∉ rest)
}.

(** What the loop of [_cluster] at [zoom] achieves from [this], [rest]
    and [clusters]. *)
Record pass_done (zoom : Z) (this : SuperCluster) (rest clusters : list ref)
    (this' : SuperCluster) (clusters' : list ref) : Prop := {
  done_options : options this' = options this;
  done_trees : trees this' = trees this;
  done_heap : heap_le (heap this) (heap this');
  done_mass :
    mass (heap this') clusters' =
    (mass (heap this) clusters + mass (heap this) (filter (live (heap this) zoom) rest))%Z;
  done_clusters : NoDup clusters' /\ Forall (live (heap this') (zoom - 1)) clusters';
  done_writes :
    exists ws, writes this' = writes this ++ ((fun j => (j, zoom)) <$> ws) /\
      NoDup ws /\ forall j, j ∈ ws -> j ∈ rest /\ live (heap this) zoom j
}.

(** The assignments to [zoom] of successive passes, the first one at
    zoom [z], the next one at [z - 1], and so on, where each pass
    assigns its zoom to the objects of one list, in order. *)
Fixpoint trace (z : Z) (passes : list (list ref)) : list (ref * Z) :=
  match passes with
  | [] => []
  | js :: passes => ((fun j => (j, z)) <$> js) ++ trace (z - 1) passes
  end.

(** What the loop of [load] maintains when the pass at zoom [z] is
    the next one, for [N] input points: the tiers up to [z + 1] are
    still empty, the tiers above hold [N] points each, and so does
    the current set [clusters], none of it visited at [z] yet. *)
Record load_inv (N : Z) (z : Z) (this : SuperCluster) (clusters : list ref) : Prop := {
  inv_length : length (trees this) = Z.to_nat (maxZoom (options this) + 2);
  inv_empty :
    forall k t, (k <= z + 1)%Z -> array_get (trees this) k = Some t -> t = [];
  inv_tiers :
    forall k, (z + 1 < k <= maxZoom (options this) + 1)%Z ->
      exists t, array_get (trees this) k = Some t /\ mass (heap this) t = N /\
        Forall (fun j => j < length (heap this)) t;
  inv_clusters :
    NoDup clusters /\ Forall (live (heap this) z) clusters /\
    mass (heap this) clusters = N;
  inv_writes :
    exists passes,
      writes this = trace (maxZoom (options this)) passes /\
      z = (maxZoom (options this) - Z.of_nat (length passes))%Z /\
      Forall NoDup passes
}.

(** A feature whose [geometry.coordinates] can be read. *)
Definition has_coordinates (p : Feature) : Prop :=
  exists g lng lat, geometry p = Some g /\ coordinates g = Some (lng, lat).

(** The zoom options for which every tree that [load] uses exists. *)
Definition valid_zooms (o : Options) : Prop :=
  (0 <= minZoom o <= maxZoom o + 1)%Z.

(** A feature whose coordinates the specification calls valid: a
    pair of numbers with the longitude in range.  (The specification
    has no latitude rejected.) *)
Definition valid_coordinates (p : Feature) : Prop :=
  exists g lng lat, geometry p = Some g /\ coordinates g = Some (lng, lat) /\
    (-180 <= lng <= 180)%R.

(** The caller passes no option. *)
Definition no_options : UserOptions :=
  {| u_minZoom := None; u_maxZoom := None; u_radius := None;
     u_extent := None; u_nodeSize := None; u_log := None |}.

(** A point feature at [[lng, lat]]. *)
Definition point_at (lng lat : R) : Feature :=
  {| geometry := Some {| coordinates := Some (lng, lat) |}; properties := 0 |}.

(** In the heap [h], [agg] is a cluster that the point [i] built from
    the neighbors [ns] in a pass at [zoom] with the options [o]. *)
Record claimed_by (o : Options) (zoom : Z) (h : list Cluster.t)
    (agg : Cluster.t) (i : ref) (ns : list ref) : Prop := {
  claim_point :
    exists point, h !! i = Some point /\
      erase agg = erase (aggregate point h ns);
  claim_children :
    Cluster.children agg = Some ns /\ ns <> [] /\ (i ∉ ns);
  claim_near :
    forall j, j ∈ ns -> exists b, h !! j = Some b /\
      (distSq agg b <= search_radius o zoom * search_radius o zoom)%R
}.

(** A cluster with its coordinates in the unit square and at least
    one point. *)
Definition sound_cluster (c : Cluster.t) : Prop :=
  in_unit_square c /\ (1 <= Cluster.numPoints c)%Z.

(** ** A worked example

    Four points on the equator, clustered on the zooms 1 and 0 with a
    radius of a quarter of the tile: in the projected plane the points
    are [C] at 1/4, [P] at 1/2, [A] at 13/32 and [B] at 5/8, and the
    radius is 1/8 at zoom 1 and 1/4 at zoom 0. *)
Definition ex_options : UserOptions :=
  {| u_minZoom := None; u_maxZoom := Some 1%Z; u_radius := Some 1%R;
     u_extent := Some 4%R; u_nodeSize := None; u_log := None |}.

Definition ex_points : list Feature :=
  [point_at (-90) 0; point_at 0 0; point_at (-33.75) 0; point_at 45 0].

(** The leaf that [createPointCluster] builds for a point on the equator. *)
Definition ex_leaf (lng : R) : Cluster.t :=
  Cluster.set_point (point_at lng 0)
    (createCluster (Projector.lngX lng) (Projector.latY 0)).

(** The instance when the pass at zoom 1 starts. *)
Definition ex_start : SuperCluster :=
  let this := supercluster ex_options in
  let this := with_heap [ex_leaf (-90); ex_leaf 0; ex_leaf (-33.75); ex_leaf 45] this in
  with_trees (<[2 := [0; 1; 2; 3]]> (trees this)) this.

(** The pass at zoom 1: [C] stays single, [P] claims [A] and [B]. *)
Definition ex_zoom1 : SuperCluster :=
  claim 1 1 (ex_leaf 0) [2; 3] (assign_zoom 0 1 ex_start).

(** The pass at zoom 0: [C] claims the cluster of [P]. *)
Definition ex_zoom0 : SuperCluster :=
  let this := with_trees (<[1 := [0; 4]]> (trees ex_zoom1)) ex_zoom1 in
  claim 0 0 (Cluster.set_zoom (Level 1) (ex_leaf (-90))) [4] this.

(** The instance that [load] returns. *)
Definition ex_loaded : SuperCluster :=
  with_trees (<[0 := [5]]> (trees ex_zoom0)) ex_zoom0.

(** A point with a longitude out of range. *)
Definition ex_far_east : list Feature := [point_at 540 0].

(** The instance that [load] returns for the point out of range,
    with the options of the example. *)
Definition ex_far_loaded : SuperCluster :=
  {| options := extend default_options ex_options;
     trees := [[0]; [0]; [0]];
     heap := [Cluster.set_zoom (Level 0) (ex_leaf 540)];
     writes := [(0, 1%Z); (0, 0%Z)] |}.

(** Options with a negative [minZoom]. *)
Definition ex_below_zero : UserOptions :=
  {| u_minZoom := Some (-1)%Z; u_maxZoom := Some 1%Z; u_radius := None;
     u_extent := None; u_nodeSize := None; u_log := None |}.

(** Options with tiers below [minZoom]. *)
Definition ex_from_one : UserOptions :=
  {| u_minZoom := Some 1%Z; u_maxZoom := Some 2%Z; u_radius := Some 1%R;
     u_extent := Some 4%R; u_nodeSize := None; u_log := None |}.

(** The options of the example with a radius of zero. *)
Definition ex_no_radius : UserOptions :=
  {| u_minZoom := None; u_maxZoom := Some 1%Z; u_radius := Some 0%R;
     u_extent := Some 4%R; u_nodeSize := None; u_log := None |}.

Definition ex_twins : list Feature := [point_at 0 0; point_at 0 0].

(** The weighted center of the specification: the [numPoints]-weighted
    average of the weighted centers of the claiming point and of the
    neighbors it claims. *)
Definition spec_weighted_center (point : Cluster.t) (h : list Cluster.t)
    (ns : list ref) : R * R :=
  let n := IZR (Cluster.numPoints point + mass h ns) in
  (((Cluster.wx point * IZR (Cluster.numPoints point) + wsum Cluster.wx h ns) / n)%R,
   ((Cluster.wy point * IZR (Cluster.numPoints point) + wsum Cluster.wy h ns) / n)%R).

(** The latitude that [latY] maps to 0: beyond it, up to the pole,
    [latY] is clamped. *)
Definition mercator_limit : R := Projector.yLat 0.

(** The angle [PI / 4 + lat / 2] of a latitude in degrees. *)
Definition half_colatitude (lat : R) : R := (PI / 4 + lat * PI / 360)%R.

(** ** Notions used by the further statements *)

(** The box that [getClusters] searches for the box
    [[west, south, east, north]] it is given. *)
Definition projBBox (bbox : BBox) : BBox :=
  let '(west, south, east, north) := bbox in
  (Projector.lngX west, Projector.latY north, Projector.lngX east, Projector.latY south).

(** The projected point of an input feature lies in the box [a]. *)
Definition feature_hit (a : BBox) (p : Feature) : Prop :=
  match createPointCluster p with
  | Some c => intersects a c
  | None => False
  end.

#[global] Instance feature_hit_dec a p : Decision (feature_hit a p).
Proof. unfold feature_hit; destruct (createPointCluster p); apply _. Defined.

(** The number of input points that a returned feature stands for:
    [properties.numPoints] of a cluster feature, one for an input
    feature. *)
Definition count_points (f : Output) : Z :=
  match f with
  | Original _ => 1
  | ClusterFeature numPoints _ => numPoints
  end.

Definition total_points (out : list Output) : Z :=
  foldr (fun f n => (count_points f + n)%Z) 0%Z out.

(** The object [c] is the cluster of one of the input [points], as
    [createPointCluster] built it, whatever its [zoom] is now. *)
Definition is_leaf_of (points : list Feature) (c : Cluster.t) : Prop :=
  exists p, p ∈ points /\ createPointCluster p = Some (erase c).

(** The object [c] is a cluster that a pass built: it carries no
    input feature, has children and stands for two points or more. *)
Definition is_aggregate (c : Cluster.t) : Prop :=
  Cluster.point c = None /\ (2 <= Cluster.numPoints c)%Z /\
  exists ns, Cluster.children c = Some ns /\ ns <> [].

(** The [children] arrays of a heap form a forest: the children of an
    object were allocated before it, none is listed twice, and no
    object is a child of two objects. *)
Record forest (h : list Cluster.t) : Prop := {
  forest_children :
    forall c agg ns, h !! c = Some agg -> Cluster.children agg = Some ns ->
      NoDup ns /\ Forall (fun j => j < c) ns;
  forest_parent :
    forall c c' agg agg' ns ns' j,
      h !! c = Some agg -> Cluster.children agg = Some ns -> j ∈ ns ->
      h !! c' = Some agg' -> Cluster.children agg' = Some ns' -> j ∈ ns' ->
      c = c'
}.

(** The tier [lower] is what the pass at [zoom] makes of the tier
    [upper]: a node of [lower] is a node of [upper] that found no
    neighbor, or a new cluster that a node of [upper] built from other
    nodes of [upper]; and every node of [upper] is kept, or is the
    builder or a child of such a cluster. *)
Record tier_below (o : Options) (zoom : Z) (h : list Cluster.t)
    (upper lower : list ref) : Prop := {
  tier_nodup : NoDup lower;
  tier_length : length lower <= length upper;
  tier_node :
    forall c, c ∈ lower ->
      c ∈ upper \/
      (c ∉ upper) /\
      exists agg i ns, h !! c = Some agg /\ claimed_by o zoom h agg i ns /\
        i ∈ upper /\ forall j, j ∈ ns -> j ∈ upper;
  tier_cover :
    forall j, j ∈ upper ->
      j ∈ lower \/
      exists c agg i ns, c ∈ lower /\ h !! c = Some agg /\
        claimed_by o zoom h agg i ns /\ (j = i \/ j ∈ ns)
}.

(** The invariant of the loop of [load] on the tiers built so far,
    when the pass at zoom [z] is the next one and [n] points were
    given: the tier [maxZoom + 1] holds the clusters of the points, in
    their order, and each tier built is below the one above it. *)
Record tiers_inv (n : nat) (z : Z) (this : SuperCluster) (clusters : list ref) : Prop := {
  tiers_top :
    (z = maxZoom (options this) -> clusters = seq 0 n) /\
    ((z < maxZoom (options this))%Z ->
       array_get (trees this) (maxZoom (options this) + 1) = Some (seq 0 n));
  tiers_built :
    forall k, (z + 1 < k <= maxZoom (options this))%Z ->
      exists upper lower,
        array_get (trees this) (k + 1) = Some upper /\
        array_get (trees this) k = Some lower /\
        tier_below (options this) k (heap this) upper lower;
  tiers_current :
    (z < maxZoom (options this))%Z ->
      exists upper,
        array_get (trees this) (z + 2) = Some upper /\
        tier_below (options this) (z + 1) (heap this) upper clusters
}.

(** The invariant of the loop of [load] on the [children] arrays: they
    form a forest, and no child is among the current clusters. *)
Record forest_inv (this : SuperCluster) (clusters : list ref) : Prop := {
  forest_heap : forest (heap this);
  forest_current :
    forall c agg ns j, heap this !! c = Some agg -> Cluster.children agg = Some ns ->
      j ∈ ns -> j ∉ clusters
}.

(** The sum of [f b] over the objects [b] of a list of references. *)
Definition sum_of (f : Cluster.t -> R) (h : list Cluster.t) (l : list ref) : R :=
  foldr (fun j s => (from_option f 0 (h !! j) + s)%R) 0%R l.


(** In the heap [h], a cluster of the list [cl], built in the pass at
    [zoom], has both [a] and [b] among its builder and its children. *)
Definition together (o : Options) (zoom : Z) (h : list Cluster.t) (cl : list ref)
    (a b : ref) : Prop :=
  exists c agg i ns,
    c ∈ cl /\ h !! c = Some agg /\ claimed_by o zoom h agg i ns /\
    (a = i \/ a ∈ ns) /\ (b = i \/ b ∈ ns).

(** What the loop of [load] maintains on an instance that an earlier
    [load] has filled, when the pass at zoom [z] is the next one: [old]
    are the trees and [base] is the size of the heap the earlier
    [load] left, [low] is [minZoom] and [N] the number of new points.
    The tiers up to [z + 1] are still the old ones and their nodes
    above [low] are visited; the tiers above are the old ones followed
    by new objects of [N] points; the current set [clusters] holds new
    objects of [N] points, none of it visited at [z] yet. *)
Record reload_inv (base : nat) (old : list Tree) (low : Z) (N : Z) (z : Z)
    (this : SuperCluster) (clusters : list ref) : Prop := {
  re_length : length (trees this) = length old;
  re_base : base <= length (heap this);
  re_lower :
    forall k, (k <= z + 1)%Z -> array_get (trees this) k = array_get old k;
  re_upper :
    forall k t0, (z + 1 < k)%Z -> array_get old k = Some t0 ->
      exists t, array_get (trees this) k = Some (t0 ++ t) /\ mass (heap this) t = N /\
        Forall (fun j => base <= j < length (heap this)) t;
  re_visited :
    forall k t0 j, (low < k <= z + 1)%Z -> array_get old k = Some t0 -> j ∈ t0 ->
      exists c, heap this !! j = Some c /\ zoom_le (Cluster.zoom c) (k - 1) = true;
  re_clusters :
    NoDup clusters /\ Forall (live (heap this) z) clusters /\
    Forall (fun j => base <= j) clusters /\ mass (heap this) clusters = N
}.

(** The longitude maps as floating-point arithmetic evaluates them:
    each of the two operations of [lngX] and of [xLng] returns its
    exact result rounded by [rnd].  The constants 360 and 0.5 are
    floating-point numbers. *)
Module Rounded.
Section Maps.
Variable rnd : R -> R.

Definition lngX (lng : R) : R := rnd (rnd (lng / 360) + 0.5).

Definition xLng (x : R) : R := rnd (rnd (x - 0.5) * 360).

End Maps.
End Rounded.

(** The rounding [rnd] returns every number of magnitude up to [M]
    with a relative error of at most [u] and an absolute error of at
    most [eta] on top.  For the binary64 numbers of JavaScript, rounded
    to nearest, [u] is [2^-53], [eta] is [2^-1075] and [M] is the
    largest finite number. *)
Definition rounds_within (u eta M : R) (rnd : R -> R) : Prop :=
  forall x, (Rabs x <= M -> Rabs (rnd x - x) <= u * Rabs x + eta)%R.

(** ** Zoom fields and the heap *)

Lemma zoom_lt_le (z : Z) (a : Zoom) : zoom_lt z a = negb (zoom_le a z).
Proof.
  destruct a as [|a]; simpl; [done|].
  repeat case_bool_decide; simpl; lia || done.
Qed.

Lemma zoom_le_Level (z : Z) : zoom_le (Level z) z = true.
Proof. simpl. by apply bool_decide_eq_true_2. Qed.

Lemma erase_numPoints c c' : erase c' = erase c -> Cluster.numPoints c' = Cluster.numPoints c.
Proof. intros H. by apply (f_equal Cluster.numPoints) in H. Qed.

Lemma erase_x c c' : erase c' = erase c -> Cluster.x c' = Cluster.x c.
Proof. intros H. by apply (f_equal Cluster.x) in H. Qed.

Lemma erase_y c c' : erase c' = erase c -> Cluster.y c' = Cluster.y c.
Proof. intros H. by apply (f_equal Cluster.y) in H. Qed.

Lemma erase_wx c c' : erase c' = erase c -> Cluster.wx c' = Cluster.wx c.
Proof. intros H. by apply (f_equal Cluster.wx) in H. Qed.

Lemma erase_wy c c' : erase c' = erase c -> Cluster.wy c' = Cluster.wy c.
Proof. intros H. by apply (f_equal Cluster.wy) in H. Qed.

Lemma erase_children c c' : erase c' = erase c -> Cluster.children c' = Cluster.children c.
Proof. intros H. by apply (f_equal Cluster.children) in H. Qed.

Lemma heap_le_refl h : heap_le h h.
Proof. intros i c Hc. eauto. Qed.

Lemma heap_le_trans h1 h2 h3 : heap_le h1 h2 -> heap_le h2 h3 -> heap_le h1 h3.
Proof.
  intros H12 H23 i c Hc.
  destruct (H12 i c Hc) as (c2 & Hc2 & E2).
  destruct (H23 i c2 Hc2) as (c3 & Hc3 & E3).
  exists c3. split; [done | congruence].
Qed.

Lemma heap_le_alter h j z : heap_le h (alter (Cluster.set_zoom z) j h).
Proof.
  intros i c Hc. destruct (decide (j = i)) as [->|Hne].
  - exists (Cluster.set_zoom z c). by rewrite list_lookup_alter_eq, Hc.
  - exists c. by rewrite list_lookup_alter_ne.
Qed.

Lemma heap_le_app h k : heap_le h (h ++ k).
Proof. intros i c Hc. exists c. split; [by apply lookup_app_l_Some | done]. Qed.

Lemma heap_le_length h h' : heap_le h h' -> length h <= length h'.
Proof.
  intros H. destruct (decide (length h <= length h')) as [|Hn]; [done|].
  destruct (lookup_lt_is_Some_2 h (length h')) as [c Hc]; [lia|].
  destruct (H _ _ Hc) as (c' & Hc' & _).
  apply lookup_lt_Some in Hc'. lia.
Qed.

Lemma mark_all_cons zoom j l h :
  mark_all zoom (j :: l) h = mark_all zoom l (alter (Cluster.set_zoom (Level zoom)) j h).
Proof. done. Qed.

Lemma mark_all_length zoom l h : length (mark_all zoom l h) = length h.
Proof.
  revert h. induction l as [|j l IH]; intros h; [done|].
  rewrite mark_all_cons, IH. apply length_alter.
Qed.

Lemma mark_all_lookup zoom l h i :
  mark_all zoom l h !! i =
  (if decide (i ∈ l) then Cluster.set_zoom (Level zoom) else fun c => c) <$> h !! i.
Proof.
  revert h. induction l as [|j l IH]; intros h.
  - rewrite decide_False by apply not_elem_of_nil.
    unfold mark_all; simpl. by destruct (h !! i).
  - rewrite mark_all_cons, IH, list_lookup_alter.
    repeat case_decide; subst; destruct (h !! i); simpl; try done;
      exfalso; set_solver.
Qed.

Lemma heap_le_mark_all zoom l h : heap_le h (mark_all zoom l h).
Proof.
  intros i c Hc. rewrite mark_all_lookup, Hc. simpl.
  case_decide; eexists; split; done.
Qed.

Lemma heap_assign_zoom b z this :
  heap (assign_zoom b z this) = alter (Cluster.set_zoom (Level z)) b (heap this).
Proof. done. Qed.

Lemma mass_singleton h c : mass h [c] = from_option Cluster.numPoints 0%Z (h !! c).
Proof. simpl. lia. Qed.

Lemma mass_app h l k : mass h (l ++ k) = (mass h l + mass h k)%Z.
Proof. induction l as [|i l IH]; simpl; lia. Qed.

Lemma mass_heap_le h h' l :
  heap_le h h' -> Forall (fun i => i < length h) l -> mass h' l = mass h l.
Proof.
  intros Hle. induction 1 as [|i l Hi _ IH]; simpl; [done|].
  destruct (lookup_lt_is_Some_2 h i Hi) as [c Hc].
  destruct (Hle _ _ Hc) as (c' & Hc' & E).
  rewrite Hc, Hc', IH. simpl. by rewrite (erase_numPoints _ _ E).
Qed.

Lemma mass_Permutation h l k : l ≡ₚ k -> mass h l = mass h k.
Proof. induction 1; simpl; lia. Qed.

Lemma wsum_heap_le f h h' l :
  (forall c c', erase c' = erase c -> f c' = f c) ->
  heap_le h h' -> Forall (fun i => i < length h) l -> wsum f h' l = wsum f h l.
Proof.
  intros Hf Hle. induction 1 as [|i l Hi _ IH]; simpl; [done|].
  destruct (lookup_lt_is_Some_2 h i Hi) as [c Hc].
  destruct (Hle _ _ Hc) as (c' & Hc' & E).
  rewrite Hc, Hc', IH. simpl. by rewrite (erase_numPoints _ _ E), (Hf _ _ E).
Qed.

(** ** The loop over the neighbors *)

Lemma absorb_Some zoom ns this wx wy n this' wx' wy' n' :
  absorb zoom ns this wx wy n = Some (this', wx', wy', n') ->
  heap this' = mark_all zoom ns (heap this) /\
  writes this' = writes this ++ ((fun j => (j, zoom)) <$> ns) /\
  options this' = options this /\ trees this' = trees this /\
  Forall (fun j => j < length (heap this)) ns /\
  wx' = (wx + wsum Cluster.x (heap this) ns)%R /\
  wy' = (wy + wsum Cluster.y (heap this) ns)%R /\
  n' = (n + mass (heap this) ns)%Z.
Proof.
  revert this wx wy n. induction ns as [|j ns IH]; intros this wx wy n H; simpl in H.
  - simplify_eq. rewrite app_nil_r. simpl. repeat split; try done; lra || lia.
  - destruct (alter _ j (heap this) !! j) as [b|] eqn:Hb; simpl in H; [|done].
    apply IH in H as (Hh & Hw & Ho & Ht & Hv & -> & -> & ->). simpl in *.
    rewrite list_lookup_alter_eq in Hb.
    destruct (heap this !! j) as [b0|] eqn:Hb0; simplify_eq/=.
    assert (Hle := heap_le_alter (heap this) j (Level zoom)).
    rewrite length_alter in Hv.
    rewrite (mass_heap_le _ _ _ Hle Hv).
    rewrite (wsum_heap_le Cluster.x _ _ _ erase_x Hle Hv).
    rewrite (wsum_heap_le Cluster.y _ _ _ erase_y Hle Hv).
    rewrite Hw, <- app_assoc. simpl.
    repeat split; try done; try lra; try lia.
    constructor; [by eapply lookup_lt_Some | done].
Qed.

Lemma absorb_is_Some zoom ns this wx wy n :
  Forall (fun j => j < length (heap this)) ns ->
  is_Some (absorb zoom ns this wx wy n).
Proof.
  revert this wx wy n. induction ns as [|j ns IH]; intros this wx wy n Hv; simpl.
  - done.
  - apply Forall_cons in Hv as [Hj Hv].
    destruct (lookup_lt_is_Some_2 (heap this) j Hj) as [b Hb].
    rewrite list_lookup_alter_eq, Hb. simpl.
    apply IH. simpl. by rewrite length_alter.
Qed.

Lemma filter_ext_in {A} (P Q : A -> Prop) `{!forall x, Decision (P x)}
    `{!forall x, Decision (Q x)} (l : list A) :
  (forall x, x ∈ l -> P x <-> Q x) -> filter P l = filter Q l.
Proof.
  induction l as [|a l IH]; intros HPQ; [done|].
  rewrite !filter_cons, IH by (intros; apply HPQ; by right).
  assert (P a <-> Q a) by (apply HPQ; by left).
  destruct (decide (P a)), (decide (Q a)); tauto || done.
Qed.

Lemma live_lt h zoom j : live h zoom j -> j < length h.
Proof.
  unfold live. destruct (h !! j) eqn:Hj; [|done]. intros _. by eapply lookup_lt_Some.
Qed.

(** After the objects [ms] are marked at [zoom], and whatever is
    allocated, an old object is live iff it was and is not in [ms]. *)
Lemma live_mark_all h zoom ms new j :
  j < length h ->
  live (mark_all zoom ms h ++ new) zoom j <-> live h zoom j /\ (j ∉ ms).
Proof.
  intros Hj. unfold live.
  rewrite lookup_app_l by (by rewrite mark_all_length).
  rewrite mark_all_lookup.
  destruct (h !! j) as [c|]; simpl; [|naive_solver].
  case_decide; simpl; [|naive_solver].
  rewrite bool_decide_eq_true_2 by lia. naive_solver.
Qed.

Lemma live_pred_mark_all h zoom ms new j :
  j < length h ->
  live h (zoom - 1) j \/ j ∈ ms ->
  live (mark_all zoom ms h ++ new) (zoom - 1) j.
Proof.
  intros Hj H. unfold live in *.
  rewrite lookup_app_l by (by rewrite mark_all_length).
  rewrite mark_all_lookup.
  destruct (h !! j) as [c|] eqn:Hc; simpl.
  - case_decide; simpl; [apply bool_decide_eq_false; lia|]. naive_solver.
  - apply lookup_ge_None in Hc. lia.
Qed.

(** The mass that a claim takes out of the live points. *)
Lemma mass_claim h zoom ms new l :
  NoDup l -> NoDup ms ->
  Forall (fun j => j < length h) l ->
  (forall j, j ∈ ms -> j ∈ l /\ live h zoom j) ->
  mass h (filter (live h zoom) l) =
  (mass h ms + mass h (filter (live (mark_all zoom ms h ++ new) zoom) l))%Z.
Proof.
  intros Hl Hms Hv Hin.
  rewrite (filter_ext_in (live (mark_all zoom ms h ++ new) zoom)
             (fun j => (j ∉ ms) /\ live h zoom j)).
  2:{ intros j Hj. rewrite live_mark_all; [tauto|].
      by eapply (proj1 (Forall_forall _ _) Hv). }
  rewrite <- (list_filter_filter (fun j => j ∉ ms) (live h zoom)).
  rewrite <- mass_app. apply mass_Permutation.
  rewrite <- (filter_app_complement (fun j => j ∈ ms) (filter (live h zoom) l)) at 1.
  apply Permutation_app; [|done].
  apply NoDup_Permutation; [by apply NoDup_filter, NoDup_filter|done|].
  intros j. rewrite !list_elem_of_filter. naive_solver.
Qed.

(** ** One iteration of [_cluster] *)

Lemma cluster_point_Step search zoom i this clusters this' clusters' :
  cluster_point search zoom i this clusters = Some (this', clusters') ->
  Step search zoom i this clusters this' clusters'.
Proof.
  unfold cluster_point. intros H.
  destruct (heap this !! i) as [point|] eqn:Hp; simpl in H; [|done].
  destruct (zoom_le (Cluster.zoom point) zoom) eqn:Hz.
  { simplify_eq. by eapply Step_skip. }
  destruct (_getNeighbors search (assign_zoom i zoom this) i zoom) as [ns|] eqn:Hns;
    simpl in H; [|done].
  destruct ns as [|j ns].
  { simplify_eq. by eapply Step_single. }
  destruct (absorb zoom (j :: ns) _ _ _ _) as [[[[this2 wx] wy] n]|] eqn:Ha;
    simpl in H; [|done].
  simplify_eq.
  apply absorb_Some in Ha as (Hh & Hw & Ho & Ht & Hv & -> & -> & ->).
  simpl heap in *. rewrite length_alter in Hv.
  assert (Hle := heap_le_alter (heap this) i (Level zoom)).
  rewrite (mass_heap_le _ _ _ Hle Hv).
  rewrite (wsum_heap_le Cluster.x _ _ _ erase_x Hle Hv).
  rewrite (wsum_heap_le Cluster.y _ _ _ erase_y Hle Hv).
  replace (length (heap this2)) with (length (heap this))
    by (by rewrite Hh, mark_all_length, length_alter).
  eapply Step_merge; eauto.
  - simpl. by rewrite Hh.
  - simpl. rewrite Hw. simpl. by rewrite <- app_assoc.
Qed.

(** ** The range of the projection *)

Lemma latY_range (lat : R) : (0 <= Projector.latY lat <= 1)%R.
Proof. unfold Projector.latY. repeat case_decide; lra. Qed.

Lemma lngX_range (lng : R) :
  (-180 <= lng <= 180)%R -> (0 <= Projector.lngX lng <= 1)%R.
Proof. unfold Projector.lngX. lra. Qed.

Lemma sound_cluster_erase c c' : erase c' = erase c -> sound_cluster c -> sound_cluster c'.
Proof.
  intros E [(Hx & Hy & Hwx & Hwy) Hn]. unfold sound_cluster, in_unit_square.
  by rewrite (erase_x _ _ E), (erase_y _ _ E), (erase_wx _ _ E), (erase_wy _ _ E),
    (erase_numPoints _ _ E).
Qed.

Lemma mass_nonneg h ns : Forall sound_cluster h -> (0 <= mass h ns)%Z.
Proof.
  intros Hh. induction ns as [|j ns IH]; simpl; [done|].
  destruct (h !! j) as [b|] eqn:Hb; simpl; [|lia].
  apply list_elem_of_lookup_2 in Hb.
  apply (proj1 (Forall_forall _ _) Hh) in Hb as [_ Hb]. lia.
Qed.

Lemma wsum_bounds (f : Cluster.t -> R) h ns :
  Forall (fun c => sound_cluster c /\ (0 <= f c <= 1)%R) h ->
  (0 <= wsum f h ns <= IZR (mass h ns))%R.
Proof.
  intros Hh. induction ns as [|j ns IH]; simpl; [lra|].
  rewrite plus_IZR.
  destruct (h !! j) as [b|] eqn:Hb; simpl; [|lra].
  apply list_elem_of_lookup_2 in Hb.
  apply (proj1 (Forall_forall _ _) Hh) in Hb as [[_ Hn] Hf].
  apply IZR_le in Hn. nra.
Qed.

Lemma weighted_mean_range (a s n m : R) :
  (0 <= a <= 1 -> 1 <= n -> 0 <= s <= m -> 0 <= (a * n + s) / (n + m) <= 1)%R.
Proof.
  intros Ha Hn Hs.
  assert (0 < n + m)%R as Hpos by lra.
  split.
  - apply Rmult_le_pos; [nra|]. left. by apply Rinv_0_lt_compat.
  - apply (Rmult_le_reg_r (n + m)); [done|].
    unfold Rdiv. rewrite Rmult_assoc, Rinv_l by lra. nra.
Qed.

Lemma aggregate_sound point h ns :
  Forall sound_cluster h -> sound_cluster point -> sound_cluster (aggregate point h ns).
Proof.
  intros Hh [(Hx & Hy & Hwx & Hwy) Hn].
  pose proof (mass_nonneg h ns Hh) as Hm.
  assert (0 <= wsum Cluster.x h ns <= IZR (mass h ns))%R as Hsx.
  { apply wsum_bounds. eapply Forall_impl; [exact Hh|].
    intros c Hc. split; [done|]. by destruct Hc as [(? & _) _]. }
  assert (0 <= wsum Cluster.y h ns <= IZR (mass h ns))%R as Hsy.
  { apply wsum_bounds. eapply Forall_impl; [exact Hh|].
    intros c Hc. split; [done|]. by destruct Hc as [(_ & ? & _) _]. }
  pose proof (IZR_le _ _ Hn) as HnR.
  split; [|simpl; lia]. unfold in_unit_square. simpl.
  rewrite plus_IZR. repeat split; try lra.
  all: apply weighted_mean_range; lra || done.
Qed.

(** ** The projection and its inverse *)

Section ProjectorFacts.
Local Open Scope R_scope.
Import Projector.

Lemma xLng_lngX (l : R) : xLng (lngX l) = l.
Proof. unfold xLng, lngX. lra. Qed.

Lemma half_colatitude_range (l : R) :
  -90 < l < 90 -> 0 < half_colatitude l < PI / 2.
Proof.
  intros H. unfold half_colatitude. pose proof PI_RGT_0. nra.
Qed.

(** [1 + sin] and [1 - sin] of a latitude, in terms of the angle *)
Lemma one_plus_sin (l : R) :
  1 + sin (l * PI / 180) = 2 * (sin (half_colatitude l) * sin (half_colatitude l)).
Proof.
  replace (l * PI / 180) with (2 * half_colatitude l - PI / 2)
    by (unfold half_colatitude; lra).
  rewrite sin_minus, cos_PI2, sin_PI2, cos_2a_sin. lra.
Qed.

Lemma one_minus_sin (l : R) :
  1 - sin (l * PI / 180) = 2 * (cos (half_colatitude l) * cos (half_colatitude l)).
Proof.
  replace (l * PI / 180) with (2 * half_colatitude l - PI / 2)
    by (unfold half_colatitude; lra).
  rewrite sin_minus, cos_PI2, sin_PI2, cos_2a_cos. lra.
Qed.

Lemma mercatorY_tan (l : R) :
  -90 < l < 90 ->
  mercatorY (sin (l * PI / 180)) = 1 / 2 - ln (tan (half_colatitude l)) / (2 * PI).
Proof.
  intros H. apply half_colatitude_range in H as [H0 H1].
  set (t := half_colatitude l) in *.
  assert (0 < sin t) as Hs by (apply sin_gt_0; pose proof PI_RGT_0; lra).
  assert (0 < cos t) as Hc by (apply cos_gt_0; lra).
  assert (0 < tan t) as Ht by (by apply tan_gt_0).
  unfold mercatorY. rewrite one_plus_sin, one_minus_sin. fold t.
  replace (2 * (sin t * sin t) / (2 * (cos t * cos t))) with (tan t * tan t)
    by (unfold tan; field; lra).
  rewrite ln_mult by done. pose proof PI_RGT_0.
  unfold Rdiv. rewrite Rinv_mult. lra.
Qed.

Lemma sin_lat_not_pole (l : R) :
  -90 < l < 90 -> sin (l * PI / 180) <> 1 /\ sin (l * PI / 180) <> -1.
Proof.
  intros H. apply half_colatitude_range in H as [H0 H1].
  assert (0 < sin (half_colatitude l)) as Hs by (apply sin_gt_0; pose proof PI_RGT_0; lra).
  assert (0 < cos (half_colatitude l)) as Hc by (apply cos_gt_0; lra).
  pose proof (one_plus_sin l). pose proof (one_minus_sin l). split; nra.
Qed.

(** [latY] away from the poles: the clamped Mercator value. *)
Lemma latY_tan (l : R) :
  -90 < l < 90 ->
  let y := 1 / 2 - ln (tan (half_colatitude l)) / (2 * PI) in
  latY l = if decide (y < 0) then 0 else if decide (y > 1) then 1 else y.
Proof.
  intros H. unfold latY. destruct (sin_lat_not_pole l H) as [H1 H2].
  rewrite decide_False by done. rewrite decide_False by done.
  by rewrite mercatorY_tan.
Qed.

Lemma yLat_tan (t : R) :
  0 < t -> yLat (1 / 2 - ln t / (2 * PI)) = 360 * atan t / PI - 90.
Proof.
  intros Ht. unfold yLat. pose proof PI_RGT_0.
  replace ((180 - (1 / 2 - ln t / (2 * PI)) * 360) * PI / 180) with (ln t)
    by (field; lra).
  by rewrite exp_ln.
Qed.

Lemma yLat_0 : yLat 0 = 360 * atan (exp PI) / PI - 90.
Proof. unfold yLat. by replace ((180 - 0 * 360) * PI / 180) with PI by lra. Qed.

Lemma yLat_1 : yLat 1 = - yLat 0.
Proof.
  rewrite yLat_0. unfold yLat. pose proof PI_RGT_0.
  replace ((180 - 1 * 360) * PI / 180) with (- PI) by lra.
  rewrite exp_Ropp, atan_inv by apply exp_pos. field. lra.
Qed.

Lemma div_PI_lt (a lo hi : R) : lo * PI < a < hi * PI -> lo < a / PI < hi.
Proof.
  intros [H1 H2]. pose proof PI_RGT_0.
  split; apply (Rmult_lt_reg_r PI); try done;
    unfold Rdiv; rewrite Rmult_assoc, Rinv_l by lra; lra.
Qed.

Lemma div_2PI (a : R) : a / (2 * PI) = a / PI / 2.
Proof. pose proof PI_RGT_0. field. lra. Qed.

Lemma div_2PI_le (a : R) : - PI <= a <= PI -> -1 / 2 <= a / (2 * PI) <= 1 / 2.
Proof.
  intros [H1 H2]. pose proof PI_RGT_0. rewrite div_2PI.
  assert (-1 <= a / PI <= 1); [|lra].
  split; apply (Rmult_le_reg_r PI); try done;
    unfold Rdiv; rewrite Rmult_assoc, Rinv_l by lra; lra.
Qed.

Lemma div_2PI_gt (a : R) : PI < a -> 1 / 2 < a / (2 * PI).
Proof.
  intros H1. pose proof PI_RGT_0. rewrite div_2PI.
  destruct (div_PI_lt a 1 (a / PI + 1)) as [? _]; [|lra].
  split; [lra|]. unfold Rdiv. rewrite Rmult_plus_distr_r, Rmult_assoc, Rinv_l by lra. lra.
Qed.

Lemma div_2PI_lt (a : R) : a < - PI -> a / (2 * PI) < -1 / 2.
Proof.
  intros H1. pose proof PI_RGT_0. rewrite div_2PI.
  destruct (div_PI_lt a (a / PI - 1) (-1)) as [_ ?]; [|lra].
  split; [|lra]. unfold Rdiv. rewrite Rmult_minus_distr_r, Rmult_assoc, Rinv_l by lra. lra.
Qed.

Lemma mercator_limit_range : 0 < mercator_limit < 90.
Proof.
  unfold mercator_limit. rewrite yLat_0. pose proof PI_RGT_0.
  pose proof (atan_bound (exp PI)) as [_ Hub].
  assert (PI / 4 < atan (exp PI)) as Hlb.
  { rewrite <- atan_1. apply atan_increasing.
    rewrite <- exp_0. apply exp_increasing. lra. }
  destruct (div_PI_lt (atan (exp PI)) (1 / 4) (1 / 2)) as [H1 H2]; [lra|].
  unfold Rdiv in *. rewrite Rmult_assoc. lra.
Qed.

(** The angle of the limit. *)
Lemma half_colatitude_limit : half_colatitude mercator_limit = atan (exp PI).
Proof.
  unfold half_colatitude, mercator_limit. rewrite yLat_0.
  pose proof PI_RGT_0. field. lra.
Qed.

Lemma half_colatitude_opp_limit :
  half_colatitude (- mercator_limit) = atan (exp (- PI)).
Proof.
  rewrite exp_Ropp, atan_inv by apply exp_pos.
  rewrite <- half_colatitude_limit. unfold half_colatitude. lra.
Qed.

Lemma half_colatitude_lt (l l' : R) : l < l' -> half_colatitude l < half_colatitude l'.
Proof. intros H. unfold half_colatitude. pose proof PI_RGT_0. nra. Qed.

(** Up to the limit, the round trip is exact. *)
Lemma yLat_latY_within_limit (l : R) :
  - mercator_limit <= l <= mercator_limit -> yLat (latY l) = l.
Proof.
  intros Hl. pose proof mercator_limit_range as HM. pose proof PI_RGT_0 as Hpi.
  assert (-90 < l < 90) as Hl' by lra.
  pose proof (half_colatitude_range l Hl') as [H0 H1].
  set (t := half_colatitude l) in *.
  assert (0 < tan t) as Ht by (by apply tan_gt_0).
  assert (exp (- PI) <= tan t <= exp PI) as [Hlo Hhi].
  { rewrite <- (tan_atan (exp (- PI))), <- (tan_atan (exp PI)).
    rewrite <- half_colatitude_limit, <- half_colatitude_opp_limit.
    pose proof (half_colatitude_range mercator_limit) as [? ?]; [lra|].
    pose proof (half_colatitude_range (- mercator_limit)) as [? ?]; [lra|].
    split.
    - destruct Hl as [[Hl|Hl] _].
      + left. apply tan_increasing; [lra| |lra]. by apply half_colatitude_lt.
      + right. unfold t. by rewrite Hl.
    - destruct Hl as [_ [Hl|Hl]].
      + left. apply tan_increasing; [lra| |lra]. by apply half_colatitude_lt.
      + right. unfold t. by rewrite Hl. }
  assert (- PI <= ln (tan t) <= PI) as [Hlnlo Hlnhi].
  { split.
    - rewrite <- (ln_exp (- PI)). destruct Hlo as [Hlo|Hlo].
      + left. apply ln_increasing; [apply exp_pos|done].
      + right. by rewrite Hlo.
    - rewrite <- (ln_exp PI). destruct Hhi as [Hhi|Hhi].
      + left. by apply ln_increasing.
      + right. by rewrite Hhi. }
  rewrite latY_tan by done. fold t.
  assert (0 <= 1 / 2 - ln (tan t) / (2 * PI) <= 1) as [Hy0 Hy1].
  { destruct (div_2PI_le (ln (tan t))) as [? ?]; lra. }
  rewrite decide_False by lra. rewrite decide_False by lra.
  rewrite yLat_tan by done. rewrite atan_tan by lra.
  unfold t, half_colatitude. field. lra.
Qed.

(** Beyond the limit, up to the pole, [latY] is clamped to 0. *)
Lemma latY_north_of_limit (l : R) :
  mercator_limit < l <= 90 -> latY l = 0.
Proof.
  intros [Hl [Hl'|Hl']].
  2:{ subst l. unfold latY. replace (90 * PI / 180) with (PI / 2) by lra.
      rewrite sin_PI2. by rewrite decide_True. }
  pose proof mercator_limit_range as HM. pose proof PI_RGT_0 as Hpi.
  assert (-90 < l < 90) as Hr by lra.
  pose proof (half_colatitude_range l Hr) as [H0 H1].
  rewrite latY_tan by done.
  set (t := half_colatitude l) in *.
  assert (exp PI < tan t) as Hhi.
  { rewrite <- (tan_atan (exp PI)), <- half_colatitude_limit.
    pose proof (half_colatitude_range mercator_limit) as [? ?]; [lra|].
    apply tan_increasing; [lra| |lra]. by apply half_colatitude_lt. }
  assert (PI < ln (tan t)) as Hln.
  { rewrite <- (ln_exp PI) at 1. apply ln_increasing; [apply exp_pos|done]. }
  pose proof (div_2PI_gt _ Hln). by rewrite decide_True by lra.
Qed.

(** Beyond the opposite limit, down to the pole, [latY] is clamped to 1. *)
Lemma latY_south_of_limit (l : R) :
  -90 <= l < - mercator_limit -> latY l = 1.
Proof.
  intros [[Hl'|Hl'] Hl].
  2:{ subst l. unfold latY. replace (-90 * PI / 180) with (- (PI / 2)) by lra.
      rewrite sin_neg, sin_PI2. rewrite decide_False by lra. by rewrite decide_True. }
  pose proof mercator_limit_range as HM. pose proof PI_RGT_0 as Hpi.
  assert (-90 < l < 90) as Hr by lra.
  pose proof (half_colatitude_range l Hr) as [H0 H1].
  rewrite latY_tan by done.
  set (t := half_colatitude l) in *.
  assert (0 < tan t) as Ht by (by apply tan_gt_0).
  assert (tan t < exp (- PI)) as Hlo.
  { rewrite <- (tan_atan (exp (- PI))), <- half_colatitude_opp_limit.
    pose proof (half_colatitude_range (- mercator_limit)) as [? ?]; [lra|].
    apply tan_increasing; [lra| |lra]. by apply half_colatitude_lt. }
  assert (ln (tan t) < - PI) as Hln.
  { rewrite <- (ln_exp (- PI)). by apply ln_increasing. }
  pose proof (div_2PI_lt _ Hln) as Hq.
  rewrite decide_False by lra. rewrite decide_True by lra. done.
Qed.


(** ** The limit is beyond 85.05 degrees *)

Lemma PI_lower : 6283 / 2000 < PI.
Proof.
  pose proof (PI_2_3_7_ineq 1) as [H _].
  unfold sum_f_R0, tg_alt, PI_2_3_7_tg, Ratan_seq in H. simpl in H. lra.
Qed.

Lemma E1_growing (x : R) : 0 <= x -> Un_growing (E1 x).
Proof.
  intros Hx n. unfold E1. rewrite tech5.
  assert (0 <= / INR (fact (S n)) * x ^ S n); [|lra].
  apply Rmult_le_pos; [left; apply Rinv_0_lt_compat, INR_fact_lt_0|by apply pow_le].
Qed.

Lemma exp_ge_E1 (x : R) (N : nat) : 0 <= x -> E1 x N <= exp x.
Proof. intros Hx. apply growing_ineq; [by apply E1_growing|apply E1_cvg]. Qed.

Lemma exp_sixteenth_lower : 1216945076 / 1000000000 <= exp (6283 / 32000).
Proof.
  eapply Rle_trans; [|apply (exp_ge_E1 _ 5); lra].
  unfold E1, sum_f_R0. simpl. lra.
Qed.

Lemma exp_double (x : R) : exp (2 * x) = exp x * exp x.
Proof. replace (2 * x) with (x + x) by lra. apply exp_plus. Qed.

Lemma exp_PI_lower : 23138523572 / 1000000000 < exp PI.
Proof.
  pose proof exp_sixteenth_lower as H0.
  assert (1480955318 / 1000000000 <= exp (6283 / 16000)) as H1.
  { replace (6283 / 16000) with (2 * (6283 / 32000)) by lra. rewrite exp_double. nra. }
  assert (2193228653 / 1000000000 <= exp (6283 / 8000)) as H2.
  { replace (6283 / 8000) with (2 * (6283 / 16000)) by lra. rewrite exp_double. nra. }
  assert (4810251924 / 1000000000 <= exp (6283 / 4000)) as H3.
  { replace (6283 / 4000) with (2 * (6283 / 8000)) by lra. rewrite exp_double. nra. }
  assert (23138523572 / 1000000000 <= exp (6283 / 2000)) as H4.
  { replace (6283 / 2000) with (2 * (6283 / 4000)) by lra. rewrite exp_double. nra. }
  eapply Rle_lt_trans; [exact H4|]. apply exp_increasing, PI_lower.
Qed.

Lemma tan_lower : 43222509 / 1000000000 < tan (4.95 * PI / 360).
Proof.
  pose proof PI_lower as Hpi. pose proof PI_4 as Hpi4.
  set (a := 69113 / 1600000).
  assert (a < 4.95 * PI / 360) as Ha by (unfold a; lra).
  assert (tan a < tan (4.95 * PI / 360)) as Ht
    by (apply tan_increasing; unfold a; lra).
  eapply Rle_lt_trans; [|exact Ht].
  assert (0 < cos a) as Hc by (apply cos_gt_0; unfold a; lra).
  pose proof (sin_bound a 0) as [Hs _]; [unfold a; lra|unfold a; lra|].
  pose proof (cos_bound a 0) as [_ Hcu]; [unfold a; lra|unfold a; lra|].
  unfold sin_approx, sin_term, sum_f_R0 in Hs. simpl in Hs.
  unfold cos_approx, cos_term, sum_f_R0 in Hcu. simpl in Hcu.
  unfold tan. apply (Rmult_le_reg_r (cos a)); [done|].
  unfold Rdiv at 2. rewrite Rmult_assoc, Rinv_l by lra.
  unfold a in *. nra.
Qed.


Lemma tan_complement (x : R) : 0 < x < PI / 2 -> tan (PI / 2 - x) = / tan x.
Proof.
  intros [H0 H1].
  assert (0 < sin x) as Hs by (apply sin_gt_0; pose proof PI_RGT_0; lra).
  assert (0 < cos x) as Hc by (by apply cos_gt_0; lra).
  unfold tan. rewrite sin_shift, cos_shift. field. lra.
Qed.

Lemma tan_band_edge : tan (half_colatitude 85.05) < exp PI.
Proof.
  pose proof PI_RGT_0 as Hpi. pose proof PI_4 as Hpi4.
  replace (half_colatitude 85.05) with (PI / 2 - 4.95 * PI / 360)
    by (unfold half_colatitude; lra).
  rewrite tan_complement by lra.
  pose proof tan_lower as Ht. pose proof exp_PI_lower as He.
  set (t := tan (4.95 * PI / 360)) in *. set (e := exp PI) in *.
  assert (0 < t) as Ht0 by lra.
  apply (Rmult_lt_reg_r t); [done|]. rewrite Rinv_l by lra. nra.
Qed.

Lemma band_within_limit : 85.05 < mercator_limit.
Proof.
  pose proof PI_RGT_0 as Hpi.
  pose proof (half_colatitude_range 85.05) as [H0 H1]; [lra|].
  assert (half_colatitude 85.05 < half_colatitude mercator_limit) as H.
  { rewrite half_colatitude_limit, <- (atan_tan (half_colatitude 85.05)) by lra.
    apply atan_increasing, tan_band_edge. }
  unfold half_colatitude in H. nra.
Qed.

(** At 85.05 degrees [latY] is not clamped. *)
Lemma latY_band_edge : 0 < latY 85.05 < 1.
Proof.
  pose proof PI_RGT_0 as Hpi.
  pose proof (half_colatitude_range 85.05) as [H0 H1]; [lra|].
  rewrite latY_tan by lra.
  set (t := half_colatitude 85.05) in *.
  assert (1 < tan t) as Ht1.
  { rewrite <- tan_PI4. apply tan_increasing; [lra| |lra].
    unfold t, half_colatitude. lra. }
  assert (0 < ln (tan t) < PI) as [Hl0 Hl1].
  { split.
    - rewrite <- ln_1. apply ln_increasing; lra.
    - rewrite <- (ln_exp PI). apply ln_increasing; [lra|apply tan_band_edge]. }
  destruct (div_PI_lt (ln (tan t)) 0 1) as [? ?]; [lra|].
  rewrite div_2PI. rewrite decide_False by lra. rewrite decide_False by lra. lra.
Qed.

(** C6, amended.  Over the real numbers: [xLng] inverts [lngX];
    [yLat] inverts [latY] on the latitudes from -85.05 to 85.05, and
    further up to the limit [yLat 0], which lies between 85.05 and 90;
    beyond the limit, up to the poles, [latY] returns 0 in the north
    and 1 in the south, and the round trip returns the limit, not the
    latitude. *)
Theorem projection_round_trip :
  (forall l, xLng (lngX l) = l) /\
  (forall l, -85.05 <= l <= 85.05 -> yLat (latY l) = l) /\
  85.05 < mercator_limit < 90 /\
  (forall l, - mercator_limit <= l <= mercator_limit -> yLat (latY l) = l) /\
  (forall l, mercator_limit < l <= 90 ->
     latY l = 0 /\ yLat (latY l) = mercator_limit /\ yLat (latY l) <> l) /\
  (forall l, -90 <= l < - mercator_limit ->
     latY l = 1 /\ yLat (latY l) = - mercator_limit /\ yLat (latY l) <> l).
Proof.
  pose proof band_within_limit as Hb. pose proof mercator_limit_range as [_ HM].
  split; [exact xLng_lngX|].
  split; [intros l Hl; apply yLat_latY_within_limit; lra|].
  split; [lra|].
  split; [exact yLat_latY_within_limit|].
  split.
  - intros l Hl. rewrite (latY_north_of_limit l Hl). fold mercator_limit.
    repeat split; lra.
  - intros l Hl. rewrite (latY_south_of_limit l Hl), yLat_1. fold mercator_limit.
    repeat split; lra.
Qed.

(** C6 fails at the edge of the band.  The latitude 85.05 is not
    strictly inside the band, yet [latY] does not saturate there and
    the round trip returns it. *)
Lemma band_edge_not_saturated :
  ~ (-85.05 < 85.05 < 85.05) /\
  latY 85.05 <> 0 /\ latY 85.05 <> 1 /\
  yLat (latY 85.05) = 85.05.
Proof.
  pose proof latY_band_edge as [H0 H1]. pose proof band_within_limit as Hb.
  repeat split; try lra.
  apply yLat_latY_within_limit. lra.
Qed.

End ProjectorFacts.

(** ** The projection: further properties *)

Section ProjectorOrder.
Local Open Scope R_scope.
Import Projector.

(** The latitude that [yLat] returns, as an angle. *)
Lemma half_colatitude_yLat (y : R) :
  half_colatitude (yLat y) = atan (exp ((180 - y * 360) * PI / 180)).
Proof. unfold half_colatitude, yLat. pose proof PI_RGT_0. field. lra. Qed.

Lemma yLat_between_poles (y : R) : -90 < yLat y < 90.
Proof.
  pose proof PI_RGT_0 as Hpi.
  pose proof (half_colatitude_yLat y) as H.
  pose proof (atan_bound (exp ((180 - y * 360) * PI / 180))) as [_ Hub].
  assert (0 < atan (exp ((180 - y * 360) * PI / 180))) as Hlb.
  { rewrite <- atan_0. apply atan_increasing, exp_pos. }
  rewrite <- H in Hub, Hlb. unfold half_colatitude in Hub, Hlb. nra.
Qed.

(** X1.  [latY] after [yLat]: the value is returned when it lies in
    [[0, 1]], and clamped otherwise. *)
Theorem latY_yLat (y : R) :
  latY (yLat y) = if decide (y < 0) then 0 else if decide (y > 1) then 1 else y.
Proof.
  pose proof PI_RGT_0 as Hpi.
  rewrite latY_tan by apply yLat_between_poles.
  rewrite half_colatitude_yLat, tan_atan, ln_exp.
  replace (1 / 2 - (180 - y * 360) * PI / 180 / (2 * PI)) with y by (field; lra).
  done.
Qed.

(** X2.  Over the real numbers, that is for the formula of [latY]
    evaluated without rounding, [latY] is symmetric about the equator:
    the latitudes [lat] and [- lat] are projected to [y] and [1 - y]. *)
Theorem latY_opp (lat : R) : latY (- lat) = 1 - latY lat.
Proof.
  pose proof PI_RGT_0 as Hpi. unfold latY.
  replace (- lat * PI / 180) with (- (lat * PI / 180)) by lra.
  rewrite sin_neg. set (s := sin (lat * PI / 180)).
  pose proof (SIN_bound (lat * PI / 180)) as [Hlo Hhi]. fold s in Hlo, Hhi.
  destruct (decide (s = 1)) as [H1|H1].
  { rewrite decide_False by lra. rewrite decide_True by lra. lra. }
  destruct (decide (s = -1)) as [H2|H2].
  { rewrite decide_True by lra. lra. }
  rewrite decide_False by lra. rewrite decide_False by lra.
  assert (mercatorY (- s) = 1 - mercatorY s) as ->.
  { unfold mercatorY.
    replace ((1 + - s) / (1 - - s)) with (/ ((1 + s) / (1 - s))) by (field; lra).
    rewrite ln_Rinv; [unfold Rdiv; lra|].
    apply Rdiv_lt_0_compat; lra. }
  repeat case_decide; lra.
Qed.

Lemma latY_order (l l' : R) :
  -90 <= l -> l <= l' -> l' <= 90 -> latY l' <= latY l.
Proof.
  intros Hl Hll Hl'. pose proof PI_RGT_0 as Hpi.
  destruct (decide (l' = 90)) as [->|Hn].
  { rewrite (latY_north_of_limit 90); [apply latY_range|].
    pose proof mercator_limit_range. lra. }
  destruct (decide (l = -90)) as [->|Hs].
  { rewrite (latY_south_of_limit (-90)); [apply latY_range|].
    pose proof mercator_limit_range. lra. }
  destruct Hll as [Hlt| ->]; [|lra].
  rewrite !latY_tan by lra.
  pose proof (half_colatitude_range l) as [H0 H1]; [lra|].
  pose proof (half_colatitude_range l') as [H0' H1']; [lra|].
  assert (tan (half_colatitude l) < tan (half_colatitude l')) as Ht.
  { apply tan_increasing; [lra| |lra]. by apply half_colatitude_lt. }
  assert (0 < tan (half_colatitude l)) as Hpos by (by apply tan_gt_0).
  assert (ln (tan (half_colatitude l)) < ln (tan (half_colatitude l'))) as Hln
    by (by apply ln_increasing).
  assert (ln (tan (half_colatitude l)) / (2 * PI) < ln (tan (half_colatitude l')) / (2 * PI)).
  { apply Rmult_lt_compat_r; [apply Rinv_0_lt_compat; lra|done]. }
  repeat case_decide; lra.
Qed.

(** On [[0, 1]], [yLat] stays within the limit. *)
Lemma yLat_unit_interval (y : R) :
  0 <= y <= 1 -> - mercator_limit <= yLat y <= mercator_limit.
Proof.
  intros [H0 H1]. pose proof PI_RGT_0 as Hpi.
  unfold mercator_limit. rewrite <- yLat_1. unfold yLat.
  assert (forall a b, a <= b ->
    360 * atan (exp ((180 - b * 360) * PI / 180)) / PI - 90 <=
    360 * atan (exp ((180 - a * 360) * PI / 180)) / PI - 90) as Hmono.
  { intros a b [Hab| ->]; [|lra].
    assert (atan (exp ((180 - b * 360) * PI / 180)) < atan (exp ((180 - a * 360) * PI / 180))).
    { apply atan_increasing, exp_increasing. nra. }
    assert (atan (exp ((180 - b * 360) * PI / 180)) / PI
            < atan (exp ((180 - a * 360) * PI / 180)) / PI).
    { apply Rmult_lt_compat_r; [apply Rinv_0_lt_compat; lra|done]. }
    lra. }
  split; by apply Hmono.
Qed.

(** X3.  [latY] does not increase with the latitude, from pole to pole:
    north is up. *)
Theorem latY_antitone (l l' : R) :
  -90 <= l -> l <= l' -> l' <= 90 -> latY l' <= latY l.
Proof.
  intros Hl Hll Hl'. destruct (decide (l = l')) as [->|Hne]; [lra|].
  apply latY_order; lra.
Qed.

(** X4.  [yLat] returns a latitude from -90 to 90 for every [y], and
    it does not return a larger latitude for a larger [y]. *)
Theorem yLat_range_decreasing :
  (forall y, -90 <= yLat y <= 90) /\
  (forall y y', y <= y' -> yLat y' <= yLat y).
Proof.
  split.
  { intros y. pose proof (yLat_between_poles y). lra. }
  intros y y' [Hy| ->]; [|lra]. pose proof PI_RGT_0 as Hpi. unfold yLat.
  assert (atan (exp ((180 - y' * 360) * PI / 180)) < atan (exp ((180 - y * 360) * PI / 180))).
  { apply atan_increasing, exp_increasing. nra. }
  assert (atan (exp ((180 - y' * 360) * PI / 180)) / PI
          < atan (exp ((180 - y * 360) * PI / 180)) / PI).
  { apply Rmult_lt_compat_r; [apply Rinv_0_lt_compat; lra|done]. }
  lra.
Qed.

End ProjectorOrder.

(** ** The longitude maps with rounding *)

Section RoundedProjector.
Local Open Scope R_scope.

Lemma rounds_abs u eta M rnd x :
  rounds_within u eta M rnd -> Rabs x <= M -> Rabs (rnd x) <= (1 + u) * Rabs x + eta.
Proof.
  intros H Hx. specialize (H x Hx).
  replace (rnd x) with ((rnd x - x) + x) by lra.
  eapply Rle_trans; [apply Rabs_triang|]. lra.
Qed.

(** X27.  The round trip of a longitude in floating-point arithmetic:
    when every operation is rounded with a relative error of at most
    [u] (and an absolute error of at most [eta] on top), the longitude
    that [xLng] returns for [lngX l] differs from [l] by at most
    [u * (5 * |l| + 228) + 1500 * eta]. *)
Theorem lngX_round_trip_within_tolerance (u eta M : R) (rnd : R -> R) (l : R) :
  0 <= u <= 1 / 8 -> 0 <= eta <= 1 -> 5000 <= M ->
  rounds_within u eta M rnd ->
  Rabs l <= M / 2 ->
  Rabs (Rounded.xLng rnd (Rounded.lngX rnd l) - l) <= u * (5 * Rabs l + 228) + 1500 * eta.
Proof.
  intros Hu He HM H Hl. unfold Rounded.xLng, Rounded.lngX.
  set (a := l / 360).
  set (a1 := rnd a). set (x := rnd (a1 + 0.5)). set (d1 := rnd (x - 0.5)).
  pose proof (Rabs_pos a) as Ha.
  assert (Rabs l = 360 * Rabs a) as Hla.
  { unfold a. unfold Rdiv. rewrite Rabs_mult, (Rabs_pos_eq (/ 360)); lra. }
  set (A := Rabs a) in *.
  assert (u * A <= A / 8) as UA by nra.
  (* the first division *)
  assert (A <= M) as D1 by lra.
  pose proof (H a D1) as E1. fold a1 A in E1.
  pose proof (rounds_abs _ _ _ _ a H D1) as B1. fold a1 A in B1.
  (* the addition *)
  assert (Rabs (a1 + 0.5) <= (1 + u) * A + eta + 0.5) as B2.
  { eapply Rle_trans; [apply Rabs_triang|]. rewrite (Rabs_pos_eq 0.5); lra. }
  set (Sm := (1 + u) * A + eta + 0.5) in *.
  assert (0 <= Sm) as HS by (eapply Rle_trans; [apply Rabs_pos|exact B2]).
  assert (Sm <= 9 / 8 * A + 3 / 2) as S1 by (unfold Sm; lra).
  assert (u * Sm <= Sm / 8) as US by nra.
  assert (Rabs (a1 + 0.5) <= M) as D2 by lra.
  pose proof (H _ D2) as E2. fold x in E2.
  assert (u * Rabs (a1 + 0.5) <= u * Sm) as F2 by (apply Rmult_le_compat_l; lra).
  (* the subtraction *)
  assert (Rabs (x - 0.5) <= (1 + u) * A + eta + (u * Sm + eta)) as B3.
  { replace (x - 0.5) with (a1 + (x - (a1 + 0.5))) by lra.
    eapply Rle_trans; [apply Rabs_triang|]. lra. }
  set (D := (1 + u) * A + eta + (u * Sm + eta)) in *.
  assert (0 <= D) as HD by (eapply Rle_trans; [apply Rabs_pos|exact B3]).
  assert (D <= 9 / 8 * A + 2 + Sm / 8) as DD by (unfold D; lra).
  assert (u * D <= D / 8) as UD by nra.
  assert (Rabs (x - 0.5) <= M) as D3 by lra.
  pose proof (H _ D3) as E3. fold d1 in E3.
  pose proof (rounds_abs _ _ _ _ (x - 0.5) H D3) as B4. fold d1 in B4.
  assert (u * Rabs (x - 0.5) <= u * D) as F3 by (apply Rmult_le_compat_l; lra).
  (* the multiplication *)
  assert (Rabs (d1 * 360) <= 360 * ((1 + u) * D + eta)) as B5.
  { rewrite Rabs_mult, (Rabs_pos_eq 360) by lra. lra. }
  assert (Rabs (d1 * 360) <= M) as D4 by lra.
  pose proof (H _ D4) as E4.
  assert (u * Rabs (d1 * 360) <= u * (360 * ((1 + u) * D + eta))) as F4
    by (apply Rmult_le_compat_l; lra).
  replace (rnd (d1 * 360) - l)
    with ((rnd (d1 * 360) - d1 * 360) + 360 * ((d1 - (x - 0.5)) + (x - (a1 + 0.5)) + (a1 - a)))
    by (unfold a; field).
  eapply Rle_trans; [apply Rabs_triang|].
  rewrite Rabs_mult, (Rabs_pos_eq 360) by lra.
  assert (Rabs (d1 - (x - 0.5) + (x - (a1 + 0.5)) + (a1 - a))
          <= Rabs (d1 - (x - 0.5)) + Rabs (x - (a1 + 0.5)) + Rabs (a1 - a)) as T.
  { eapply Rle_trans; [apply Rabs_triang|].
    apply Rplus_le_compat_r. apply Rabs_triang. }
  rewrite Hla.
  assert (Rabs (rnd (d1 * 360) - d1 * 360) +
          360 * Rabs (d1 - (x - 0.5) + (x - (a1 + 0.5)) + (a1 - a))
          <= u * (360 * ((1 + u) * D + eta)) + eta
             + 360 * (u * D + eta + (u * Sm + eta) + (u * A + eta))) as Hsum by lra.
  eapply Rle_trans; [exact Hsum|]. unfold D, Sm. clear - Hu He Ha.
  assert (u * u <= u / 8) as U2 by nra.
  assert (u * u * u <= u / 64) as U3 by nra.
  assert (0 <= u * eta <= eta / 8) as UE by nra.
  assert (0 <= u * u * eta <= eta / 64) as UUE by nra.
  assert (0 <= u * u * u * eta <= eta / 512) as UUUE by nra.
  assert (0 <= u * A) as UA0 by nra.
  assert (u * u * A <= u * A / 8) as UUA by nra.
  assert (u * u * u * A <= u * A / 64) as UUUA by nra.
  assert (0 <= u * u * A) by nra. assert (0 <= u * u * u * A) by nra.
  assert (u * u * u * u * A <= u * A / 512) by nra.
  assert (0 <= u * u * u * u * A) by nra.
  assert (u * u * u * u <= u / 512) by nra.
  assert (0 <= u * u * u * u) by nra.
  nra.
Qed.

End RoundedProjector.

Section EngineFacts.

Variable rbush_search : list Cluster.t -> Tree -> BBox -> list ref.
Hypothesis rbush_search_spec :
  forall h t a, rbush_search h t a ≡ₚ filter (hit h a) t.

(** ** The neighbors of a point *)

Lemma getNeighbors_Some this i zoom ns :
  _getNeighbors rbush_search this i zoom = Some ns ->
  exists p t,
    heap this !! i = Some p /\
    array_get (trees this) (zoom + 1) = Some t /\
    (NoDup t -> NoDup ns) /\
    forall j, j ∈ ns ->
      j ∈ t /\
      exists b, heap this !! j = Some b /\
        zoom_lt zoom (Cluster.zoom b) = true /\
        (distSq p b <= search_radius (options this) zoom * search_radius (options this) zoom)%R.
Proof.
  unfold _getNeighbors. intros H.
  destruct (heap this !! i) as [p|] eqn:Hp; simpl in H; [|done].
  destruct (array_get (trees this) (zoom + 1)) as [t|] eqn:Ht; simpl in H; [|done].
  simplify_eq. exists p, t. repeat split; try done.
  - intros Hnd. apply NoDup_filter. rewrite rbush_search_spec. by apply NoDup_filter.
  - apply list_elem_of_filter in H as [_ H].
    rewrite rbush_search_spec in H. by apply list_elem_of_filter in H as [_ H].
  - apply list_elem_of_filter in H as [H _]. unfold near in H.
    destruct (heap this !! j) as [b|]; [|done].
    apply andb_true_iff in H as [H1 H2]. apply bool_decide_eq_true in H2. eauto.
Qed.

Lemma getNeighbors_is_Some this i zoom :
  is_Some (heap this !! i) ->
  is_Some (array_get (trees this) (zoom + 1)) ->
  is_Some (_getNeighbors rbush_search this i zoom).
Proof.
  intros [p Hp] [t Ht]. unfold _getNeighbors. rewrite Hp, Ht. simpl. eauto.
Qed.

(** The neighbors found for [i] once [i.zoom = zoom] is done, in terms
    of the heap before the assignment. *)
Lemma claimed_neighbors this i zoom point ns :
  heap this !! i = Some point ->
  _getNeighbors rbush_search (assign_zoom i zoom this) i zoom = Some ns ->
  exists t,
    array_get (trees this) (zoom + 1) = Some t /\
    (NoDup t -> NoDup ns) /\
    forall j, j ∈ ns ->
      j ∈ t /\ j <> i /\ live (heap this) zoom j /\
      exists b, heap this !! j = Some b /\
        (distSq point b <= search_radius (options this) zoom * search_radius (options this) zoom)%R.
Proof.
  intros Hp H. apply getNeighbors_Some in H as (p & t & Hp' & Ht & Hnd & H).
  simpl in *. rewrite list_lookup_alter_eq, Hp in Hp'. simplify_eq/=.
  exists t. split; [done|]. split; [done|].
  intros j Hj. destruct (H j Hj) as (Ht' & b & Hb & Hz & Hd).
  assert (j <> i) as Hne.
  { intros ->. rewrite list_lookup_alter_eq, Hp in Hb. simpl in Hb.
    injection Hb as <-. simpl in Hz. apply bool_decide_eq_true in Hz. lia. }
  rewrite list_lookup_alter_ne in Hb by done.
  repeat split; try done.
  - unfold live. rewrite Hb. rewrite zoom_lt_le in Hz. by destruct (zoom_le _ _).
  - eauto.
Qed.

(** ** The loop of [_cluster] *)

Lemma cluster_point_is_Some zoom i this clusters :
  i < length (heap this) ->
  is_Some (array_get (trees this) (zoom + 1)) ->
  is_Some (cluster_point rbush_search zoom i this clusters).
Proof.
  intros Hi Ht. unfold cluster_point.
  destruct (lookup_lt_is_Some_2 _ _ Hi) as [point Hp]. rewrite Hp. simpl.
  destruct (zoom_le _ _); [done|].
  assert (is_Some (heap (assign_zoom i zoom this) !! i)) as H1
    by (by rewrite heap_assign_zoom, list_lookup_alter_eq, Hp).
  destruct (getNeighbors_is_Some (assign_zoom i zoom this) i zoom H1 Ht) as [ns Hns].
  rewrite Hns. simpl. destruct ns as [|j ns]; [done|].
  apply getNeighbors_Some in Hns as (p & t & _ & _ & _ & Hns).
  destruct (absorb_is_Some zoom (j :: ns) (assign_zoom i zoom this)
    (Cluster.wx point * IZR (Cluster.numPoints point))
    (Cluster.wy point * IZR (Cluster.numPoints point))
    (Cluster.numPoints point)) as [[[[this2 wx] wy] n] Ha].
  { apply Forall_forall. intros k Hk. destruct (Hns k Hk) as (_ & b & Hb & _).
    by eapply lookup_lt_Some. }
  rewrite Ha. simpl. done.
Qed.

(** The effect of an iteration that claims the point [i]. *)
Lemma Step_claim zoom i this clusters this' clusters' point :
  Step rbush_search zoom i this clusters this' clusters' ->
  heap this !! i = Some point ->
  zoom_le (Cluster.zoom point) zoom = false ->
  exists ns new c,
    _getNeighbors rbush_search (assign_zoom i zoom this) i zoom = Some ns /\
    options this' = options this /\ trees this' = trees this /\
    heap this' = mark_all zoom (i :: ns) (heap this) ++ new /\
    writes this' = writes this ++ ((fun j => (j, zoom)) <$> i :: ns) /\
    clusters' = clusters ++ [c] /\
    mass (heap this') [c] = mass (heap this) (i :: ns) /\
    (c = i /\ new = [] \/
     c = length (heap this) /\ exists a, new = [a] /\ Cluster.zoom a = Infinity).
Proof.
  intros HS Hp Hz.
  destruct HS as [point' Hp' Hz'|point' Hp' Hz' Hns
                 |point' ns this' Hp' Hz' Hns Hne Hv Ho Ht Hh Hw];
    rewrite Hp in Hp'; injection Hp' as <-; [congruence| |].
  - exists [], [], i. rewrite app_nil_r. repeat split; try done.
    + rewrite heap_assign_zoom, !mass_singleton, list_lookup_alter_eq, Hp. done.
    + by left.
  - exists ns, [aggregate point (heap this) ns], (length (heap this)).
    repeat split; try done.
    + rewrite Hh, mass_singleton.
      rewrite lookup_app_r by (by rewrite mark_all_length).
      rewrite mark_all_length, Nat.sub_diag. simpl. rewrite Hp. simpl. lia.
    + right. eauto.
Qed.

Lemma cluster_loop_spec zoom rest : forall this clusters,
  pass_ready zoom this rest clusters ->
  exists this' clusters',
    cluster_loop rbush_search zoom rest this clusters = Some (this', clusters') /\
    pass_done zoom this rest clusters this' clusters'.
Proof.
  induction rest as [|i rest IH]; intros this clusters [Htree [Hnd Hv] (Hcnd & Hcl & Hcr)].
  { exists this, clusters. split; [done|]. split; try done.
    - apply heap_le_refl.
    - simpl. lia.
    - exists []. split; [by rewrite app_nil_r|]. split; [constructor|].
      intros j Hj. by apply elem_of_nil in Hj. }
  destruct Htree as (t & Ht & Htnd & Htv & Htl).
  apply NoDup_cons in Hnd as [Hi Hnd]. apply Forall_cons in Hv as [Hiv Hv].
  destruct (cluster_point_is_Some zoom i this clusters Hiv) as [[this1 cl1] H1]; [by eexists|].
  simpl. rewrite H1. simpl.
  apply cluster_point_Step in H1.
  destruct (lookup_lt_is_Some_2 _ _ Hiv) as [point Hp].
  destruct (zoom_le (Cluster.zoom point) zoom) eqn:Hz.
  - (* already visited *)
    assert (this1 = this /\ cl1 = clusters) as [-> ->].
    { destruct H1; simplify_eq; try congruence; done. }
    assert (~ live (heap this) zoom i) as Hdead.
    { unfold live. rewrite Hp, Hz. done. }
    destruct (IH this clusters) as (this' & cl' & Hloop & [Ho Htr Hle Hm Hc Hw]).
    { split.
      - exists t. repeat split; try done. intros j Hj Hlive.
        pose proof (Htl j Hj Hlive) as Hx; apply elem_of_cons in Hx as [->|?]; done.
      - done.
      - repeat split; try done. intros c Hc Hin. apply (Hcr c Hc). by right. }
    exists this', cl'. split; [done|]. split; try done.
    + by rewrite filter_cons_False.
    + destruct Hw as (ws & Hw & Hwn & Hwl). exists ws. repeat split; try done.
      * right. by apply Hwl.
      * by apply Hwl.
  - (* the point claims its neighbors *)
    destruct (Step_claim _ _ _ _ _ _ _ H1 Hp Hz)
      as (ns & new & c & Hns & Ho1 & Ht1 & Hh1 & Hw1 & -> & Hm1 & Hc).
    destruct (claimed_neighbors _ _ _ _ _ Hp Hns) as (t' & Ht' & Hnsnd & Hnsl).
    rewrite Ht in Ht'. injection Ht' as <-. specialize (Hnsnd Htnd).
    assert (live (heap this) zoom i) as Hlive.
    { unfold live. by rewrite Hp. }
    assert (forall j, j ∈ ns -> j ∈ rest /\ live (heap this) zoom j) as Hnsr.
    { intros j Hj. destruct (Hnsl j Hj) as (Hjt & Hne & Hjl & _). split; [|done].
      pose proof (Htl j Hjt Hjl) as Hx; apply elem_of_cons in Hx as [->|?]; done. }
    assert (NoDup (i :: ns)) as Hms.
    { apply NoDup_cons. split; [|done]. intros Hin. apply Hi. by apply Hnsr. }
    assert (forall j, j ∈ i :: ns -> j ∈ i :: rest /\ live (heap this) zoom j) as Hmsl.
    { intros j [->|Hj]%elem_of_cons; [split; [by left|done]|].
      destruct (Hnsr j Hj). split; [by right|done]. }
    assert (length (heap this) <= length (heap this1)) as Hlen.
    { rewrite Hh1, length_app, mark_all_length. lia. }
    assert (heap_le (heap this) (heap this1)) as Hle1.
    { rewrite Hh1. eapply heap_le_trans; [apply heap_le_mark_all|apply heap_le_app]. }
    assert ((c ∉ rest) /\ (c ∉ clusters) /\ live (heap this1) (zoom - 1) c) as (Hcr1 & Hcc1 & Hcl1).
    { destruct Hc as [[-> ->]|(-> & a & -> & Ha)].
      - repeat split; [done| |].
        + intros Hin. apply (Hcr i Hin). by left.
        + rewrite Hh1. apply live_pred_mark_all; [done|]. right. by left.
      - repeat split.
        + intros Hin. apply (proj1 (Forall_forall _ _) Hv) in Hin. lia.
        + intros Hin. apply (proj1 (Forall_forall _ _) Hcl) in Hin.
          apply live_lt in Hin. lia.
        + rewrite Hh1. unfold live.
          rewrite lookup_app_r by (by rewrite mark_all_length).
          rewrite mark_all_length, Nat.sub_diag. simpl. by rewrite Ha. }
    destruct (IH this1 (clusters ++ [c])) as (this' & cl' & Hloop & [Ho Htr Hle Hm Hcd Hw]).
    { split.
      - exists t. rewrite Ht1. repeat split; try done.
        + eapply Forall_impl; [exact Htv|]. simpl. intros; lia.
        + intros j Hj Hjl.
          assert (j < length (heap this)) as Hjv
            by (by apply (proj1 (Forall_forall _ _) Htv)).
          rewrite Hh1 in Hjl. apply live_mark_all in Hjl as [Hjl Hjm]; [|done].
          pose proof (Htl j Hj Hjl) as Hx; apply elem_of_cons in Hx as [->|?]; [|done].
          exfalso. apply Hjm. by left.
      - split; [done|]. eapply Forall_impl; [exact Hv|]. simpl. intros; lia.
      - repeat split.
        + apply NoDup_app. repeat split; [done| |apply NoDup_singleton].
          intros x Hx ->%list_elem_of_singleton. done.
        + apply Forall_app. split; [|by constructor].
          apply Forall_forall. intros x Hx. rewrite Hh1.
          assert (Hxl := proj1 (Forall_forall _ _) Hcl x Hx).
          apply live_pred_mark_all; [by eapply live_lt|by left].
        + intros x [Hx| ->%list_elem_of_singleton]%elem_of_app; [|done].
          intros Hin. apply (Hcr x Hx). by right. }
    exists this', cl'. split; [done|]. split.
    + congruence.
    + congruence.
    + by eapply heap_le_trans.
    + rewrite Hm, mass_app, Hm1.
      rewrite (mass_heap_le _ _ _ Hle1)
        by (eapply Forall_impl; [exact Hcl|]; intros ?; apply live_lt).
      rewrite (mass_heap_le (heap this) (heap this1) (filter _ rest) Hle1).
      2:{ apply Forall_forall. intros x [_ Hx]%list_elem_of_filter.
          by apply (proj1 (Forall_forall _ _) Hv). }
      rewrite (mass_claim (heap this) zoom (i :: ns) new (i :: rest));
        [|by apply NoDup_cons|done|by apply Forall_cons|done].
      rewrite <- Hh1. rewrite (filter_cons_False _ i rest); [lia|].
      rewrite Hh1. intros Hl. apply live_mark_all in Hl as [_ Hl]; [|done].
      apply Hl. by left.
    + done.
    + destruct Hw as (ws & Hw & Hwn & Hwl).
      exists ((i :: ns) ++ ws). repeat split.
      * rewrite Hw, Hw1, fmap_app, app_assoc. done.
      * apply NoDup_app. repeat split; [done| |done].
        intros j Hj Hjw. destruct (Hwl j Hjw) as [Hjr Hjl].
        rewrite Hh1 in Hjl. apply live_mark_all in Hjl as [_ Hjl]; [done|].
        by apply (proj1 (Forall_forall _ _) Hv).
      * apply elem_of_app in H as [Hj|Hj]; [by apply Hmsl|].
        right. by apply Hwl.
      * apply elem_of_app in H as [Hj|Hj]; [by apply Hmsl|].
        destruct (Hwl j Hj) as [Hjr Hjl].
        rewrite Hh1 in Hjl. apply live_mark_all in Hjl as [Hjl _]; [done|].
        by apply (proj1 (Forall_forall _ _) Hv).
Qed.

(** ** The loop of [load] *)

Lemma array_get_Some {A} (a : list A) (z : Z) (x : A) :
  array_get a z = Some x <-> (0 <= z)%Z /\ a !! Z.to_nat z = Some x.
Proof. unfold array_get. case_decide; naive_solver. Qed.

Lemma array_get_insert_eq {A} (a : list A) (z : Z) (x : A) :
  (0 <= z)%Z -> Z.to_nat z < length a ->
  array_get (<[Z.to_nat z := x]> a) z = Some x.
Proof. intros. apply array_get_Some. split; [done|]. by apply list_lookup_insert_eq. Qed.

Lemma array_get_insert_ne {A} (a : list A) (z k : Z) (x : A) :
  (0 <= z)%Z -> k <> z ->
  array_get (<[Z.to_nat z := x]> a) k = array_get a k.
Proof.
  intros. unfold array_get. case_decide; [|done].
  apply list_lookup_insert_ne. lia.
Qed.

Lemma filter_Forall {A} (P : A -> Prop) `{!forall x, Decision (P x)} (l : list A) :
  Forall P l -> filter P l = l.
Proof.
  induction 1 as [|a l Ha _ IH]; [done|]. by rewrite filter_cons_True, IH.
Qed.

Lemma written_to_app i ws ws' :
  written_to i (ws ++ ws') = written_to i ws ++ written_to i ws'.
Proof. unfold written_to. by rewrite filter_app, fmap_app. Qed.

Lemma written_to_elem i z ws : z ∈ written_to i ws -> (i, z) ∈ ws.
Proof.
  unfold written_to. intros ([j z'] & -> & H)%list_elem_of_fmap.
  apply list_elem_of_filter in H as [Hj H]. simpl in *. by subst.
Qed.

Lemma written_to_pass i zoom ws :
  NoDup ws ->
  written_to i ((fun j => (j, zoom)) <$> ws) = if decide (i ∈ ws) then [zoom] else [].
Proof.
  unfold written_to. induction ws as [|j ws IH]; intros Hnd.
  - by rewrite decide_False by apply not_elem_of_nil.
  - apply NoDup_cons in Hnd as [Hj Hnd]. specialize (IH Hnd).
    rewrite fmap_cons, filter_cons. simpl.
    destruct (decide (j = i)) as [->|Hne].
    + rewrite decide_True by apply list_elem_of_here.
      rewrite decide_False in IH by done. rewrite fmap_cons, IH. done.
    + rewrite IH. destruct (decide (i ∈ ws)).
      * by rewrite decide_True by (by apply list_elem_of_further).
      * rewrite decide_False; [done|]. rewrite elem_of_cons. naive_solver.
Qed.

Lemma trace_snoc z passes js :
  trace z (passes ++ [js]) =
  trace z passes ++ ((fun j => (j, (z - Z.of_nat (length passes))%Z)) <$> js).
Proof.
  revert z. induction passes as [|ks passes IH]; intros z.
  - cbn [trace app length]. rewrite app_nil_r.
    by replace (z - Z.of_nat 0)%Z with z by lia.
  - cbn [trace app]. rewrite IH, <- app_assoc.
    change (length (ks :: passes)) with (S (length passes)).
    by replace (z - 1 - Z.of_nat (length passes))%Z
      with (z - Z.of_nat (S (length passes)))%Z by lia.
Qed.

Lemma trace_upper z passes w : w ∈ trace z passes -> (w.2 <= z)%Z.
Proof.
  revert z. induction passes as [|js passes IH]; intros z; simpl.
  - intros H. by apply elem_of_nil in H.
  - intros [H|H]%elem_of_app.
    + apply list_elem_of_fmap in H as (j & -> & _). simpl. lia.
    + apply IH in H. lia.
Qed.

(** In a trace where no pass assigns an object twice, the zooms
    assigned to an object are strictly decreasing. *)
Lemma trace_decreasing z passes i :
  Forall NoDup passes -> decreasing (written_to i (trace z passes)).
Proof.
  intros Hnd. revert z. induction Hnd as [|js passes Hjs _ IH]; intros z; simpl.
  - constructor.
  - rewrite written_to_app, written_to_pass by done.
    apply StronglySorted_app_2; [|case_decide; repeat constructor|apply IH].
    intros x1 x2 Hx1 Hx2.
    assert (x1 = z) as ->.
    { case_decide; [by apply list_elem_of_singleton in Hx1|by apply elem_of_nil in Hx1]. }
    apply written_to_elem, trace_upper in Hx2. simpl in Hx2. lia.
Qed.

Lemma load_loop_spec N n : forall z this clusters,
  load_inv N z this clusters ->
  (Z.of_nat n <= z + 1)%Z -> (z <= maxZoom (options this))%Z ->
  exists this' clusters',
    load_loop rbush_search n z this clusters = Some (this', clusters') /\
    load_inv N (z - Z.of_nat n) this' clusters' /\
    options this' = options this /\
    heap_le (heap this) (heap this').
Proof.
  induction n as [|n IH]; intros z this clusters Hinv Hn Hz.
  { exists this, clusters. replace (z - Z.of_nat 0)%Z with z by lia.
    repeat split; try done; try apply Hinv. apply heap_le_refl. }
  destruct Hinv as [Hlen Hempty Htiers (Hnd & Hlive & Hmass) (passes & Hw & Hzp & Hpnd)].
  assert (Forall (fun j => j < length (heap this)) clusters) as Hvalid.
  { eapply Forall_impl; [exact Hlive|]. intros j. apply live_lt. }
  assert (Z.to_nat (z + 1) < length (trees this)) as Hidx by lia.
  destruct (lookup_lt_is_Some_2 _ _ Hidx) as [t Ht].
  assert (array_get (trees this) (z + 1) = Some t) as Hget
    by (apply array_get_Some; split; [lia|done]).
  assert (t = []) as -> by (eapply Hempty; [|exact Hget]; lia).
  simpl. unfold tree_load. rewrite Hget. simpl. unfold rbush_load. simpl.
  set (this1 := with_trees _ this).
  destruct (cluster_loop_spec z clusters this1 []) as (this2 & cl2 & Hloop & Hdone).
  { split.
    - exists clusters. split; [|done]. apply array_get_insert_eq; [lia|done].
    - done.
    - repeat split; [constructor|constructor|]. intros c Hc. by apply elem_of_nil in Hc. }
  unfold _cluster. rewrite Hloop. simpl.
  destruct Hdone as [Ho2 Ht2 Hle2 Hm2 [Hnd2 Hlive2] (ws & Hw2 & Hwsnd & Hwsl)].
  simpl in Ho2, Ht2, Hle2, Hm2, Hw2.
  rewrite filter_Forall in Hm2 by done.
  destruct (IH (z - 1)%Z this2 cl2) as (this' & cl' & Hl & Hinv' & Ho' & Hle').
  { split.
    - rewrite Ht2, Ho2, length_insert. done.
    - intros k t Hk. rewrite Ht2, array_get_insert_ne by lia. apply Hempty. lia.
    - intros k Hk. rewrite Ht2. rewrite Ho2 in Hk. destruct (decide (k = z + 1)%Z) as [->|Hne].
      + exists clusters. rewrite array_get_insert_eq by (lia || done).
        split; [done|]. rewrite (mass_heap_le _ _ _ Hle2 Hvalid).
        split; [done|]. eapply Forall_impl; [exact Hvalid|].
        intros j Hj. simpl in Hj. apply heap_le_length in Hle2. lia.
      + rewrite array_get_insert_ne by lia.
        destruct (Htiers k) as (t & Hkt & Hkm & Hkv); [lia|].
        exists t. split; [done|]. rewrite (mass_heap_le _ _ _ Hle2 Hkv).
        split; [done|]. eapply Forall_impl; [exact Hkv|].
        intros j Hj. simpl in Hj. apply heap_le_length in Hle2. lia.
    - repeat split; [done|done|]. rewrite Hm2. simpl. lia.
    - exists (passes ++ [ws]). rewrite Hw2, Ho2. simpl. split; [|split].
      + rewrite Hw, trace_snoc. by rewrite <- Hzp.
      + rewrite length_app. simpl. lia.
      + apply Forall_app. split; [done|]. by constructor. }
  { lia. }
  { rewrite Ho2. simpl. lia. }
  exists this', cl'. split; [done|].
  replace (z - Z.of_nat (S n))%Z with (z - 1 - Z.of_nat n)%Z by lia.
  split; [done|]. split; [by rewrite Ho', Ho2|].
  by eapply heap_le_trans.
Qed.

(** ** Frame properties: what no iteration changes *)

Lemma Step_frame zoom i this clusters this' clusters' :
  Step rbush_search zoom i this clusters this' clusters' ->
  options this' = options this /\ trees this' = trees this /\
  heap_le (heap this) (heap this').
Proof.
  destruct 1 as [| |point ns this' Hp Hz Hns Hne Hv Ho Ht Hh Hw].
  - repeat split; try done. apply heap_le_refl.
  - repeat split; try done. apply heap_le_alter.
  - repeat split; try done. rewrite Hh.
    eapply heap_le_trans; [apply heap_le_mark_all|apply heap_le_app].
Qed.

(** An invariant of the iterations is an invariant of the loop. *)
Lemma cluster_loop_invariant (Q : SuperCluster -> list ref -> Prop) zoom :
  (forall i this clusters this' clusters',
     Q this clusters -> Step rbush_search zoom i this clusters this' clusters' ->
     Q this' clusters') ->
  forall points this clusters this' clusters',
    Q this clusters ->
    cluster_loop rbush_search zoom points this clusters = Some (this', clusters') ->
    Q this' clusters'.
Proof.
  intros HQ. induction points as [|i points IH]; intros this cl this' cl' H0 H; simpl in H.
  - by simplify_eq.
  - destruct (cluster_point rbush_search zoom i this cl) as [[this1 cl1]|] eqn:H1;
      simpl in H; [|done].
    apply cluster_point_Step in H1. eapply IH; [|exact H]. by eapply HQ.
Qed.

Lemma cluster_loop_frame zoom points this clusters this' clusters' :
  cluster_loop rbush_search zoom points this clusters = Some (this', clusters') ->
  options this' = options this /\ trees this' = trees this /\
  heap_le (heap this) (heap this').
Proof.
  intros H.
  apply (cluster_loop_invariant
    (fun this1 _ => options this1 = options this /\ trees this1 = trees this /\
                    heap_le (heap this) (heap this1)) zoom) in H; [done| |].
  - intros i this1 cl1 this2 cl2 (Ho & Ht & Hle) HS.
    apply Step_frame in HS as (Ho' & Ht' & Hle').
    repeat split; [congruence|congruence|by eapply heap_le_trans].
  - repeat split. apply heap_le_refl.
Qed.

Lemma tree_load_Some z data this this' :
  tree_load z data this = Some this' ->
  (0 <= z)%Z /\ Z.to_nat z < length (trees this) /\
  options this' = options this /\ heap this' = heap this /\
  writes this' = writes this /\ length (trees this') = length (trees this).
Proof.
  unfold tree_load. intros H.
  destruct (array_get (trees this) z) as [t|] eqn:Ht; simpl in H; [|done].
  simplify_eq. apply array_get_Some in Ht as [Hz Ht].
  apply lookup_lt_Some in Ht. simpl. by rewrite length_insert.
Qed.

Lemma load_loop_frame n : forall z this clusters this' clusters',
  load_loop rbush_search n z this clusters = Some (this', clusters') ->
  options this' = options this /\ length (trees this') = length (trees this) /\
  heap_le (heap this) (heap this').
Proof.
  induction n as [|n IH]; intros z this cl this' cl' H; simpl in H.
  { simplify_eq. repeat split. apply heap_le_refl. }
  destruct (tree_load (z + 1) cl this) as [this1|] eqn:H1; simpl in H; [|done].
  destruct (_cluster rbush_search this1 cl z) as [[this2 cl2]|] eqn:H2; simpl in H; [|done].
  apply tree_load_Some in H1 as (_ & _ & Ho1 & Hh1 & _ & Hl1).
  apply cluster_loop_frame in H2 as (Ho2 & Ht2 & Hle2).
  apply IH in H as (Ho & Hl & Hle).
  repeat split; [congruence|congruence|].
  rewrite <- Hh1. by eapply heap_le_trans.
Qed.

(** ** [load] on a new instance *)

Lemma createPointCluster_is_Some p :
  is_Some (createPointCluster p) <-> has_coordinates p.
Proof.
  unfold createPointCluster, has_coordinates. split.
  - intros [c Hc]. destruct (geometry p) as [g|]; simpl in Hc; [|done].
    destruct (coordinates g) as [[lng lat]|] eqn:Hg; simpl in Hc; [|done]. eauto.
  - intros (g & lng & lat & -> & Hg). simpl. rewrite Hg. simpl. eauto.
Qed.

Lemma createPointCluster_leaf p c :
  createPointCluster p = Some c ->
  Cluster.zoom c = Infinity /\ Cluster.numPoints c = 1%Z /\
  Cluster.children c = None /\ Cluster.point c = Some p /\
  Cluster.wx c = Cluster.x c /\ Cluster.wy c = Cluster.y c /\
  exists g lng lat, geometry p = Some g /\ coordinates g = Some (lng, lat) /\
    Cluster.x c = Projector.lngX lng /\ Cluster.y c = Projector.latY lat.
Proof.
  unfold createPointCluster. intros Hc.
  destruct (geometry p) as [g|]; simpl in Hc; [|done].
  destruct (coordinates g) as [[lng lat]|] eqn:Hg; simpl in Hc; [|done].
  simplify_eq. simpl. repeat split; try done. by exists g, lng, lat.
Qed.

Lemma mass_leaves pre leaves :
  Forall (fun c => Cluster.numPoints c = 1%Z) leaves ->
  mass (pre ++ leaves) (seq (length pre) (length leaves)) = Z.of_nat (length leaves).
Proof.
  revert pre. induction leaves as [|c leaves IH]; intros pre Hl; [done|].
  apply Forall_cons in Hl as [Hc Hl]. cbn [length seq mass].
  rewrite lookup_app_r, Nat.sub_diag by done. simpl.
  replace (pre ++ c :: leaves) with ((pre ++ [c]) ++ leaves) by (by rewrite <- app_assoc).
  replace (S (length pre)) with (length (pre ++ [c])) by (rewrite length_app; simpl; lia).
  rewrite IH by done. lia.
Qed.

Lemma lookup_new_trees o k t : array_get (_initTrees o) k = Some t -> t = [].
Proof.
  intros [_ H]%array_get_Some. unfold _initTrees in H.
  by apply lookup_replicate in H as [-> _].
Qed.

Lemma tree_load_eq z data this t :
  array_get (trees this) z = Some t ->
  tree_load z data this =
  Some (with_trees (<[Z.to_nat z := rbush_load data t]> (trees this)) this).
Proof. intros H. unfold tree_load. by rewrite H. Qed.

Lemma load_unfold this points leaves :
  mapM createPointCluster points = Some leaves ->
  load rbush_search this points =
  '(this', clusters) ←
     load_loop rbush_search
       (Z.to_nat (maxZoom (options this) - minZoom (options this) + 1))
       (maxZoom (options this)) (with_heap (heap this ++ leaves) this)
       (seq (length (heap this)) (length leaves));
  tree_load (minZoom (options this)) clusters this'.
Proof. intros H. unfold load, createPointClusters. rewrite H. done. Qed.

(** Everything the later statements need about [load] on a new
    instance, for inputs that let it run. *)
Lemma load_new user points :
  valid_zooms (options (supercluster user)) ->
  Forall has_coordinates points ->
  exists this' leaves,
    load rbush_search (supercluster user) points = Some this' /\
    mapM createPointCluster points = Some leaves /\
    options this' = options (supercluster user) /\
    heap_le leaves (heap this') /\
    (forall k, (minZoom (options this') <= k <= maxZoom (options this') + 1)%Z ->
       exists t, array_get (trees this') k = Some t /\
         mass (heap this') t = Z.of_nat (length points) /\
         Forall (fun j => j < length (heap this')) t) /\
    (exists passes,
       writes this' = trace (maxZoom (options this')) passes /\
       length passes =
         Z.to_nat (maxZoom (options this') - minZoom (options this') + 1) /\
       Forall NoDup passes).
Proof.
  intros Hzooms Hcoords. set (this0 := supercluster user) in *.
  set (o := options this0) in *.
  destruct (mapM_is_Some_2 createPointCluster points) as [leaves Hleaves].
  { eapply Forall_impl; [exact Hcoords|]. intros p. apply createPointCluster_is_Some. }
  pose proof (mapM_Some_1 _ _ _ Hleaves) as Hall.
  assert (length leaves = length points) as Hlen by (symmetry; by eapply Forall2_length).
  assert (Forall (fun c => Cluster.zoom c = Infinity /\ Cluster.numPoints c = 1%Z) leaves)
    as Hleaf.
  { apply Forall_forall. intros c Hc.
    apply list_elem_of_lookup in Hc as [i Hc].
    destruct (Forall2_lookup_r _ _ _ _ _ Hall Hc) as (p & _ & Hp).
    apply createPointCluster_leaf in Hp. tauto. }
  set (N := Z.of_nat (length points)).
  set (this1 := with_heap (heap this0 ++ leaves) this0).
  destruct (load_loop_spec N (Z.to_nat (maxZoom o - minZoom o + 1)) (maxZoom o)
              this1 (seq (length (heap this0)) (length leaves)))
    as (this2 & cl2 & Hloop & Hinv & Ho2 & Hle2).
  { split.
    - unfold this1, this0, supercluster, _initTrees. simpl. by rewrite length_replicate.
    - intros k t _ Hk. by apply lookup_new_trees in Hk.
    - intros k [Hk1 Hk2]. exfalso.
      eapply Z.lt_irrefl, Z.lt_le_trans; [exact Hk1|exact Hk2].
    - repeat split.
      + apply NoDup_seq.
      + apply Forall_forall. intros i Hi. apply elem_of_seq in Hi.
        change (length (heap this0)) with 0 in Hi.
        unfold live, this1, this0. simpl.
        destruct (lookup_lt_is_Some_2 leaves i) as [c Hc]; [lia|]. rewrite Hc.
        apply list_elem_of_lookup_2 in Hc.
        by apply (proj1 (Forall_forall _ _) Hleaf) in Hc as [-> _].
      + unfold this1, this0. simpl.
        pose proof (mass_leaves [] leaves) as Hm. simpl in Hm.
        rewrite Hm, Hlen; [done|].
        eapply Forall_impl; [exact Hleaf|]. simpl. tauto.
    - exists []. repeat split; [simpl; lia|constructor]. }
  { unfold valid_zooms in Hzooms. fold o in Hzooms. lia. }
  { done. }
  unfold valid_zooms in Hzooms. fold o in Hzooms.
  replace (maxZoom o - Z.of_nat (Z.to_nat (maxZoom o - minZoom o + 1)))%Z with (minZoom o - 1)%Z
    in Hinv by lia.
  destruct Hinv as [Hl2 Hempty Htiers (Hnd & Hlive & Hmass) (passes & Hw & Hzp & Hpnd)].
  assert (options this2 = o) as Ho2' by done.
  assert (Z.to_nat (minZoom o) < length (trees this2)) as Hidx by (rewrite Hl2, Ho2'; lia).
  destruct (lookup_lt_is_Some_2 _ _ Hidx) as [t Ht].
  assert (array_get (trees this2) (minZoom o) = Some t) as Hget
    by (apply array_get_Some; split; [lia|done]).
  assert (t = []) as -> by (eapply Hempty; [|exact Hget]; lia).
  exists (with_trees (<[Z.to_nat (minZoom o) := rbush_load cl2 []]> (trees this2)) this2), leaves.
  split; [|split; [done|]].
  { rewrite (load_unfold _ _ _ Hleaves). fold o. fold this1. rewrite Hloop.
    exact (tree_load_eq _ _ _ _ Hget). }
  split; [exact Ho2|]. split; [exact Hle2|]. split.
  2:{ exists passes. split; [exact Hw|]. split; [|done].
      change (length passes = Z.to_nat (maxZoom (options this2) - minZoom (options this2) + 1)).
      rewrite Ho2' in *. lia. }
  intros k Hk.
  change (minZoom (options this2) <= k <= maxZoom (options this2) + 1)%Z in Hk.
  change (exists t, array_get (<[Z.to_nat (minZoom o) := rbush_load cl2 []]> (trees this2)) k
                      = Some t /\ mass (heap this2) t = N /\
                    Forall (fun j => j < length (heap this2)) t).
  rewrite Ho2' in Hk. destruct (decide (k = minZoom o)) as [->|Hne].
  - exists cl2. rewrite array_get_insert_eq by (lia || done).
    repeat split; [done|]. eapply Forall_impl; [exact Hlive|]. intros j. apply live_lt.
  - rewrite array_get_insert_ne by lia. apply Htiers. rewrite Ho2'. lia.
Qed.

Lemma load_Some_inv user points this' :
  load rbush_search (supercluster user) points = Some this' ->
  valid_zooms (options (supercluster user)) /\ Forall has_coordinates points.
Proof.
  intros H. set (this0 := supercluster user) in *.
  destruct (mapM createPointCluster points) as [leaves|] eqn:Hleaves.
  2:{ unfold load, createPointClusters in H. by rewrite Hleaves in H. }
  rewrite (load_unfold _ _ _ Hleaves) in H.
  destruct (load_loop _ _ _ _ _) as [[this2 cl2]|] eqn:Hloop; simpl in H; [|done].
  apply load_loop_frame in Hloop as (Ho & Hl & _).
  apply tree_load_Some in H as (Hz & Hidx & _).
  split.
  - unfold valid_zooms. rewrite Hl in Hidx.
    change (length (trees (with_heap (heap this0 ++ leaves) this0)))
      with (length (_initTrees (options this0))) in Hidx.
    unfold _initTrees in Hidx. rewrite length_replicate in Hidx.
    change (default 0%Z (u_minZoom user)) with (minZoom (options this0)) in *. lia.
  - assert (is_Some (mapM createPointCluster points)) as Hs by (by eexists).
    apply mapM_is_Some_1 in Hs. eapply Forall_impl; [exact Hs|].
    intros p. apply createPointCluster_is_Some.
Qed.

Lemma valid_coordinates_has p : valid_coordinates p -> has_coordinates p.
Proof. intros (g & lng & lat & Hg & Hc & _). by exists g, lng, lat. Qed.

(** ** Mass conservation *)

(** C3.  On a new instance, for [n] input features that have
    coordinates and zoom options [0 <= minZoom <= maxZoom + 1], [load]
    returns, and in the instance it returns the tree of every tier
    from [minZoom] to [maxZoom + 1] holds nodes whose [numPoints] sum
    to [n]. *)
Theorem mass_conservation user points :
  valid_zooms (options (supercluster user)) ->
  Forall has_coordinates points ->
  exists this',
    load rbush_search (supercluster user) points = Some this' /\
    forall z, (minZoom (options this') <= z <= maxZoom (options this') + 1)%Z ->
      exists t, array_get (trees this') z = Some t /\
        mass (heap this') t = Z.of_nat (length points).
Proof.
  intros Hz Hc.
  destruct (load_new user points Hz Hc) as (this' & leaves & Hl & _ & _ & _ & Ht & _).
  exists this'. split; [done|]. intros z Hzr.
  destruct (Ht z Hzr) as (t & Hget & Hm & _). eauto.
Qed.

(** ** What [load] accepts *)

(** C5, amended.  [load] checks no coordinate.  With zoom options
    [0 <= minZoom <= maxZoom + 1], on a new instance it returns exactly
    when every feature has a [geometry.coordinates] to read, whatever
    the two numbers in it; so it returns for all features with valid
    coordinates.  When it returns, the object of the feature number
    [i], at [[lng, lat]], is the object number [i]: it holds the
    feature, its [x] is [lngX lng], with no bound on [lng], and its
    [y] is [latY lat], a number from 0 to 1 for every [lat]. *)
Theorem load_accepts user points :
  valid_zooms (options (supercluster user)) ->
  (is_Some (load rbush_search (supercluster user) points) <->
   Forall has_coordinates points) /\
  (Forall valid_coordinates points ->
   is_Some (load rbush_search (supercluster user) points)) /\
  (forall this' i p,
     load rbush_search (supercluster user) points = Some this' ->
     points !! i = Some p ->
     exists g lng lat c,
       geometry p = Some g /\ coordinates g = Some (lng, lat) /\
       heap this' !! i = Some c /\ Cluster.point c = Some p /\
       Cluster.x c = Projector.lngX lng /\ Cluster.y c = Projector.latY lat /\
       (0 <= Cluster.y c <= 1)%R).
Proof.
  intros Hz.
  assert (Forall has_coordinates points ->
          is_Some (load rbush_search (supercluster user) points)) as Hok.
  { intros Hc. destruct (load_new user points Hz Hc) as (this' & ? & Hl & _). by eexists. }
  split; [split; [|done]|split].
  - intros [this' Hl]. by apply load_Some_inv in Hl as [_ ?].
  - intros Hv. apply Hok. eapply Forall_impl; [exact Hv|]. apply valid_coordinates_has.
  - intros this' i p Hload Hp.
    pose proof Hload as Hc. apply load_Some_inv in Hc as [_ Hc].
    destruct (load_new user points Hz Hc) as (this2 & leaves & Hload2 & Hleaves & _ & Hle & _).
    rewrite Hload in Hload2. injection Hload2 as <-.
    destruct (Forall2_lookup_l _ _ _ _ _ (mapM_Some_1 _ _ _ Hleaves) Hp) as (c0 & Hc0 & Hpc).
    destruct (Hle i c0 Hc0) as (c & Hi & E).
    apply createPointCluster_leaf in Hpc
      as (_ & _ & _ & Hpt & _ & _ & g & lng & lat & Hg & Hcs & Hx & Hy).
    exists g, lng, lat, c. split; [done|]. split; [done|]. split; [done|].
    split; [by rewrite <- Hpt; apply (f_equal Cluster.point) in E|].
    rewrite (erase_x _ _ E), (erase_y _ _ E), Hx, Hy.
    split; [done|]. split; [done|]. apply latY_range.
Qed.

(** ** The assignments to [zoom] *)

(** C9.  On a new instance, for inputs that let [load] return, the
    assignments to [zoom] fields are those of one pass per zoom level,
    from [maxZoom] down to [minZoom], each pass assigning its own zoom
    and assigning no node twice; so the zoom values assigned to any one
    node, in program order, are strictly decreasing. *)
Theorem zoom_written_once_and_decreasing user points :
  valid_zooms (options (supercluster user)) ->
  Forall has_coordinates points ->
  exists this' passes,
    load rbush_search (supercluster user) points = Some this' /\
    writes this' = trace (maxZoom (options this')) passes /\
    length passes = Z.to_nat (maxZoom (options this') - minZoom (options this') + 1) /\
    Forall NoDup passes /\
    (forall i, decreasing (written_to i (writes this'))).
Proof.
  intros Hz Hc.
  destruct (load_new user points Hz Hc)
    as (this' & leaves & Hl & _ & _ & _ & _ & passes & Hw & Hlen & Hnd).
  exists this', passes. repeat split; try done.
  intros i. rewrite Hw. by apply trace_decreasing.
Qed.

(** ** The clusters a pass builds *)

Lemma aggregate_heap_le point h h' ns :
  heap_le h h' -> Forall (fun j => j < length h) ns ->
  aggregate point h' ns = aggregate point h ns.
Proof.
  intros Hle Hv. unfold aggregate.
  rewrite (mass_heap_le _ _ _ Hle Hv).
  rewrite (wsum_heap_le Cluster.x _ _ _ erase_x Hle Hv).
  rewrite (wsum_heap_le Cluster.y _ _ _ erase_y Hle Hv). done.
Qed.

Lemma aggregate_erase point point' h ns :
  erase point' = erase point -> aggregate point' h ns = aggregate point h ns.
Proof.
  intros E. unfold aggregate.
  by rewrite (erase_x _ _ E), (erase_y _ _ E), (erase_wx _ _ E), (erase_wy _ _ E),
    (erase_numPoints _ _ E).
Qed.

Lemma claimed_by_heap_le o zoom h h' agg i ns :
  heap_le h h' -> claimed_by o zoom h agg i ns -> claimed_by o zoom h' agg i ns.
Proof.
  intros Hle [(point & Hp & Hagg) Hch Hnear].
  assert (Forall (fun j => j < length h) ns) as Hv.
  { apply Forall_forall. intros j Hj. destruct (Hnear j Hj) as (b & Hb & _).
    by eapply lookup_lt_Some. }
  split; [|done|].
  - destruct (Hle _ _ Hp) as (point' & Hp' & E). exists point'. split; [done|].
    by rewrite Hagg, (aggregate_heap_le _ _ _ _ Hle Hv), (aggregate_erase _ _ _ _ E).
  - intros j Hj. destruct (Hnear j Hj) as (b & Hb & Hd).
    destruct (Hle _ _ Hb) as (b' & Hb' & E). exists b'. split; [done|].
    unfold distSq in *. by rewrite (erase_x _ _ E), (erase_y _ _ E).
Qed.

(** The iteration in which [i] claims the neighbors [ns]. *)
Lemma Step_merge_claimed zoom i this clusters this' clusters' point ns :
  Step rbush_search zoom i this clusters this' clusters' ->
  heap this !! i = Some point ->
  zoom_le (Cluster.zoom point) zoom = false ->
  _getNeighbors rbush_search (assign_zoom i zoom this) i zoom = Some ns ->
  (i ∉ ns) /\
  (ns <> [] ->
   clusters' = clusters ++ [length (heap this)] /\
   length (heap this') = S (length (heap this)) /\
   heap this' !! length (heap this) = Some (aggregate point (heap this) ns) /\
   claimed_by (options this) zoom (heap this') (aggregate point (heap this) ns) i ns).
Proof.
  intros HS Hp Hz Hns.
  assert (forall j, j ∈ ns -> j <> i /\ exists b, heap this !! j = Some b /\
            (distSq point b <=
             search_radius (options this) zoom * search_radius (options this) zoom)%R)
    as Hnear.
  { intros j Hj. unfold _getNeighbors in Hns.
    rewrite heap_assign_zoom, list_lookup_alter_eq, Hp in Hns. simpl in Hns.
    destruct (array_get _ _) as [t|]; simpl in Hns; [|done]. simplify_eq.
    apply list_elem_of_filter in Hj as [Hj _]. unfold near in Hj.
    rewrite list_lookup_alter in Hj. case_decide as Hij.
    - subst j. rewrite Hp in Hj. simpl in Hj.
      rewrite bool_decide_eq_false_2 in Hj by lia. done.
    - split; [done|]. destruct (heap this !! j) as [b|]; [|done]. exists b.
      split; [done|]. apply andb_true_iff in Hj as [_ Hj].
      by apply bool_decide_eq_true in Hj. }
  split; [intros Hin; by destruct (Hnear i Hin)|].
  intros Hne.
  destruct HS as [point' Hp' Hz'|point' Hp' Hz' Hns'
                 |point' ns' this' Hp' Hz' Hns' Hne' Hv Ho Ht Hh Hw];
    rewrite Hp in Hp'; injection Hp' as <-; [congruence|congruence|].
  rewrite Hns in Hns'. injection Hns' as <-.
  assert (heap_le (heap this) (heap this')) as Hle.
  { rewrite Hh. eapply heap_le_trans; [apply heap_le_mark_all|apply heap_le_app]. }
  assert (heap this' !! length (heap this) = Some (aggregate point (heap this) ns)) as Hagg.
  { rewrite Hh, lookup_app_r by (by rewrite mark_all_length).
    by rewrite mark_all_length, Nat.sub_diag. }
  split; [done|]. split; [|split; [done|]].
  - rewrite Hh, length_app, mark_all_length. simpl. lia.
  - eapply claimed_by_heap_le; [exact Hle|]. split.
    + by exists point.
    + repeat split; [done|]. intros Hin. by destruct (Hnear i Hin).
    + intros j Hj. destruct (Hnear j Hj) as (_ & b & Hb & Hd). by exists b.
Qed.

(** Every object that a pass allocates is pushed on the array the
    pass returns and is a cluster that one of the points built from
    its neighbors. *)
Lemma pass_aggregates this points zoom this' clusters :
  _cluster rbush_search this points zoom = Some (this', clusters) ->
  forall c agg, length (heap this) <= c -> heap this' !! c = Some agg ->
    c ∈ clusters /\
    exists i ns, claimed_by (options this) zoom (heap this') agg i ns.
Proof.
  unfold _cluster. intros H.
  apply (cluster_loop_invariant
    (fun this1 cl1 =>
       options this1 = options this /\ heap_le (heap this) (heap this1) /\
       forall c agg, length (heap this) <= c -> heap this1 !! c = Some agg ->
         c ∈ cl1 /\ exists i ns, claimed_by (options this) zoom (heap this1) agg i ns)
    zoom) in H; [by destruct H as (_ & _ & H)| |].
  2:{ repeat split; [apply heap_le_refl|..];
        apply lookup_lt_Some in H1; lia. }
  clear. intros i this1 cl1 this2 cl2 (Ho & Hle & IH) HS.
  pose proof (Step_frame _ _ _ _ _ _ HS) as (Ho2 & _ & Hle2).
  split; [congruence|]. split; [by eapply heap_le_trans|].
  pose proof (heap_le_length _ _ Hle) as Hlen.
  inversion HS as [point Hp Hz|point Hp Hz Hns
                  |point ns this2' Hp Hz Hns Hne Hv Ho' Ht Hh Hw]; subst.
  - done.
  - intros c agg Hc Hagg. rewrite heap_assign_zoom in Hagg.
    rewrite list_lookup_alter in Hagg. case_decide as Hic.
    + subst c. rewrite Hp in Hagg. simpl in Hagg. injection Hagg as <-.
      destruct (IH i point Hc Hp) as (Hin & j & ns & Hcl). split; [set_solver|].
      exists j, ns. eapply claimed_by_heap_le; [apply Hle2|].
      destruct Hcl as [(pt & Hpt & Hag) Hch Hnear]. split; [|done|].
      * exists pt. split; [done|]. by rewrite <- Hag.
      * intros k Hk. destruct (Hnear k Hk) as (b & Hb & Hd). by exists b.
    + destruct (IH c agg Hc Hagg) as (Hin & j & ns & Hcl). split; [set_solver|].
      exists j, ns. by eapply claimed_by_heap_le; [apply Hle2|].
  - intros c agg Hc Hagg.
    destruct (Step_merge_claimed _ _ _ _ _ _ _ _ HS Hp Hz Hns) as (_ & Hm).
    destruct (Hm Hne) as (_ & Hl2 & Hnew & Hcl).
    destruct (decide (c = length (heap this1))) as [->|Hcne].
    + rewrite Hnew in Hagg. injection Hagg as <-. split; [set_solver|].
      exists i, ns. by rewrite <- Ho.
    + assert (c < length (heap this1)) as Hlt.
      { apply lookup_lt_Some in Hagg. lia. }
      destruct (lookup_lt_is_Some_2 _ _ Hlt) as [agg0 Hagg0].
      destruct (IH c agg0 Hc Hagg0) as (Hin & j & ns0 & Hcl0). split; [set_solver|].
      destruct (Hle2 _ _ Hagg0) as (agg' & Hagg' & E).
      rewrite Hagg in Hagg'. injection Hagg' as <-.
      exists j, ns0.
      apply (claimed_by_heap_le _ _ _ _ _ _ _ Hle2) in Hcl0.
      destruct Hcl0 as [(pt & Hpt & Hag) (Hch & Hne0 & Hni) Hnear]. split.
      * exists pt. split; [done|]. by rewrite E.
      * repeat split; [|done|done]. by rewrite (erase_children _ _ E).
      * intros k Hk. destruct (Hnear k Hk) as (b & Hb & Hd). exists b. split; [done|].
        unfold distSq in *. by rewrite (erase_x _ _ E), (erase_y _ _ E).
Qed.

Lemma distSq_triangle (p a b : Cluster.t) (r : R) :
  (distSq p a <= r * r -> distSq p b <= r * r -> distSq a b <= 4 * (r * r))%R.
Proof.
  unfold distSq. intros Ha Hb.
  pose proof (Rle_0_sqr (Cluster.x p - Cluster.x a + (Cluster.x p - Cluster.x b))) as H1.
  pose proof (Rle_0_sqr (Cluster.y p - Cluster.y a + (Cluster.y p - Cluster.y b))) as H2.
  unfold Rsqr in H1, H2. nra.
Qed.

Lemma getNeighbors_near this i zoom ns :
  _getNeighbors rbush_search this i zoom = Some ns ->
  exists p, heap this !! i = Some p /\
    forall j, j ∈ ns -> exists b, heap this !! j = Some b /\
      zoom_lt zoom (Cluster.zoom b) = true /\
      (distSq p b <= search_radius (options this) zoom * search_radius (options this) zoom)%R.
Proof.
  unfold _getNeighbors. intros H.
  destruct (heap this !! i) as [p|] eqn:Hp; simpl in H; [|done].
  destruct (array_get (trees this) (zoom + 1)) as [t|] eqn:Ht; simpl in H; [|done].
  simplify_eq. exists p. split; [done|]. intros j Hj.
  apply list_elem_of_filter in Hj as [Hj _]. unfold near in Hj.
  destruct (heap this !! j) as [b|]; [|done].
  apply andb_true_iff in Hj as [H1 H2]. apply bool_decide_eq_true in H2. eauto.
Qed.

(** C2, amended.  In the iteration of a pass where the point [p]
    claims a non-empty list of neighbors, the cluster that is pushed
    has that list as its [children], without [p], and its [numPoints]
    is [p.numPoints] plus the sum of the [numPoints] of its children.
    It is anchored at [p]. *)
Theorem merge_children_and_numPoints zoom i this clusters this' clusters' point ns :
  heap this !! i = Some point ->
  zoom_le (Cluster.zoom point) zoom = false ->
  _getNeighbors rbush_search (assign_zoom i zoom this) i zoom = Some ns ->
  ns <> [] ->
  cluster_point rbush_search zoom i this clusters = Some (this', clusters') ->
  exists c agg,
    clusters' = clusters ++ [c] /\
    heap this' !! c = Some agg /\
    Cluster.children agg = Some ns /\
    Cluster.numPoints agg = (Cluster.numPoints point + mass (heap this') ns)%Z /\
    Cluster.x agg = Cluster.x point /\ Cluster.y agg = Cluster.y point.
Proof.
  intros Hp Hz Hns Hne H. apply cluster_point_Step in H.
  destruct (Step_merge_claimed _ _ _ _ _ _ _ _ H Hp Hz Hns) as (_ & Hm).
  destruct (Hm Hne) as (-> & Hlen & Hagg & [(pt & Hpt & E) (Hch & _ & _) Hnear]).
  exists (length (heap this)), (aggregate point (heap this) ns).
  repeat split; try done.
  apply erase_numPoints in E. rewrite E. simpl.
  apply Step_frame in H as (_ & _ & Hle).
  destruct (Hle _ _ Hp) as (pt' & Hpt' & E').
  rewrite Hpt in Hpt'. injection Hpt' as <-.
  by rewrite (erase_numPoints _ _ E').
Qed.

(** C10.  In the iteration of a pass at [zoom] where the point [p] is
    processed, the neighbor search runs when [p.zoom] is [zoom], every
    neighbor it returns has a [zoom] above [zoom], and so [p] is not
    among the neighbors.  If a cluster is built, [p] is not one of its
    children and its [numPoints] is [p.numPoints] plus the sum over
    the neighbors, which counts [p] once. *)
Theorem claiming_point_not_a_candidate zoom i this clusters this' clusters' point :
  heap this !! i = Some point ->
  zoom_le (Cluster.zoom point) zoom = false ->
  cluster_point rbush_search zoom i this clusters = Some (this', clusters') ->
  exists ns,
    _getNeighbors rbush_search (assign_zoom i zoom this) i zoom = Some ns /\
    (Cluster.zoom <$> heap (assign_zoom i zoom this) !! i) = Some (Level zoom) /\
    (forall j, j ∈ ns -> exists b, heap (assign_zoom i zoom this) !! j = Some b /\
       zoom_lt zoom (Cluster.zoom b) = true) /\
    (i ∉ ns) /\
    (ns <> [] ->
     exists agg,
       heap this' !! length (heap this) = Some agg /\
       Cluster.children agg = Some ns /\
       Cluster.numPoints agg = (Cluster.numPoints point + mass (heap this) ns)%Z).
Proof.
  intros Hp Hz H. apply cluster_point_Step in H.
  destruct (Step_claim _ _ _ _ _ _ _ H Hp Hz) as (ns & _ & _ & Hns & _).
  exists ns. split; [done|].
  destruct (Step_merge_claimed _ _ _ _ _ _ _ _ H Hp Hz Hns) as (Hni & Hm).
  split; [by rewrite heap_assign_zoom, list_lookup_alter_eq, Hp|].
  split; [|split; [done|]].
  - intros j Hj. apply getNeighbors_near in Hns as (p & _ & Hnear).
    destruct (Hnear j Hj) as (b & Hb & Hlt & _). eauto.
  - intros Hne. destruct (Hm Hne) as (_ & _ & Hagg & _).
    exists (aggregate point (heap this) ns). done.
Qed.

(** C4, amended.  For every cluster that the pass at [zoom] builds,
    with [r] the radius at [zoom]: the cluster is anchored at the
    claiming point, every child lies within [r] of that anchor, and
    hence any two children lie within [2 r] of each other.  (Two
    children may be farther apart than [r].)  The extent is not zero:
    with an extent of zero the source divides by zero and its radius
    is an infinity or [NaN], not the quotient [r]. *)
Theorem absorbed_within_radius this points zoom this' clusters :
  extent (options this) <> 0%R ->
  _cluster rbush_search this points zoom = Some (this', clusters) ->
  forall c agg, length (heap this) <= c -> heap this' !! c = Some agg ->
    let r := search_radius (options this) zoom in
    exists i point ns,
      heap this' !! i = Some point /\
      Cluster.x agg = Cluster.x point /\ Cluster.y agg = Cluster.y point /\
      Cluster.children agg = Some ns /\
      (forall j, j ∈ ns -> exists b, heap this' !! j = Some b /\
         (distSq point b <= r * r)%R) /\
      (forall j k, j ∈ ns -> k ∈ ns -> exists b b',
         heap this' !! j = Some b /\ heap this' !! k = Some b' /\
         (distSq b b' <= 4 * (r * r))%R).
Proof.
  intros _ H c agg Hc Hagg r.
  destruct (pass_aggregates _ _ _ _ _ H c agg Hc Hagg)
    as (_ & i & ns & [(pt & Hpt & E) (Hch & _ & _) Hnear]).
  assert (Cluster.x agg = Cluster.x pt /\ Cluster.y agg = Cluster.y pt) as [Hx Hy].
  { split; [by apply erase_x in E|by apply erase_y in E]. }
  assert (forall j, j ∈ ns -> exists b, heap this' !! j = Some b /\
            (distSq pt b <= r * r)%R) as Hnear'.
  { intros j Hj. destruct (Hnear j Hj) as (b & Hb & Hd). exists b. split; [done|].
    unfold distSq in *. by rewrite <- Hx, <- Hy. }
  exists i, pt, ns. repeat split; try done.
  intros j k Hj Hk.
  destruct (Hnear' j Hj) as (b & Hb & Hd). destruct (Hnear' k Hk) as (b' & Hb' & Hd').
  exists b, b'. repeat split; try done. by eapply distSq_triangle.
Qed.

(** ** Coordinates stay in the unit square *)

Lemma Forall_sound_mark_all zoom ms h :
  Forall sound_cluster h -> Forall sound_cluster (mark_all zoom ms h).
Proof.
  intros Hh. apply Forall_lookup_2. intros j c Hc.
  rewrite mark_all_lookup in Hc.
  destruct (h !! j) as [c0|] eqn:Hc0; simpl in Hc; [|done]. simplify_eq.
  apply list_elem_of_lookup_2 in Hc0. apply (proj1 (Forall_forall _ _) Hh) in Hc0.
  by case_decide.
Qed.

Lemma Step_sound zoom i this clusters this' clusters' :
  Step rbush_search zoom i this clusters this' clusters' ->
  Forall sound_cluster (heap this) -> Forall sound_cluster (heap this').
Proof.
  intros HS Hh.
  destruct HS as [| |point ns this' Hp Hz Hns Hne Hv Ho Ht Hhp Hw].
  - done.
  - apply (Forall_sound_mark_all zoom [i] _ Hh).
  - rewrite Hhp. apply Forall_app. split; [by apply Forall_sound_mark_all|].
    constructor; [|constructor]. apply aggregate_sound; [done|].
    apply list_elem_of_lookup_2 in Hp. by apply (proj1 (Forall_forall _ _) Hh) in Hp.
Qed.

Lemma load_loop_sound n : forall z this clusters this' clusters',
  load_loop rbush_search n z this clusters = Some (this', clusters') ->
  Forall sound_cluster (heap this) -> Forall sound_cluster (heap this').
Proof.
  induction n as [|n IH]; intros z this cl this' cl' H Hh; simpl in H.
  { by simplify_eq. }
  destruct (tree_load (z + 1) cl this) as [this1|] eqn:H1; simpl in H; [|done].
  destruct (_cluster rbush_search this1 cl z) as [[this2 cl2]|] eqn:H2; simpl in H; [|done].
  apply tree_load_Some in H1 as (_ & _ & _ & Hh1 & _).
  eapply IH; [exact H|].
  eapply (cluster_loop_invariant (fun this _ => Forall sound_cluster (heap this)));
    [|by rewrite Hh1|exact H2].
  intros. by eapply Step_sound.
Qed.

Lemma leaf_sound p c :
  valid_coordinates p -> createPointCluster p = Some c -> sound_cluster c.
Proof.
  intros (g & lng & lat & Hg & Hc & Hlng) H.
  apply createPointCluster_leaf in H
    as (_ & Hn & _ & _ & Hwx & Hwy & g' & lng' & lat' & Hg' & Hc' & Hx & Hy).
  rewrite Hg in Hg'. injection Hg' as <-. rewrite Hc in Hc'. simplify_eq.
  split; [|lia]. unfold in_unit_square. rewrite Hwx, Hwy, Hx, Hy.
  pose proof (lngX_range lng' Hlng). pose proof (latY_range lat'). tauto.
Qed.

Lemma load_sound this points this' :
  load rbush_search this points = Some this' ->
  Forall valid_coordinates points ->
  Forall sound_cluster (heap this) -> Forall sound_cluster (heap this').
Proof.
  intros H Hv Hh.
  destruct (mapM createPointCluster points) as [leaves|] eqn:Hleaves.
  2:{ unfold load, createPointClusters in H. by rewrite Hleaves in H. }
  rewrite (load_unfold _ _ _ Hleaves) in H.
  destruct (load_loop _ _ _ _ _) as [[this2 cl2]|] eqn:Hloop; simpl in H; [|done].
  apply tree_load_Some in H as (_ & _ & _ & -> & _).
  eapply load_loop_sound; [exact Hloop|]. simpl.
  apply Forall_app. split; [done|].
  apply mapM_Some_1 in Hleaves.
  apply Forall_lookup_2. intros j c Hc.
  destruct (Forall2_lookup_r _ _ _ _ _ Hleaves Hc) as (p & Hp & Hpc).
  apply list_elem_of_lookup_2 in Hp. apply (proj1 (Forall_forall _ _) Hv) in Hp.
  by eapply leaf_sound.
Qed.

(** C7, amended.  [latY] returns a value in [[0, 1]] for every
    latitude.  When every input feature has coordinates with a
    longitude in [[-180, 180]], [load] on a new instance returns and
    every cluster object it has built, so every node of every tier,
    has [x], [y], [wx] and [wy] in [[0, 1]]. *)
Theorem coordinates_in_unit_square user points :
  valid_zooms (options (supercluster user)) ->
  Forall valid_coordinates points ->
  (forall lat, 0 <= Projector.latY lat <= 1)%R /\
  exists this',
    load rbush_search (supercluster user) points = Some this' /\
    Forall in_unit_square (heap this') /\
    forall z t j c,
      array_get (trees this') z = Some t -> j ∈ t -> heap this' !! j = Some c ->
      in_unit_square c.
Proof.
  intros Hz Hv. split; [apply latY_range|].
  assert (Forall has_coordinates points) as Hc
    by (eapply Forall_impl; [exact Hv|]; apply valid_coordinates_has).
  destruct (load_new user points Hz Hc) as (this' & leaves & Hl & _).
  exists this'. split; [done|].
  assert (Forall sound_cluster (heap this')) as Hs
    by (eapply load_sound; [exact Hl|done|constructor]).
  assert (Forall in_unit_square (heap this')) as Hu
    by (eapply Forall_impl; [exact Hs|]; by intros c [? _]).
  split; [done|]. intros z t j c _ _ Hj.
  apply list_elem_of_lookup_2 in Hj. by apply (proj1 (Forall_forall _ _) Hu) in Hj.
Qed.

(** ** [getClusters] *)

Lemma Int_part_IZR (k : Z) : Int_part (IZR k) = k.
Proof. symmetry. apply Int_part_spec. lra. Qed.

Lemma array_get_num_IZR {A} (a : list A) (k : Z) :
  array_get_num a (IZR k) = array_get a k.
Proof. unfold array_get_num. rewrite Int_part_IZR. by rewrite decide_True. Qed.

Lemma array_get_num_not_integer {A} (a : list A) (z : R) :
  (forall k : Z, IZR k <> z) -> array_get_num a z = None.
Proof. intros H. unfold array_get_num. by rewrite decide_False. Qed.

Lemma clamp_IZR (lo z hi : Z) :
  Rmax (IZR lo) (Rmin (IZR z) (IZR hi)) = IZR (Z.max lo (Z.min z hi)).
Proof.
  destruct (Z.le_gt_cases z hi) as [H1|H1].
  - rewrite Rmin_left, Z.min_l by (done || by apply IZR_le).
    destruct (Z.le_gt_cases lo z) as [H2|H2].
    + by rewrite Rmax_right, Z.max_r by (done || by apply IZR_le).
    + by rewrite Rmax_left, Z.max_l by (lia || apply IZR_le; lia).
  - rewrite Rmin_right, Z.min_r by (lia || apply IZR_le; lia).
    destruct (Z.le_gt_cases lo hi) as [H2|H2].
    + by rewrite Rmax_right, Z.max_r by (done || by apply IZR_le).
    + by rewrite Rmax_left, Z.max_l by (lia || apply IZR_le; lia).
Qed.

Lemma load_frame this points this' :
  load rbush_search this points = Some this' ->
  options this' = options this /\ length (trees this') = length (trees this).
Proof.
  intros H.
  destruct (mapM createPointCluster points) as [leaves|] eqn:Hleaves.
  2:{ unfold load, createPointClusters in H. by rewrite Hleaves in H. }
  rewrite (load_unfold _ _ _ Hleaves) in H.
  destruct (load_loop _ _ _ _ _) as [[this2 cl2]|] eqn:Hloop; simpl in H; [|done].
  apply load_loop_frame in Hloop as (Ho & Hl & _).
  apply tree_load_Some in H as (_ & _ & Ho' & _ & _ & Hl').
  split; [by rewrite Ho', Ho|by rewrite Hl', Hl].
Qed.

Lemma hits_get this t a :
  is_Some (mapM (fun i => getCluster <$> heap this !! i)
             (rbush_search (heap this) t a)).
Proof.
  apply mapM_is_Some_2, Forall_forall. intros i Hi.
  rewrite rbush_search_spec in Hi. apply list_elem_of_filter in Hi as [Hi _].
  unfold hit in Hi. simpl. destruct (heap this !! i); [by eexists|done].
Qed.

(** C8, amended.  On an instance with zoom options
    [0 <= minZoom <= maxZoom + 1], new or returned by [load], and for
    every integer zoom, below, inside or above the range,
    [getClusters] returns; it searches the tree of the tier
    [max(minZoom, min(zoom, maxZoom + 1))], which lies in
    [[minZoom, maxZoom + 1]], and returns what the call with that
    clamped zoom returns. *)
Theorem getClusters_clamps_integer_zoom user points this bbox (zoom : Z) :
  valid_zooms (options (supercluster user)) ->
  this = supercluster user \/
    load rbush_search (supercluster user) points = Some this ->
  let o := options this in
  let z := Z.max (minZoom o) (Z.min zoom (maxZoom o + 1)) in
  (minZoom o <= z <= maxZoom o + 1)%Z /\
  is_Some (getClusters rbush_search this bbox (IZR zoom)) /\
  getClusters rbush_search this bbox (IZR zoom) =
    getClusters rbush_search this bbox (IZR z) /\
  exists t, array_get (trees this) z = Some t /\
    getClusters rbush_search this bbox (IZR zoom) =
    mapM (fun i => getCluster <$> heap this !! i)
      (rbush_search (heap this) t
         (Projector.lngX bbox.1.1.1, Projector.latY bbox.2,
          Projector.lngX bbox.1.2, Projector.latY bbox.1.1.2)).
Proof.
  intros Hz Hthis o z.
  assert (options this = options (supercluster user) /\
          length (trees this) = Z.to_nat (maxZoom o + 2)) as [Ho Hl].
  { destruct Hthis as [->|H].
    - split; [done|]. unfold o. simpl. unfold _initTrees. by rewrite length_replicate.
    - apply load_frame in H as [Ho Hl]. split; [done|].
      rewrite Hl. unfold o. rewrite Ho. simpl. unfold _initTrees.
      by rewrite length_replicate. }
  unfold valid_zooms in Hz. rewrite <- Ho in Hz. fold o in Hz.
  assert (minZoom o <= z <= maxZoom o + 1)%Z as Hzr by lia.
  split; [done|].
  assert (Z.to_nat z < length (trees this)) as Hidx by lia.
  destruct (lookup_lt_is_Some_2 _ _ Hidx) as [t Ht].
  assert (array_get (trees this) z = Some t) as Hget
    by (apply array_get_Some; split; [lia|done]).
  assert (forall zoom' : Z, Z.max (minZoom o) (Z.min zoom' (maxZoom o + 1)) = z ->
    getClusters rbush_search this bbox (IZR zoom') =
    mapM (fun i => getCluster <$> heap this !! i)
      (rbush_search (heap this) t
         (Projector.lngX bbox.1.1.1, Projector.latY bbox.2,
          Projector.lngX bbox.1.2, Projector.latY bbox.1.1.2))) as Heq.
  { intros zoom' Hz'. unfold getClusters. destruct bbox as [[[west south] east] north].
    fold o. rewrite clamp_IZR, Hz', array_get_num_IZR, Hget. done. }
  split; [rewrite (Heq zoom) by done; apply hits_get|].
  split; [rewrite (Heq zoom), (Heq z) by lia; done|].
  exists t. split; [done|]. by apply Heq.
Qed.

(** ** Invariants of a pass and of [load] *)

(** An iteration of the loop of [_cluster] keeps what the loop relies on. *)
Lemma Step_ready zoom i rest this clusters this' clusters' :
  pass_ready zoom this (i :: rest) clusters ->
  Step rbush_search zoom i this clusters this' clusters' ->
  pass_ready zoom this' rest clusters'.
Proof.
  intros [Htree [Hnd Hv] (Hcnd & Hcl & Hcr)] H1.
  destruct Htree as (t & Ht & Htnd & Htv & Htl).
  apply NoDup_cons in Hnd as [Hi Hnd]. apply Forall_cons in Hv as [Hiv Hv].
  destruct (lookup_lt_is_Some_2 _ _ Hiv) as [point Hp].
  destruct (zoom_le (Cluster.zoom point) zoom) eqn:Hz.
  - assert (this' = this /\ clusters' = clusters) as [-> ->].
    { destruct H1; simplify_eq; try congruence; done. }
    assert (~ live (heap this) zoom i) as Hdead.
    { unfold live. rewrite Hp, Hz. done. }
    split.
    + exists t. repeat split; try done. intros j Hj Hlive.
      pose proof (Htl j Hj Hlive) as Hx; apply elem_of_cons in Hx as [->|?]; done.
    + done.
    + repeat split; try done. intros c Hc Hin. apply (Hcr c Hc). by right.
  - destruct (Step_claim _ _ _ _ _ _ _ H1 Hp Hz)
      as (ns & new & c & Hns & Ho1 & Ht1 & Hh1 & Hw1 & -> & Hm1 & Hc).
    destruct (claimed_neighbors _ _ _ _ _ Hp Hns) as (t' & Ht' & Hnsnd & Hnsl).
    rewrite Ht in Ht'. injection Ht' as <-. specialize (Hnsnd Htnd).
    assert (live (heap this) zoom i) as Hlive.
    { unfold live. by rewrite Hp. }
    assert (forall j, j ∈ ns -> j ∈ rest /\ live (heap this) zoom j) as Hnsr.
    { intros j Hj. destruct (Hnsl j Hj) as (Hjt & Hne & Hjl & _). split; [|done].
      pose proof (Htl j Hjt Hjl) as Hx; apply elem_of_cons in Hx as [->|?]; done. }
    assert (length (heap this) <= length (heap this')) as Hlen.
    { rewrite Hh1, length_app, mark_all_length. lia. }
    assert ((c ∉ rest) /\ (c ∉ clusters) /\ live (heap this') (zoom - 1) c)
      as (Hcr1 & Hcc1 & Hcl1).
    { destruct Hc as [[-> ->]|(-> & a & -> & Ha)].
      - repeat split; [done| |].
        + intros Hin. apply (Hcr i Hin). by left.
        + rewrite Hh1. apply live_pred_mark_all; [done|]. right. by left.
      - repeat split.
        + intros Hin. apply (proj1 (Forall_forall _ _) Hv) in Hin. lia.
        + intros Hin. apply (proj1 (Forall_forall _ _) Hcl) in Hin.
          apply live_lt in Hin. lia.
        + rewrite Hh1. unfold live.
          rewrite lookup_app_r by (by rewrite mark_all_length).
          rewrite mark_all_length, Nat.sub_diag. simpl. by rewrite Ha. }
    split.
    + exists t. rewrite Ht1. repeat split; try done.
      * eapply Forall_impl; [exact Htv|]. simpl. intros; lia.
      * intros j Hj Hjl.
        assert (j < length (heap this)) as Hjv
          by (by apply (proj1 (Forall_forall _ _) Htv)).
        rewrite Hh1 in Hjl. apply live_mark_all in Hjl as [Hjl Hjm]; [|done].
        pose proof (Htl j Hj Hjl) as Hx; apply elem_of_cons in Hx as [->|?]; [|done].
        exfalso. apply Hjm. by left.
    + split; [done|]. eapply Forall_impl; [exact Hv|]. simpl. intros; lia.
    + repeat split.
      * apply NoDup_app. repeat split; [done| |apply NoDup_singleton].
        intros x Hx ->%list_elem_of_singleton. done.
      * apply Forall_app. split; [|by constructor].
        apply Forall_forall. intros x Hx. rewrite Hh1.
        assert (Hxl := proj1 (Forall_forall _ _) Hcl x Hx).
        apply live_pred_mark_all; [by eapply live_lt|by left].
      * intros x [Hx| ->%list_elem_of_singleton]%elem_of_app; [|done].
        intros Hin. apply (Hcr x Hx). by right.
Qed.

(** An invariant of the iterations of a pass that runs as [load] runs
    it is an invariant of the loop. *)
Lemma cluster_loop_ready_invariant
    (Q : SuperCluster -> list ref -> list ref -> Prop) zoom :
  (forall i rest this clusters this' clusters',
     pass_ready zoom this (i :: rest) clusters ->
     Q this (i :: rest) clusters ->
     Step rbush_search zoom i this clusters this' clusters' ->
     Q this' rest clusters') ->
  forall rest this clusters this' clusters',
    pass_ready zoom this rest clusters ->
    Q this rest clusters ->
    cluster_loop rbush_search zoom rest this clusters = Some (this', clusters') ->
    Q this' [] clusters'.
Proof.
  intros HQ. induction rest as [|i rest IH]; intros this cl this' cl' Hr H0 H; simpl in H.
  - by simplify_eq.
  - destruct (cluster_point rbush_search zoom i this cl) as [[this1 cl1]|] eqn:H1;
      simpl in H; [|done].
    apply cluster_point_Step in H1. eapply IH; [|by eapply HQ|exact H].
    by eapply Step_ready.
Qed.

(** The state in which [load] starts the pass at zoom [z]: the
    current clusters are loaded into the tree of the tier [z + 1],
    which was empty. *)
Lemma load_inv_ready N z this clusters this1 :
  load_inv N z this clusters ->
  tree_load (z + 1) clusters this = Some this1 ->
  options this1 = options this /\ heap this1 = heap this /\
  array_get (trees this1) (z + 1) = Some clusters /\
  (forall k, k <> (z + 1)%Z -> array_get (trees this1) k = array_get (trees this) k) /\
  pass_ready z this1 clusters [].
Proof.
  intros [Hlen Hempty Htiers (Hnd & Hlive & Hmass) _] H.
  unfold tree_load in H.
  destruct (array_get (trees this) (z + 1)) as [t|] eqn:Hget; simpl in H; [|done].
  assert (t = []) as -> by (eapply Hempty; [|exact Hget]; lia).
  apply array_get_Some in Hget as [Hz Hget]. apply lookup_lt_Some in Hget.
  injection H as <-. simpl.
  assert (array_get (<[Z.to_nat (z + 1) := clusters]> (trees this)) (z + 1) = Some clusters)
    as Hnew by (by apply array_get_insert_eq).
  assert (Forall (fun j => j < length (heap this)) clusters) as Hvalid.
  { eapply Forall_impl; [exact Hlive|]. intros j. apply live_lt. }
  split; [done|]. split; [done|]. split; [done|]. split.
  { intros k Hk. by apply array_get_insert_ne. }
  split.
  - exists clusters. simpl. done.
  - done.
  - repeat split; [constructor|constructor|].
    intros c Hc. by apply elem_of_nil in Hc.
Qed.

(** An invariant of the passes of [load] is an invariant of its loop. *)
Lemma load_loop_invariant (L : Z -> SuperCluster -> list ref -> Prop) N (low : Z) :
  (forall z this clusters this1 this2 clusters2,
     load_inv N z this clusters ->
     (0 <= z + 1)%Z -> (low <= z <= maxZoom (options this))%Z ->
     L z this clusters ->
     tree_load (z + 1) clusters this = Some this1 ->
     _cluster rbush_search this1 clusters z = Some (this2, clusters2) ->
     L (z - 1)%Z this2 clusters2) ->
  forall n z this clusters this' clusters',
    load_inv N z this clusters ->
    (Z.of_nat n <= z + 1)%Z -> (low <= z - Z.of_nat n + 1)%Z ->
    (z <= maxZoom (options this))%Z ->
    L z this clusters ->
    load_loop rbush_search n z this clusters = Some (this', clusters') ->
    L (z - Z.of_nat n)%Z this' clusters' /\
    load_inv N (z - Z.of_nat n) this' clusters'.
Proof.
  intros HL. induction n as [|n IH]; intros z this cl this' cl' Hinv Hn Hlow Hz H0 H.
  { simpl in H. simplify_eq. by replace (z - Z.of_nat 0)%Z with z by lia. }
  destruct (load_loop_spec N 1 z this cl Hinv) as (this2 & cl2 & H2 & Hinv2 & Ho2 & _);
    [lia|done|].
  simpl in H, H2.
  destruct (tree_load (z + 1) cl this) as [this1|] eqn:H1; simpl in H, H2; [|done].
  destruct (_cluster rbush_search this1 cl z) as [[this2' cl2']|] eqn:Hc;
    simpl in H, H2; [|done].
  injection H2 as -> ->.
  replace (z - Z.of_nat (S n))%Z with (z - 1 - Z.of_nat n)%Z by lia.
  eapply IH; [exact Hinv2|lia|lia|rewrite Ho2; lia| |exact H].
  eapply HL; [exact Hinv|lia|lia|done|exact H1|exact Hc].
Qed.

(** ** The tiers *)

Lemma claimed_by_later o zoom h h' c agg i ns :
  heap_le h h' -> h !! c = Some agg -> claimed_by o zoom h agg i ns ->
  exists agg', h' !! c = Some agg' /\ claimed_by o zoom h' agg' i ns.
Proof.
  intros Hle Hc Hcl. destruct (Hle _ _ Hc) as (agg' & Hc' & E).
  exists agg'. split; [done|].
  apply (claimed_by_heap_le _ _ _ _ _ _ _ Hle) in Hcl.
  destruct Hcl as [(pt & Hpt & Hag) (Hch & Hne & Hni) Hnear]. split.
  - exists pt. split; [done|]. by rewrite E.
  - repeat split; [|done|done]. by rewrite (erase_children _ _ E).
  - intros k Hk. destruct (Hnear k Hk) as (b & Hb & Hd). exists b. split; [done|].
    unfold distSq in *. by rewrite (erase_x _ _ E), (erase_y _ _ E).
Qed.

Lemma tier_below_later o zoom h h' upper lower :
  heap_le h h' -> tier_below o zoom h upper lower -> tier_below o zoom h' upper lower.
Proof.
  intros Hle [Hnd Hlen Hnode Hcover]. split; [done|done| |].
  - intros c Hc. destruct (Hnode c Hc) as [?|(Hcu & agg & i & ns & Hagg & Hcl & Hi & Hns)];
      [by left|right].
    split; [done|].
    destruct (claimed_by_later _ _ _ _ _ _ _ _ Hle Hagg Hcl) as (agg' & Hagg' & Hcl').
    by exists agg', i, ns.
  - intros j Hj. destruct (Hcover j Hj) as [?|(c & agg & i & ns & Hc & Hagg & Hcl & Hin)];
      [by left|right].
    destruct (claimed_by_later _ _ _ _ _ _ _ _ Hle Hagg Hcl) as (agg' & Hagg' & Hcl').
    by exists c, agg', i, ns.
Qed.

(** A pass that [load] runs on the tier [points] returns a tier below it. *)
Lemma pass_tier_below this points z this' clusters :
  pass_ready z this points [] ->
  array_get (trees this) (z + 1) = Some points ->
  Forall (live (heap this) z) points ->
  _cluster rbush_search this points z = Some (this', clusters) ->
  tier_below (options this) z (heap this') points clusters.
Proof.
  intros Hready Htree Hlive H. unfold _cluster in H.
  set (covered := fun (h : list Cluster.t) (cl : list ref) (j : ref) =>
    exists c agg i ns, c ∈ cl /\ h !! c = Some agg /\
      claimed_by (options this) z h agg i ns /\ (j = i \/ j ∈ ns)).
  apply (cluster_loop_ready_invariant
    (fun this1 rest cl =>
       options this1 = options this /\ trees this1 = trees this /\
       (forall j, j ∈ rest -> j ∈ points) /\
       NoDup cl /\
       length cl + length rest <= length points /\
       (forall c, c ∈ cl ->
          c ∈ points \/
          (c ∉ points) /\
          exists agg i ns, heap this1 !! c = Some agg /\
            claimed_by (options this) z (heap this1) agg i ns /\
            i ∈ points /\ forall j, j ∈ ns -> j ∈ points) /\
       (forall j, j ∈ points ->
          j ∈ rest /\ live (heap this1) z j \/ j ∈ cl \/ covered (heap this1) cl j)) z)
    in H; [| |exact Hready|].
  - destruct H as (_ & _ & _ & Hnd & Hlen & Hnode & Hcover).
    split; [done|simpl in Hlen; lia|done|].
    intros j Hj. destruct (Hcover j Hj) as [[Hin _]|[?|?]]; [by apply elem_of_nil in Hin|by left|by right].
  - clear H Hready Hlive. intros i rest this1 cl this2 cl2 Hr (Ho & Ht & Hsub & Hnd & Hlen & Hnode & Hcover) HS.
    pose proof (Step_ready _ _ _ _ _ _ _ Hr HS) as [_ _ (Hnd2 & _ & _)].
    pose proof (Step_frame _ _ _ _ _ _ HS) as (Ho2 & Ht2 & Hle2).
    destruct Hr as [(t & Hget & Htnd & Htv & Htl) [Hrnd Hrv] (_ & _ & Hcr)].
    rewrite Ht, Htree in Hget. injection Hget as <-.
    apply NoDup_cons in Hrnd as [Hi Hrnd].
    assert (forall c, c ∈ cl ->
          c ∈ points \/
          (c ∉ points) /\
          exists agg i ns, heap this2 !! c = Some agg /\
            claimed_by (options this) z (heap this2) agg i ns /\
            i ∈ points /\ forall j, j ∈ ns -> j ∈ points) as Hnode2.
    { intros c Hc. destruct (Hnode c Hc) as [?|(Hcp & agg & k & ns & Hagg & Hcl & Hk & Hns)];
        [by left|right].
      split; [done|].
      destruct (claimed_by_later _ _ _ _ _ _ _ _ Hle2 Hagg Hcl) as (agg' & Hagg' & Hcl').
      by exists agg', k, ns. }
    assert (forall j, covered (heap this1) cl j -> covered (heap this2) cl j) as Hcov2.
    { intros j (c & agg & k & ns & Hc & Hagg & Hcl & Hin).
      destruct (claimed_by_later _ _ _ _ _ _ _ _ Hle2 Hagg Hcl) as (agg' & Hagg' & Hcl').
      by exists c, agg', k, ns. }
    assert (forall j x, covered (heap this2) cl j -> covered (heap this2) (cl ++ [x]) j) as Hcovw.
    { intros j x (c & agg & k & ns & Hc & Hrest). exists c, agg, k, ns.
      split; [set_solver|done]. }
    split; [congruence|]. split; [congruence|].
    split; [intros j Hj; apply Hsub; by right|].
    split; [done|].
    inversion HS as [point Hp Hz|point Hp Hz Hns
                    |point ns this2' Hp Hz Hns Hne Hv Ho' Ht' Hh Hw]; subst.
    + (* already visited *)
      split; [simpl in Hlen; lia|]. split; [done|].
      intros j Hj. destruct (Hcover j Hj) as [[Hin Hl]|[?|?]]; [|by right; left|by right; right].
      apply elem_of_cons in Hin as [->|Hin]; [|by left].
      unfold live in Hl. rewrite Hp, Hz in Hl. done.
    + (* no neighbors *)
      split; [rewrite length_app; simpl in *; lia|]. split.
      { intros c [Hc| ->%list_elem_of_singleton]%elem_of_app; [by apply Hnode2|].
        left. apply Hsub. by left. }
      intros j Hj. destruct (Hcover j Hj) as [[Hin Hl]|[?|?]].
      * apply elem_of_cons in Hin as [->|Hin]; [right; left; set_solver|].
        left. split; [done|].
        assert (j <> i) by (by intros ->).
        unfold live in *. rewrite heap_assign_zoom, list_lookup_alter_ne by done. done.
      * right; left; set_solver.
      * right; right. by apply Hcovw, Hcov2.
    + (* a cluster is built *)
      destruct (Step_merge_claimed _ _ _ _ _ _ _ _ HS Hp Hz Hns) as (Hni & Hm).
      destruct (Hm Hne) as (_ & Hl2 & Hnew & Hcl).
      destruct (claimed_neighbors _ _ _ _ _ Hp Hns) as (t' & Ht'' & _ & Hnsl).
      rewrite Ht, Htree in Ht''. injection Ht'' as <-.
      assert (forall j, j ∈ ns -> j ∈ points) as Hnsp.
      { intros j Hj. by destruct (Hnsl j Hj) as (? & _). }
      split; [rewrite length_app; simpl in *; lia|]. split.
      { intros c [Hc| ->%list_elem_of_singleton]%elem_of_app; [by apply Hnode2|].
        right. split.
        - intros Hin. apply (proj1 (Forall_forall _ _) Htv) in Hin. lia.
        - exists (aggregate point (heap this1) ns), i, ns. rewrite <- Ho.
          split; [done|]. split; [done|]. split; [apply Hsub; by left|done]. }
      intros j Hj.
      assert (covered (heap this2) (cl ++ [length (heap this1)]) i) as Hci.
      { exists (length (heap this1)), (aggregate point (heap this1) ns), i, ns.
        rewrite <- Ho. split; [set_solver|]. split; [done|]. split; [done|by left]. }
      assert (forall k, k ∈ ns -> covered (heap this2) (cl ++ [length (heap this1)]) k) as Hck.
      { intros k Hk.
        exists (length (heap this1)), (aggregate point (heap this1) ns), i, ns.
        rewrite <- Ho. split; [set_solver|]. split; [done|]. split; [done|by right]. }
      destruct (Hcover j Hj) as [[Hin Hl]|[?|?]].
      * apply elem_of_cons in Hin as [->|Hin]; [by right; right|].
        destruct (decide (j ∈ ns)) as [Hjn|Hjn]; [right; right; by apply Hck|].
        left. split; [done|]. rewrite Hh. apply live_mark_all; [by eapply live_lt|].
        split; [done|]. intros [->|?]%elem_of_cons; done.
      * right; left; set_solver.
      * right; right. by apply Hcovw, Hcov2.
  - repeat split; try done.
    + constructor.
    + intros c Hc. by apply elem_of_nil in Hc.
    + intros j Hj. left. split; [done|]. by apply (proj1 (Forall_forall _ _) Hlive).
Qed.

(** The invariant of the loop of [load] holds when the loop starts on
    a new instance. *)
Lemma load_inv_start user points leaves :
  mapM createPointCluster points = Some leaves ->
  load_inv (Z.of_nat (length points)) (maxZoom (options (supercluster user)))
    (with_heap (heap (supercluster user) ++ leaves) (supercluster user))
    (seq 0 (length leaves)).
Proof.
  intros Hleaves. set (this0 := supercluster user).
  pose proof (mapM_Some_1 _ _ _ Hleaves) as Hall.
  assert (length leaves = length points) as Hlen by (symmetry; by eapply Forall2_length).
  assert (Forall (fun c => Cluster.zoom c = Infinity /\ Cluster.numPoints c = 1%Z) leaves)
    as Hleaf.
  { apply Forall_forall. intros c Hc.
    apply list_elem_of_lookup in Hc as [i Hc].
    destruct (Forall2_lookup_r _ _ _ _ _ Hall Hc) as (p & _ & Hp).
    apply createPointCluster_leaf in Hp. tauto. }
  split.
  - unfold this0, supercluster, _initTrees. simpl. by rewrite length_replicate.
  - intros k t _ Hk. by apply lookup_new_trees in Hk.
  - intros k [Hk1 Hk2]. exfalso.
    eapply Z.lt_irrefl, Z.lt_le_trans; [exact Hk1|exact Hk2].
  - repeat split.
    + apply NoDup_seq.
    + apply Forall_forall. intros i Hi. apply elem_of_seq in Hi.
      unfold live, this0. simpl.
      destruct (lookup_lt_is_Some_2 leaves i) as [c Hc]; [lia|]. rewrite Hc.
      apply list_elem_of_lookup_2 in Hc.
      by apply (proj1 (Forall_forall _ _) Hleaf) in Hc as [-> _].
    + unfold this0. simpl.
      pose proof (mass_leaves [] leaves) as Hm. simpl in Hm.
      rewrite Hm, Hlen; [done|].
      eapply Forall_impl; [exact Hleaf|]. simpl. tauto.
  - exists []. repeat split; [simpl; lia|constructor].
Qed.

(** [load] on a new instance, for inputs that let it run, with an
    invariant of its passes: the loop returns with the invariant, and
    [load] returns the instance in which the clusters that the loop
    returns are loaded into the tree of the tier [minZoom]. *)
Lemma load_new_invariant (L : Z -> SuperCluster -> list ref -> Prop) user points leaves :
  let this0 := supercluster user in
  let o := options this0 in
  let N := Z.of_nat (length points) in
  valid_zooms o ->
  mapM createPointCluster points = Some leaves ->
  (forall z this clusters this1 this2 clusters2,
     load_inv N z this clusters ->
     (0 <= z + 1)%Z -> (minZoom o <= z <= maxZoom (options this))%Z ->
     L z this clusters ->
     tree_load (z + 1) clusters this = Some this1 ->
     _cluster rbush_search this1 clusters z = Some (this2, clusters2) ->
     L (z - 1)%Z this2 clusters2) ->
  L (maxZoom o) (with_heap leaves this0) (seq 0 (length leaves)) ->
  exists this2 clusters2,
    L (minZoom o - 1)%Z this2 clusters2 /\
    load_inv N (minZoom o - 1) this2 clusters2 /\
    options this2 = o /\
    heap_le leaves (heap this2) /\
    load rbush_search this0 points =
      Some (with_trees (<[Z.to_nat (minZoom o) := clusters2]> (trees this2)) this2).
Proof.
  intros this0 o N Hz Hleaves HL H0.
  pose proof (load_inv_start user points leaves Hleaves) as Hinv. fold this0 o N in Hinv.
  change (heap this0 ++ leaves) with leaves in Hinv.
  unfold valid_zooms in Hz.
  destruct (load_loop_spec N (Z.to_nat (maxZoom o - minZoom o + 1)) (maxZoom o)
              (with_heap leaves this0) (seq 0 (length leaves)) Hinv)
    as (this2 & cl2 & Hloop & _ & Ho2 & Hle2); [lia|done|].
  destruct (load_loop_invariant L N (minZoom o) HL (Z.to_nat (maxZoom o - minZoom o + 1))
              (maxZoom o) (with_heap leaves this0) (seq 0 (length leaves)) this2 cl2 Hinv)
    as [HL2 Hinv2]; [lia|lia|done|done|exact Hloop|].
  replace (maxZoom o - Z.of_nat (Z.to_nat (maxZoom o - minZoom o + 1)))%Z
    with (minZoom o - 1)%Z in HL2, Hinv2 by lia.
  exists this2, cl2. split; [done|]. split; [done|]. split; [done|]. split; [done|].
  rewrite (load_unfold _ _ _ Hleaves). fold o.
  change (heap this0 ++ leaves) with leaves. change (length (heap this0)) with 0.
  rewrite Hloop. simpl.
  destruct Hinv2 as [Hl2 Hempty _ _ _].
  assert (options this2 = o) as Ho2' by done.
  assert (Z.to_nat (minZoom o) < length (trees this2)) as Hidx by (rewrite Hl2, Ho2'; lia).
  destruct (lookup_lt_is_Some_2 _ _ Hidx) as [t Ht].
  assert (array_get (trees this2) (minZoom o) = Some t) as Hget
    by (apply array_get_Some; split; [lia|done]).
  assert (t = []) as -> by (eapply Hempty; [|exact Hget]; lia).
  by rewrite (tree_load_eq _ _ _ _ Hget).
Qed.

Lemma load_tiers_step n N z this clusters this1 this2 clusters2 :
  load_inv N z this clusters ->
  (0 <= z + 1)%Z -> (z <= maxZoom (options this))%Z ->
  tiers_inv n z this clusters ->
  tree_load (z + 1) clusters this = Some this1 ->
  _cluster rbush_search this1 clusters z = Some (this2, clusters2) ->
  tiers_inv n (z - 1)%Z this2 clusters2.
Proof.
  intros Hinv Hz0 Hz [[Htop1 Htop2] Hbuilt Hcur] H1 H2.
  destruct (load_inv_ready _ _ _ _ _ Hinv H1) as (Ho1 & Hh1 & Hnew & Hold & Hready).
  assert (Forall (live (heap this1) z) clusters) as Hlive
    by (rewrite Hh1; apply Hinv).
  pose proof (pass_tier_below _ _ _ _ _ Hready Hnew Hlive H2) as Hbelow.
  apply cluster_loop_frame in H2 as (Ho2 & Ht2 & Hle2).
  rewrite Hh1 in Hle2. rewrite Ho1 in Hbelow.
  assert (options this2 = options this) as Ho by congruence.
  split.
  - rewrite Ho, Ht2. split; [intros ?; lia|]. intros _.
    destruct (decide (z = maxZoom (options this))) as [->|Hne].
    + by rewrite Hnew, Htop1.
    + rewrite Hold by lia. apply Htop2. lia.
  - intros k Hk. rewrite Ho in Hk. rewrite Ho, Ht2.
    destruct (decide (k = z + 1)%Z) as [->|Hne].
    + destruct Hcur as (upper & Hu & Hb); [lia|].
      exists upper, clusters. rewrite Hold by lia.
      replace (z + 1 + 1)%Z with (z + 2)%Z by lia.
      split; [done|]. split; [done|]. by eapply tier_below_later.
    + destruct (Hbuilt k) as (upper & lower & Hu & Hl & Hb); [lia|].
      exists upper, lower. rewrite !Hold by lia.
      split; [done|]. split; [done|]. by eapply tier_below_later.
  - intros _. exists clusters. rewrite Ho, Ht2.
    replace (z - 1 + 2)%Z with (z + 1)%Z by lia.
    replace (z - 1 + 1)%Z with z by lia. done.
Qed.

(** The tiers that [load] builds on a new instance. *)
Lemma load_tiers user points :
  valid_zooms (options (supercluster user)) ->
  Forall has_coordinates points ->
  exists this' leaves,
    load rbush_search (supercluster user) points = Some this' /\
    mapM createPointCluster points = Some leaves /\
    options this' = options (supercluster user) /\
    heap_le leaves (heap this') /\
    array_get (trees this') (maxZoom (options this') + 1) = Some (seq 0 (length points)) /\
    forall z, (minZoom (options this') <= z <= maxZoom (options this'))%Z ->
      exists upper lower,
        array_get (trees this') (z + 1) = Some upper /\
        array_get (trees this') z = Some lower /\
        tier_below (options this') z (heap this') upper lower.
Proof.
  intros Hz Hcoords. set (this0 := supercluster user) in *. set (o := options this0) in *.
  destruct (mapM_is_Some_2 createPointCluster points) as [leaves Hleaves].
  { eapply Forall_impl; [exact Hcoords|]. intros p. apply createPointCluster_is_Some. }
  assert (length leaves = length points) as Hlen.
  { symmetry. eapply Forall2_length. by apply mapM_Some_1. }
  destruct (load_new_invariant (tiers_inv (length points)) user points leaves Hz Hleaves)
    as (this2 & cl2 & [[Htop1 Htop2] Hbuilt Hcur] & Hinv2 & Ho2 & Hle2 & Hload).
  { intros z this cl this1 this2 cl2 Hinv H0 [_ Hmax] HL H1 H2.
    by eapply load_tiers_step. }
  { split.
    - split; [by rewrite Hlen|]. simpl. lia.
    - intros k Hk. simpl in Hk. lia.
    - simpl. lia. }
  fold this0 o in Ho2, Hload, Hbuilt, Hcur, Htop1, Htop2, Hinv2.
  unfold valid_zooms in Hz. rewrite Ho2 in *.
  destruct Hinv2 as [Hl2 _ _ _ _]. rewrite Ho2 in Hl2.
  eexists _, leaves. split; [exact Hload|]. split; [done|]. split; [done|].
  split; [done|]. unfold with_trees. cbn [trees options heap]. rewrite Ho2.
  assert (Z.to_nat (minZoom o) < length (trees this2)) as Hidx by lia.
  split.
  - destruct (decide (minZoom o = maxZoom o + 1)%Z) as [Heq|Hne].
    + rewrite <- Heq, array_get_insert_eq by (lia || done).
      rewrite Htop1 by lia. done.
    + rewrite array_get_insert_ne by lia. apply Htop2. lia.
  - intros z Hzr. destruct (decide (z = minZoom o)) as [->|Hne].
    + destruct Hcur as (upper & Hu & Hb); [lia|].
      replace (minZoom o - 1 + 2)%Z with (minZoom o + 1)%Z in Hu by lia.
      replace (minZoom o - 1 + 1)%Z with (minZoom o) in Hb by lia.
      exists upper, cl2. rewrite array_get_insert_ne by lia.
      rewrite array_get_insert_eq by (lia || done). done.
    + destruct (Hbuilt z) as (upper & lower & Hu & Hl & Hb); [lia|].
      exists upper, lower. rewrite !array_get_insert_ne by lia. done.
Qed.

(** ** The forest of children *)

Lemma heap_le_old h h' c agg' :
  heap_le h h' -> c < length h -> h' !! c = Some agg' ->
  exists agg, h !! c = Some agg /\ erase agg' = erase agg.
Proof.
  intros Hle Hc Hagg'. destruct (lookup_lt_is_Some_2 _ _ Hc) as [agg Hagg].
  destruct (Hle _ _ Hagg) as (agg2 & Hagg2 & E). exists agg. split; [done|]. congruence.
Qed.

(** The children of a heap after a claim: those of the old objects,
    and those of the new object if one was allocated. *)
Lemma children_after_claim h zoom ms new c agg' ns :
  (mark_all zoom ms h ++ new) !! c = Some agg' ->
  Cluster.children agg' = Some ns ->
  (c < length h /\ exists agg, h !! c = Some agg /\ Cluster.children agg = Some ns) \/
  (length h <= c /\ new !! (c - length h) = Some agg').
Proof.
  intros Hagg Hch. destruct (decide (c < length h)) as [Hc|Hc].
  - left. split; [done|].
    rewrite lookup_app_l in Hagg by (by rewrite mark_all_length).
    rewrite mark_all_lookup in Hagg.
    destruct (h !! c) as [agg|]; simpl in Hagg; [|done].
    exists agg. split; [done|]. injection Hagg as <-. by case_decide.
  - right. split; [lia|].
    rewrite lookup_app_r in Hagg by (rewrite mark_all_length; lia).
    by rewrite mark_all_length in Hagg.
Qed.

Lemma Step_forest zoom i rest this clusters this' clusters' :
  pass_ready zoom this (i :: rest) clusters ->
  Step rbush_search zoom i this clusters this' clusters' ->
  forest (heap this) ->
  (forall c agg ns j, heap this !! c = Some agg -> Cluster.children agg = Some ns ->
     j ∈ ns -> (j ∉ clusters) /\ (j ∈ i :: rest -> ~ live (heap this) zoom j)) ->
  forest (heap this') /\
  (forall c agg ns j, heap this' !! c = Some agg -> Cluster.children agg = Some ns ->
     j ∈ ns -> (j ∉ clusters') /\ (j ∈ rest -> ~ live (heap this') zoom j)).
Proof.
  intros [(t & Ht & Htnd & Htv & Htl) [Hrnd Hrv] (_ & _ & Hcr)] HS [Hch Hpar] Hcur.
  apply NoDup_cons in Hrnd as [Hi Hrnd].
  assert (forall c agg ns j, heap this !! c = Some agg -> Cluster.children agg = Some ns ->
            j ∈ ns -> j < length (heap this)) as Hold.
  { intros c agg ns j Hc Hn Hj. destruct (Hch c agg ns Hc Hn) as [_ Hlt].
    apply (proj1 (Forall_forall _ _) Hlt) in Hj. apply lookup_lt_Some in Hc. lia. }
  destruct (heap this !! i) as [point|] eqn:Hp.
  2:{ destruct HS; congruence. }
  destruct (zoom_le (Cluster.zoom point) zoom) eqn:Hz.
  { assert (this' = this /\ clusters' = clusters) as [-> ->].
    { destruct HS; simplify_eq; try congruence; done. }
    split; [done|]. intros c agg ns j Hc Hn Hj.
    destruct (Hcur c agg ns j Hc Hn Hj) as [H1 H2]. split; [done|].
    intros Hin. apply H2. by right. }
  assert (live (heap this) zoom i) as Hlive by (unfold live; by rewrite Hp).
  assert (exists ns new,
    _getNeighbors rbush_search (assign_zoom i zoom this) i zoom = Some ns /\
    heap this' = mark_all zoom (i :: ns) (heap this) ++ new /\
    (ns = [] /\ new = [] /\ clusters' = clusters ++ [i] \/
     ns <> [] /\ new = [aggregate point (heap this) ns] /\
     clusters' = clusters ++ [length (heap this)])) as (ns & new & Hns & Hh & Hcase).
  { destruct HS as [point' Hp' Hz'|point' Hp' Hz' Hns
                   |point' ns this' Hp' Hz' Hns Hne Hv Ho Ht' Hh Hw];
      rewrite Hp in Hp'; injection Hp' as <-; [congruence| |].
    - exists [], []. split; [done|]. split; [by rewrite app_nil_r|]. by left.
    - exists ns, [aggregate point (heap this) ns]. split; [done|]. split; [done|]. by right. }
  destruct (claimed_neighbors _ _ _ _ _ Hp Hns) as (t' & Ht' & Hnsnd & Hnsl).
  rewrite Ht in Ht'. injection Ht' as <-. specialize (Hnsnd Htnd).
  assert (forall j, j ∈ ns -> j ∈ rest /\ live (heap this) zoom j /\ j < length (heap this))
    as Hnsr.
  { intros j Hj. destruct (Hnsl j Hj) as (Hjt & Hne & Hjl & _).
    split; [|split; [done|by eapply live_lt]].
    pose proof (Htl j Hjt Hjl) as Hx; apply elem_of_cons in Hx as [->|?]; done. }
  assert (forall c agg ns' j, heap this !! c = Some agg -> Cluster.children agg = Some ns' ->
            j ∈ ns' -> j ∉ ns) as Hfresh.
  { intros c agg ns' j Hc Hn Hj Hin. destruct (Hnsr j Hin) as (Hjr & Hjl & _).
    destruct (Hcur c agg ns' j Hc Hn Hj) as [_ H2]. apply H2; [by right|done]. }
  assert (forall c agg' ns', heap this' !! c = Some agg' -> Cluster.children agg' = Some ns' ->
    (c < length (heap this) /\ exists agg, heap this !! c = Some agg /\
       Cluster.children agg = Some ns') \/
    (c = length (heap this) /\ ns' = ns /\ ns <> [])) as Hkids.
  { intros c agg' ns' Hc Hn. rewrite Hh in Hc.
    destruct (children_after_claim _ _ _ _ _ _ _ Hc Hn) as [?|[Hge Hnew]]; [by left|right].
    destruct Hcase as [(-> & -> & _)|(Hne & -> & _)]; [done|].
    apply list_lookup_singleton_Some in Hnew as [H0 <-]. simpl in Hn.
    split; [lia|]. split; [congruence|done]. }
  split; [split|].
  - intros c agg' ns' Hc Hn.
    destruct (Hkids c agg' ns' Hc Hn) as [(_ & agg & Hagg & Hn')|(-> & -> & _)].
    + by eapply Hch.
    + split; [done|]. apply Forall_forall. intros j Hj. by apply Hnsr.
  - intros c c' agg agg' ns1 ns2 j Hc Hn1 Hj1 Hc' Hn2 Hj2.
    destruct (Hkids c agg ns1 Hc Hn1) as [(_ & a1 & Ha1 & Hn1')|(-> & -> & _)];
      destruct (Hkids c' agg' ns2 Hc' Hn2) as [(_ & a2 & Ha2 & Hn2')|(-> & -> & _)].
    + by eapply (Hpar c c' a1 a2 ns1 ns2 j).
    + exfalso. by eapply (Hfresh c a1 ns1 j).
    + exfalso. by eapply (Hfresh c' a2 ns2 j).
    + done.
  - intros c agg' ns' j Hc Hn Hj.
    destruct (Hkids c agg' ns' Hc Hn) as [(_ & agg & Hagg & Hn')|(-> & -> & Hne)].
    + destruct (Hcur c agg ns' j Hagg Hn' Hj) as [H1 H2].
      pose proof (Hold c agg ns' j Hagg Hn' Hj) as Hjlt.
      split.
      * intros Hin.
        assert (j ∈ clusters \/ j = i \/ j = length (heap this)) as [?|[->| ->]].
        { destruct Hcase as [(_ & _ & ->)|(_ & _ & ->)];
            apply elem_of_app in Hin as [?|?%list_elem_of_singleton]; auto. }
        -- done.
        -- apply H2; [by left|done].
        -- lia.
      * intros Hin Hl. rewrite Hh in Hl. apply live_mark_all in Hl as [Hl _]; [|done].
        apply H2; [by right|done].
    + destruct (Hnsr j Hj) as (Hjr & Hjl & Hjlt). split.
      * intros Hin.
        assert (j ∈ clusters \/ j = i \/ j = length (heap this)) as [?|[->| ->]].
        { destruct Hcase as [(_ & _ & ->)|(_ & _ & ->)];
            apply elem_of_app in Hin as [?|?%list_elem_of_singleton]; auto. }
        -- eapply Hcr; [done|]. by right.
        -- done.
        -- lia.
      * intros _ Hl. rewrite Hh in Hl. apply live_mark_all in Hl as [_ Hl]; [|done].
        apply Hl. by right.
Qed.

Lemma pass_forest this points z this' clusters :
  pass_ready z this points [] ->
  forest_inv this points ->
  _cluster rbush_search this points z = Some (this', clusters) ->
  forest_inv this' clusters.
Proof.
  intros Hready [Hf Hcur] H. unfold _cluster in H.
  apply (cluster_loop_ready_invariant
    (fun this1 rest cl =>
       forest (heap this1) /\
       forall c agg ns j, heap this1 !! c = Some agg -> Cluster.children agg = Some ns ->
         j ∈ ns -> (j ∉ cl) /\ (j ∈ rest -> ~ live (heap this1) z j)) z)
    in H; [| |exact Hready|].
  - destruct H as [Hf' Hcur']. split; [done|].
    intros c agg ns j Hc Hn Hj. by destruct (Hcur' c agg ns j Hc Hn Hj).
  - intros i rest this1 cl this2 cl2 Hr [Hf1 Hcur1] HS.
    by eapply Step_forest.
  - split; [done|]. intros c agg ns j Hc Hn Hj. split; [apply not_elem_of_nil|].
    intros Hin. exfalso. by eapply Hcur.
Qed.

(** ** Properties of every object that [load] builds *)

Lemma Forall_mark_all (P : Cluster.t -> Prop) zoom ms h :
  (forall c c', erase c' = erase c -> P c -> P c') ->
  Forall P h -> Forall P (mark_all zoom ms h).
Proof.
  intros HP Hh. apply Forall_lookup_2. intros j c Hc.
  rewrite mark_all_lookup in Hc.
  destruct (h !! j) as [c0|] eqn:Hc0; simpl in Hc; [|done]. simplify_eq.
  apply list_elem_of_lookup_2 in Hc0. apply (proj1 (Forall_forall _ _) Hh) in Hc0.
  case_decide; [|done]. by apply (HP c0).
Qed.

(** A property of the objects that does not depend on [zoom], that
    the clusters of the points have and that a cluster built from
    objects within the radius inherits from them, holds of every object
    that [load] leaves in the heap. *)
Lemma load_Forall (P : Cluster.t -> Prop) this points this' :
  (forall c c', erase c' = erase c -> P c -> P c') ->
  (forall p c, p ∈ points -> createPointCluster p = Some c -> P c) ->
  (forall zoom h point ns,
     Forall P h -> P point -> ns <> [] ->
     (forall j, j ∈ ns -> exists b, h !! j = Some b /\
        (distSq point b <=
         search_radius (options this) zoom * search_radius (options this) zoom)%R) ->
     P (aggregate point h ns)) ->
  load rbush_search this points = Some this' ->
  Forall P (heap this) -> Forall P (heap this').
Proof.
  intros Herase Hleaf Hagg H Hh.
  assert (forall zoom i this1 cl1 this2 cl2,
    options this1 = options this ->
    Step rbush_search zoom i this1 cl1 this2 cl2 ->
    Forall P (heap this1) -> Forall P (heap this2)) as Hstep.
  { intros zoom i this1 cl1 this2 cl2 Ho HS Hh1.
    destruct HS as [| |point ns this2 Hp Hz Hns Hne Hv Ho2 Ht Hhp Hw].
    - done.
    - by apply (Forall_mark_all P zoom [i]).
    - rewrite Hhp. apply Forall_app. split; [by apply Forall_mark_all|].
      constructor; [|constructor]. apply (Hagg zoom); [done| |done|].
      + apply list_elem_of_lookup_2 in Hp. by apply (proj1 (Forall_forall _ _) Hh1) in Hp.
      + intros j Hj. destruct (claimed_neighbors _ _ _ _ _ Hp Hns) as (t & _ & _ & Hnear).
        destruct (Hnear j Hj) as (_ & _ & _ & b & Hb & Hd). rewrite <- Ho.
        exists b. by split. }
  assert (forall n z this1 cl1 this2 cl2,
    options this1 = options this ->
    load_loop rbush_search n z this1 cl1 = Some (this2, cl2) ->
    Forall P (heap this1) -> Forall P (heap this2)) as Hloop.
  { induction n as [|n IH]; intros z this1 cl1 this2 cl2 Ho Hl Hh1; simpl in Hl.
    { by simplify_eq. }
    destruct (tree_load (z + 1) cl1 this1) as [this3|] eqn:H1; simpl in Hl; [|done].
    destruct (_cluster rbush_search this3 cl1 z) as [[this4 cl4]|] eqn:H2; simpl in Hl; [|done].
    apply tree_load_Some in H1 as (_ & _ & Ho3 & Hh3 & _).
    pose proof (cluster_loop_frame _ _ _ _ _ _ H2) as (Ho4 & _ & _).
    eapply IH; [|exact Hl|]; [by rewrite Ho4, Ho3|].
    eapply (cluster_loop_invariant
      (fun this5 _ => options this5 = options this /\ Forall P (heap this5)));
      [|split; [by rewrite Ho3|by rewrite Hh3]|exact H2].
    intros i this5 cl5 this6 cl6 [Ho5 Hh5] HS. split.
    - apply Step_frame in HS as (Ho6 & _). by rewrite Ho6.
    - by eapply Hstep. }
  destruct (mapM createPointCluster points) as [leaves|] eqn:Hleaves.
  2:{ unfold load, createPointClusters in H. by rewrite Hleaves in H. }
  rewrite (load_unfold _ _ _ Hleaves) in H.
  destruct (load_loop _ _ _ _ _) as [[this2 cl2]|] eqn:Hl; simpl in H; [|done].
  apply tree_load_Some in H as (_ & _ & _ & -> & _).
  eapply Hloop; [|exact Hl|]; [done|]. simpl.
  apply Forall_app. split; [done|].
  apply mapM_Some_1 in Hleaves.
  apply Forall_lookup_2. intros j c Hc.
  destruct (Forall2_lookup_r _ _ _ _ _ Hleaves Hc) as (p & Hp & Hpc).
  apply list_elem_of_lookup_2 in Hp. by eapply Hleaf.
Qed.

Lemma is_leaf_of_numPoints points c :
  is_leaf_of points c ->
  Cluster.numPoints c = 1%Z /\ Cluster.children c = None /\
  exists p, p ∈ points /\ Cluster.point c = Some p.
Proof.
  intros (p & Hp & Hc). apply createPointCluster_leaf in Hc as (_ & Hn & Hch & Hpt & _).
  simpl in *. eauto.
Qed.

Lemma mass_positive h ns :
  Forall (fun c => (1 <= Cluster.numPoints c)%Z) h ->
  ns <> [] -> Forall (fun j => j < length h) ns -> (1 <= mass h ns)%Z.
Proof.
  intros Hh Hne Hv.
  assert (forall l, Forall (fun j => j < length h) l -> (0 <= mass h l)%Z) as Hnn.
  { induction 1 as [|j l Hj _ IH]; simpl; [done|].
    destruct (h !! j) as [b|] eqn:Hb; simpl; [|lia].
    apply list_elem_of_lookup_2 in Hb. apply (proj1 (Forall_forall _ _) Hh) in Hb. lia. }
  destruct ns as [|j ns]; [done|]. apply Forall_cons in Hv as [Hj Hv]. simpl.
  destruct (lookup_lt_is_Some_2 _ _ Hj) as [b Hb]. rewrite Hb. simpl.
  apply list_elem_of_lookup_2 in Hb. apply (proj1 (Forall_forall _ _) Hh) in Hb.
  specialize (Hnn ns Hv). lia.
Qed.

(** Every object in the heap after [load] on a new instance is the
    cluster of an input point or a cluster that a pass built. *)
Lemma load_kinds user points this' :
  load rbush_search (supercluster user) points = Some this' ->
  Forall (fun c => is_leaf_of points c \/ is_aggregate c) (heap this').
Proof.
  intros H.
  assert (forall c, is_leaf_of points c \/ is_aggregate c -> (1 <= Cluster.numPoints c)%Z)
    as Hone.
  { intros c [Hc|(_ & Hc & _)]; [|lia]. apply is_leaf_of_numPoints in Hc as [-> _]. lia. }
  eapply (load_Forall (fun c => is_leaf_of points c \/ is_aggregate c)); [| | |exact H|by constructor].
  - intros c c' E [(p & Hp & Hc)|(Hpt & Hn & ns & Hch & Hne)].
    + left. exists p. split; [done|]. rewrite Hc. f_equal.
      unfold erase in *. destruct c, c'. simpl in *. by simplify_eq.
    + right. unfold is_aggregate.
      apply (f_equal Cluster.point) in E as Ep. simpl in Ep. rewrite Ep.
      rewrite (erase_numPoints _ _ E), (erase_children _ _ E). eauto.
  - intros p c Hp Hc. left. exists p. split; [done|]. rewrite Hc. f_equal.
    apply createPointCluster_leaf in Hc as (Hz & _). unfold erase. destruct c. simpl in *.
    by subst.
  - intros zoom h point ns Hh Hpt Hne Hnear. right. split; [done|]. split.
    + simpl. apply Hone in Hpt.
      assert (1 <= mass h ns)%Z; [|lia]. apply mass_positive; [|done|].
      * eapply Forall_impl; [exact Hh|]. apply Hone.
      * apply Forall_forall. intros j Hj. destruct (Hnear j Hj) as (b & Hb & _).
        by eapply lookup_lt_Some.
    + by exists ns.
Qed.

(** Every object with children in the heap after [load] on a new
    instance was built by a point from its neighbors in the pass at one
    of the zooms from [minZoom] to [maxZoom]. *)
Lemma load_aggregates user points this' :
  load rbush_search (supercluster user) points = Some this' ->
  forall c agg ns, heap this' !! c = Some agg -> Cluster.children agg = Some ns ->
    exists zoom i,
      (minZoom (options this') <= zoom <= maxZoom (options this'))%Z /\
      claimed_by (options this') zoom (heap this') agg i ns.
Proof.
  intros Hload. pose proof Hload as Hsome.
  apply load_Some_inv in Hsome as [Hz Hcoords].
  destruct (mapM_is_Some_2 createPointCluster points) as [leaves Hleaves].
  { eapply Forall_impl; [exact Hcoords|]. intros p. apply createPointCluster_is_Some. }
  destruct (load_new_invariant
    (fun z this _ =>
       forall c agg ns, heap this !! c = Some agg -> Cluster.children agg = Some ns ->
         exists zoom i, (z < zoom <= maxZoom (options this))%Z /\
           claimed_by (options this) zoom (heap this) agg i ns)
    user points leaves Hz Hleaves)
    as (this2 & cl2 & HL & _ & Ho2 & _ & Hload').
  - intros z this cl this1 this2 cl2 Hinv _ [_ Hzm] HL H1 H2 c agg ns Hc Hn.
    apply tree_load_Some in H1 as (_ & _ & Ho1 & Hh1 & _).
    pose proof (cluster_loop_frame _ _ _ _ _ _ H2) as (Ho2 & _ & Hle2).
    rewrite Ho2, Ho1.
    destruct (decide (c < length (heap this1))) as [Hlt|Hge].
    + destruct (heap_le_old _ _ _ _ Hle2 Hlt Hc) as (agg0 & Hc0 & E).
      rewrite Hh1 in Hc0. rewrite (erase_children _ _ E) in Hn.
      destruct (HL c agg0 ns Hc0 Hn) as (zoom & i & Hzoom & Hcl).
      rewrite <- Hh1 in Hc0, Hcl.
      destruct (claimed_by_later _ _ _ _ _ _ _ _ Hle2 Hc0 Hcl) as (agg' & Hc' & Hcl').
      rewrite Hc in Hc'. injection Hc' as <-.
      exists zoom, i. split; [lia|done].
    + destruct (pass_aggregates _ _ _ _ _ H2 c agg) as (_ & i & ns' & Hcl); [lia|done|].
      assert (ns' = ns) as ->.
      { destruct Hcl as [_ (Hch & _) _]. congruence. }
      exists z, i. split; [lia|]. by rewrite <- Ho1.
  - intros c agg ns Hc Hn. exfalso. simpl in Hc. apply mapM_Some_1 in Hleaves.
    destruct (Forall2_lookup_r _ _ _ _ _ Hleaves Hc) as (p & _ & Hp).
    apply createPointCluster_leaf in Hp as (_ & _ & Hch & _). congruence.
  - rewrite Hload in Hload'. injection Hload' as ->. simpl. rewrite Ho2.
    intros c agg ns Hc Hn. destruct (HL c agg ns Hc Hn) as (zoom & i & Hzoom & Hcl).
    rewrite Ho2 in Hzoom, Hcl. exists zoom, i. split; [lia|done].
Qed.

(** ** Running an iteration forwards *)

Lemma cluster_point_skip zoom i this clusters point :
  heap this !! i = Some point ->
  zoom_le (Cluster.zoom point) zoom = true ->
  cluster_point rbush_search zoom i this clusters = Some (this, clusters).
Proof. intros Hp Hz. unfold cluster_point. by rewrite Hp; simpl; rewrite Hz. Qed.

Lemma cluster_point_single zoom i this clusters point :
  heap this !! i = Some point ->
  zoom_le (Cluster.zoom point) zoom = false ->
  _getNeighbors rbush_search (assign_zoom i zoom this) i zoom = Some [] ->
  cluster_point rbush_search zoom i this clusters =
  Some (assign_zoom i zoom this, clusters ++ [i]).
Proof.
  intros Hp Hz Hns. unfold cluster_point.
  rewrite Hp; simpl; rewrite Hz, Hns. done.
Qed.

Lemma cluster_point_merge zoom i this clusters point ns :
  heap this !! i = Some point ->
  zoom_le (Cluster.zoom point) zoom = false ->
  _getNeighbors rbush_search (assign_zoom i zoom this) i zoom = Some ns ->
  ns <> [] ->
  cluster_point rbush_search zoom i this clusters =
  Some (claim zoom i point ns this, clusters ++ [length (heap this)]).
Proof.
  intros Hp Hz Hns Hne.
  assert (is_Some (cluster_point rbush_search zoom i this clusters)) as [[this' cl'] H].
  { unfold cluster_point. rewrite Hp; simpl; rewrite Hz, Hns. simpl.
    destruct ns as [|j ns]; [done|].
    apply getNeighbors_near in Hns as (p & _ & Hnear).
    destruct (absorb_is_Some zoom (j :: ns) (assign_zoom i zoom this)
      (Cluster.wx point * IZR (Cluster.numPoints point))
      (Cluster.wy point * IZR (Cluster.numPoints point))
      (Cluster.numPoints point)) as [[[[this2 wx] wy] n] Ha].
    { apply Forall_forall. intros k Hk. destruct (Hnear k Hk) as (b & Hb & _).
      by eapply lookup_lt_Some. }
    rewrite Ha. simpl. done. }
  rewrite H. f_equal.
  apply cluster_point_Step in H.
  destruct H as [point' Hp' Hz'|point' Hp' Hz' Hns'
                |point' ns' this' Hp' Hz' Hns' Hne' Hv Ho Ht Hh Hw];
    rewrite Hp in Hp'; injection Hp' as <-; [congruence| |].
  { rewrite Hns in Hns'. by injection Hns' as ->. }
  rewrite Hns in Hns'. injection Hns' as <-.
  f_equal. destruct this'. unfold claim. simpl in *. by subst.
Qed.

Lemma cluster_loop_cons zoom i points this clusters this1 clusters1 :
  cluster_point rbush_search zoom i this clusters = Some (this1, clusters1) ->
  cluster_loop rbush_search zoom (i :: points) this clusters =
  cluster_loop rbush_search zoom points this1 clusters1.
Proof. intros H. simpl. by rewrite H. Qed.

Lemma load_loop_S n z this clusters this1 this2 clusters2 :
  tree_load (z + 1) clusters this = Some this1 ->
  _cluster rbush_search this1 clusters z = Some (this2, clusters2) ->
  load_loop rbush_search (S n) z this clusters =
  load_loop rbush_search n (z - 1) this2 clusters2.
Proof. intros H1 H2. simpl. rewrite H1. simpl. by rewrite H2. Qed.

(** ** What [getClusters] returns *)

Lemma mapM_Permutation {A B} (f : A -> option B) (l l' : list A) (out : list B) :
  l ≡ₚ l' -> mapM f l = Some out ->
  exists out', mapM f l' = Some out' /\ out ≡ₚ out'.
Proof.
  intros Hp. revert out. induction Hp as [|x l l' Hp IH|x y l|l l' l'' _ IH1 _ IH2]; intros out H.
  - exists out. by split.
  - simpl in *. destruct (f x) as [b|]; simpl in *; [|done].
    destruct (mapM f l) as [k|]; simpl in *; [|done]. injection H as <-.
    destruct (IH k eq_refl) as (k' & -> & Hk). exists (b :: k'). split; [done|].
    by constructor.
  - simpl in *. destruct (f y) as [b|]; simpl in *; [|done].
    destruct (f x) as [a|]; simpl in *; [|done].
    destruct (mapM f l) as [k|]; simpl in *; [|done]. injection H as <-.
    exists (a :: b :: k). split; [done|]. constructor.
  - destruct (IH1 out H) as (out1 & H1 & Hp1).
    destruct (IH2 out1 H1) as (out2 & H2 & Hp2).
    exists out2. split; [done|]. by etrans.
Qed.

(** The call for an integer zoom, with the tree it searches. *)
Lemma getClusters_tier this bbox (zoom : Z) t :
  array_get (trees this)
    (Z.max (minZoom (options this)) (Z.min zoom (maxZoom (options this) + 1))) = Some t ->
  getClusters rbush_search this bbox (IZR zoom) =
  mapM (fun i => getCluster <$> heap this !! i)
    (rbush_search (heap this) t (projBBox bbox)).
Proof.
  intros Ht. unfold getClusters, projBBox. destruct bbox as [[[west south] east] north].
  by rewrite clamp_IZR, array_get_num_IZR, Ht.
Qed.

(** Every feature returned stands for an object of the tree searched
    whose point lies in the projected box. *)
Lemma getClusters_elem this bbox zoom out f :
  getClusters rbush_search this bbox zoom = Some out -> f ∈ out ->
  exists i c,
    heap this !! i = Some c /\ intersects (projBBox bbox) c /\ f = getCluster c.
Proof.
  unfold getClusters, projBBox. destruct bbox as [[[west south] east] north].
  intros H Hf.
  destruct (array_get_num _ _) as [t|] eqn:Ht; simpl in H; [|done].
  apply mapM_Some_1 in H.
  apply list_elem_of_lookup in Hf as [k Hf].
  destruct (Forall2_lookup_r _ _ _ _ _ H Hf) as (i & Hi & Hg).
  apply list_elem_of_lookup_2 in Hi. rewrite rbush_search_spec in Hi.
  apply list_elem_of_filter in Hi as [Hhit Hi]. unfold hit in Hhit.
  destruct (heap this !! i) as [c|] eqn:Hc; [|done]. simpl in Hg. injection Hg as <-.
  by exists i, c.
Qed.

Lemma intersects_erase a c c' : erase c' = erase c -> intersects a c -> intersects a c'.
Proof.
  intros E. destruct a as [[[? ?] ?] ?]. unfold intersects.
  by rewrite (erase_x _ _ E), (erase_y _ _ E).
Qed.

(** ** Further properties of the engine *)

(** X5.  [load] throws for every input, the empty array included, when
    [minZoom] is negative or above [maxZoom + 1]: the tree of the tier
    [minZoom], into which the last statement of [load] loads the
    top-level clusters, does not exist. *)
Theorem load_rejects_zoom_options user points :
  ~ valid_zooms (options (supercluster user)) ->
  load rbush_search (supercluster user) points = None.
Proof.
  intros Hz. destruct (load _ _ _) as [this'|] eqn:H; [|done].
  by apply load_Some_inv in H as [? _].
Qed.

Lemma square_le_bound (d e r : R) :
  (0 <= r -> d * d + e * e <= r * r -> - r <= d <= r)%R.
Proof.
  intros Hr Hd. pose proof (Rle_0_sqr e) as He. unfold Rsqr in He.
  split; apply Rnot_lt_le; intros H.
  - assert (0 < - d - r)%R as H1 by lra. assert (0 < - d + r)%R as H2 by lra.
    pose proof (Rmult_lt_0_compat _ _ H1 H2). nra.
  - assert (0 < d - r)%R as H1 by lra. assert (0 < d + r)%R as H2 by lra.
    pose proof (Rmult_lt_0_compat _ _ H1 H2). nra.
Qed.

Lemma near_hit h p zoom r j :
  (0 <= r)%R -> near h p zoom r j = true ->
  hit h (Cluster.x p - r, Cluster.y p - r, Cluster.x p + r, Cluster.y p + r)%R j.
Proof.
  intros Hr. unfold near, hit. destruct (h !! j) as [b|]; [|done].
  intros [_ Hd%bool_decide_eq_true]%andb_true_iff. unfold distSq in Hd.
  destruct (square_le_bound _ _ r Hr Hd).
  rewrite Rplus_comm in Hd. destruct (square_le_bound _ _ r Hr Hd).
  unfold intersects. repeat split; lra.
Qed.


Lemma cluster_loop_visited zoom zoom' points : forall this clusters this' clusters',
  cluster_loop rbush_search zoom points this clusters = Some (this', clusters') ->
  (zoom <= zoom')%Z ->
  Forall (fun j => exists c, heap this' !! j = Some c /\
                     zoom_le (Cluster.zoom c) zoom' = true) points.
Proof.
  induction points as [|i points IH]; intros this cl this' cl' H Hz; simpl in H.
  { constructor. }
  destruct (cluster_point rbush_search zoom i this cl) as [[this1 cl1]|] eqn:H1;
    simpl in H; [|done].
  constructor; [|by eapply IH].
  assert (exists c, heap this1 !! i = Some c /\ zoom_le (Cluster.zoom c) zoom = true)
    as (c & Hc & Hv).
  { apply cluster_point_Step in H1.
    destruct H1 as [point Hp Hv|point Hp Hv Hns
                   |point ns this1 Hp Hv Hns Hne Hval Ho Ht Hh Hw].
    - by exists point.
    - exists (Cluster.set_zoom (Level zoom) point).
      rewrite heap_assign_zoom, list_lookup_alter_eq, Hp. split; [done|].
      apply zoom_le_Level.
    - exists (Cluster.set_zoom (Level zoom) point).
      rewrite Hh, lookup_app_l by (rewrite mark_all_length; by eapply lookup_lt_Some).
      rewrite mark_all_lookup, Hp, decide_True by (by left). split; [done|].
      apply zoom_le_Level. }
  eapply (cluster_loop_invariant
    (fun this2 _ => exists c, heap this2 !! i = Some c /\
                      zoom_le (Cluster.zoom c) zoom' = true)); [| |exact H].
  - clear - Hz. intros k this2 cl2 this3 cl3 (c & Hc & Hv) HS.
    assert (exists ms new, heap this3 = mark_all zoom ms (heap this2) ++ new)
      as (ms & new & ->).
    { destruct HS as [| |point ns this3 Hp Hzp Hns Hne Hval Ho Ht Hh Hw].
      - exists [], []. by rewrite app_nil_r.
      - exists [k], []. by rewrite app_nil_r.
      - by exists (k :: ns), [aggregate point (heap this2) ns]. }
    rewrite lookup_app_l by (rewrite mark_all_length; by eapply lookup_lt_Some).
    rewrite mark_all_lookup, Hc. simpl. eexists. split; [done|].
    case_decide; [|done]. simpl. apply bool_decide_eq_true. lia.
  - exists c. split; [done|]. destruct (Cluster.zoom c) as [|a]; [done|]. simpl in *.
    apply bool_decide_eq_true in Hv. apply bool_decide_eq_true. lia.
Qed.

(** X7.  A pass visits a point at most once: after [_cluster] has
    run on [points] at [zoom], every one of them has a [zoom] of at
    most [zoom], so that running [_cluster] on them again, at that zoom
    or at a higher one, returns no cluster and changes nothing. *)
Theorem cluster_pass_idempotent this points zoom this' clusters zoom' :
  _cluster rbush_search this points zoom = Some (this', clusters) ->
  (zoom <= zoom')%Z ->
  _cluster rbush_search this' points zoom' = Some (this', []).
Proof.
  unfold _cluster. intros H Hz.
  pose proof (cluster_loop_visited _ _ _ _ _ _ _ H Hz) as Hv. clear H.
  generalize (@nil nat). induction Hv as [|i points (c & Hc & Hd) _ IH]; intros cl; [done|].
  simpl. rewrite (cluster_point_skip _ _ _ _ _ Hc Hd). simpl. apply IH.
Qed.

(** The tree that [getClusters] searches, on an instance that is new
    or that [load] returned. *)
Lemma instance_tier user points this (zoom : Z) :
  valid_zooms (options (supercluster user)) ->
  this = supercluster user \/ load rbush_search (supercluster user) points = Some this ->
  options this = options (supercluster user) /\
  exists t,
    array_get (trees this)
      (Z.max (minZoom (options this)) (Z.min zoom (maxZoom (options this) + 1))) = Some t.
Proof.
  intros Hz Hthis.
  assert (options this = options (supercluster user) /\
          length (trees this) = Z.to_nat (maxZoom (options this) + 2)) as [Ho Hl].
  { destruct Hthis as [->|H].
    - split; [done|]. unfold supercluster, _initTrees. cbn [trees options].
      by rewrite length_replicate.
    - apply load_frame in H as [Ho Hl]. split; [done|].
      rewrite Hl, Ho. unfold supercluster, _initTrees. cbn [trees options].
      by rewrite length_replicate. }
  split; [done|].
  unfold valid_zooms in Hz. rewrite <- Ho in Hz.
  set (z := Z.max _ _).
  assert (Z.to_nat z < length (trees this)) as Hidx by lia.
  destruct (lookup_lt_is_Some_2 _ _ Hidx) as [t Ht].
  exists t. apply array_get_Some. split; [lia|done].
Qed.

Lemma filter_none {A} (P : A -> Prop) `{!forall x, Decision (P x)} (l : list A) :
  (forall x, x ∈ l -> ~ P x) -> filter P l = [].
Proof.
  induction l as [|a l IH]; intros Hno; [done|].
  rewrite filter_cons_False by (apply Hno; by left). apply IH. intros x Hx. apply Hno. by right.
Qed.

Lemma search_nil h a : rbush_search h [] a = [].
Proof. apply Permutation_nil_r. by rewrite rbush_search_spec. Qed.

Lemma load_nil_trees user this :
  load rbush_search (supercluster user) [] = Some this ->
  forall k t, array_get (trees this) k = Some t -> t = [].
Proof.
  intros Hload. pose proof Hload as Hsome.
  apply load_Some_inv in Hsome as [Hz _].
  destruct (load_new_invariant
    (fun _ this cl => cl = [] /\ forall k t, array_get (trees this) k = Some t -> t = [])
    user [] [] Hz eq_refl)
    as (this2 & cl2 & [-> HL] & _ & Ho2 & _ & Hload').
  - intros z this1 cl this2 this3 cl3 Hinv Hz0 _ [-> HL] H1 H2.
    destruct (load_inv_ready _ _ _ _ _ Hinv H1) as (_ & _ & Hnew & Hold & _).
    unfold _cluster in H2. simpl in H2. injection H2 as <- <-. split; [done|].
    intros k t Hk. destruct (decide (k = z + 1)%Z) as [->|Hne].
    + rewrite Hnew in Hk. by injection Hk.
    + rewrite Hold in Hk by done. by eapply HL.
  - split; [done|]. intros k t Hk. by apply lookup_new_trees in Hk.
  - rewrite Hload in Hload'. injection Hload' as ->.
    intros k t Hk. unfold with_trees in Hk. cbn [trees] in Hk.
    apply array_get_Some in Hk as [Hk0 Hk].
    destruct (decide (Z.to_nat k = Z.to_nat (minZoom (options (supercluster user)))))
      as [Heq|Hne].
    + rewrite Heq in Hk. apply list_lookup_insert_Some in Hk as [(_ & ? & _)|[? _]]; done.
    + rewrite list_lookup_insert_ne in Hk by done.
      eapply (HL k). apply array_get_Some. by split.
Qed.

(** X8.  Before any [load], and after a [load] of no points,
    [getClusters] returns the empty array for every box and every
    integer zoom. *)
Theorem getClusters_empty_instance user this bbox (zoom : Z) :
  valid_zooms (options (supercluster user)) ->
  this = supercluster user \/ load rbush_search (supercluster user) [] = Some this ->
  getClusters rbush_search this bbox (IZR zoom) = Some [].
Proof.
  intros Hz Hthis.
  destruct (instance_tier user [] this zoom Hz Hthis) as (_ & t & Ht).
  rewrite (getClusters_tier _ _ _ _ Ht).
  assert (t = []) as ->.
  { destruct Hthis as [->|H].
    - by apply lookup_new_trees in Ht.
    - by eapply load_nil_trees. }
  by rewrite search_nil.
Qed.

(** X9.  [getClusters] compares the position of an object with the
    projected edges of the box as they are, with no wrapping: when
    [lngX east] is below [lngX west], as for the box of a map view
    across the antimeridian, or [latY south] is below [latY north],
    no object matches and [getClusters] returns the empty array. *)
Theorem getClusters_inverted_box_empty user points this west south east north (zoom : Z) :
  valid_zooms (options (supercluster user)) ->
  this = supercluster user \/ load rbush_search (supercluster user) points = Some this ->
  (Projector.lngX east < Projector.lngX west \/
   Projector.latY south < Projector.latY north)%R ->
  getClusters rbush_search this (west, south, east, north) (IZR zoom) = Some [].
Proof.
  intros Hz Hthis Hbox.
  destruct (instance_tier user points this zoom Hz Hthis) as (_ & t & Ht).
  rewrite (getClusters_tier _ _ _ _ Ht).
  assert (rbush_search (heap this) t (projBBox (west, south, east, north)) = []) as ->; [|done].
  apply Permutation_nil_r. rewrite rbush_search_spec.
  rewrite filter_none; [done|].
  intros i _. unfold hit, projBBox. destruct (heap this !! i) as [c|]; [|tauto].
  unfold intersects. intros (H1 & H2 & H3 & H4). destruct Hbox; lra.
Qed.

(** The clusters of the points, searched in their order, give the
    points in the box. *)
Lemma leaves_hits a points : forall leaves h,
  Forall2 (fun p c => createPointCluster p = Some c) points leaves ->
  heap_le leaves h ->
  Forall2 (fun i f => getCluster <$> h !! i = Some f)
    (filter (hit h a) (seq 0 (length points)))
    (Original <$> filter (feature_hit a) points).
Proof.
  induction points as [|p points IH] using rev_ind; intros leaves h HF Hle.
  { constructor. }
  apply Forall2_app_inv_l in HF as (lv & lc & HF1 & HF2 & ->).
  apply Forall2_cons_inv_l in HF2 as (c & lc' & Hpc & HF2 & ->).
  apply Forall2_nil_inv_l in HF2 as ->.
  rewrite length_app. simpl. rewrite seq_app. simpl.
  rewrite !filter_app, fmap_app. apply Forall2_app.
  { apply (IH lv); [done|]. intros i ci Hi. apply Hle. by apply lookup_app_l_Some. }
  assert (length points = length lv) as Hlen by (by eapply Forall2_length).
  destruct (Hle (length points) c) as (c' & Hc' & E).
  { rewrite Hlen, lookup_app_r, Nat.sub_diag by done. done. }
  assert (feature_hit a p <-> hit h a (length points)) as Hiff.
  { unfold feature_hit, hit. rewrite Hpc, Hc'.
    split; apply intersects_erase; done. }
  destruct (decide (feature_hit a p)) as [Hp|Hp].
  - rewrite (filter_cons_True (feature_hit a)) by done.
    rewrite filter_cons_True by (by apply Hiff).
    constructor; [|constructor]. rewrite Hc'. simpl. f_equal. unfold getCluster.
    apply createPointCluster_leaf in Hpc as (_ & _ & _ & Hpt & _).
    apply (f_equal Cluster.point) in E. simpl in E. by rewrite E, Hpt.
  - rewrite (filter_cons_False (feature_hit a)) by done.
    rewrite filter_cons_False by (by rewrite <- Hiff).
    constructor.
Qed.

(** X10.  At the zoom [maxZoom + 1], and at every integer zoom above
    it, [getClusters] returns the input features themselves: exactly
    those whose projected point lies in the projected box, each as
    often as it was given. *)
Theorem getClusters_top_tier_returns_points user points :
  valid_zooms (options (supercluster user)) ->
  Forall has_coordinates points ->
  exists this',
    load rbush_search (supercluster user) points = Some this' /\
    forall bbox (zoom : Z), (maxZoom (options this') + 1 <= zoom)%Z ->
      exists out,
        getClusters rbush_search this' bbox (IZR zoom) = Some out /\
        out ≡ₚ Original <$> filter (feature_hit (projBBox bbox)) points.
Proof.
  intros Hz Hc.
  destruct (load_tiers user points Hz Hc) as (this' & leaves & Hload & Hleaves & Ho & Hle & Htop & _).
  exists this'. split; [done|]. intros bbox zoom Hzoom.
  unfold valid_zooms in Hz. rewrite <- Ho in Hz.
  rewrite (getClusters_tier _ _ _ (seq 0 (length points))).
  2:{ by replace (Z.max _ _) with (maxZoom (options this') + 1)%Z by lia. }
  pose proof (leaves_hits (projBBox bbox) points leaves (heap this')
                (mapM_Some_1 _ _ _ Hleaves) Hle) as HF.
  apply mapM_Some_2 in HF.
  destruct (mapM_Permutation _ _ _ _ (symmetry (rbush_search_spec (heap this')
              (seq 0 (length points)) (projBBox bbox))) HF) as (out & Hout & Hperm).
  exists out. split; [done|]. by symmetry.
Qed.

(** X11.  After [load], every feature that [getClusters] returns is
    an input feature whose projected point lies in the projected box,
    or a cluster feature for two points or more; and [getClusters]
    returns for every integer zoom. *)
Theorem getClusters_returns_points_or_clusters user points :
  valid_zooms (options (supercluster user)) ->
  Forall has_coordinates points ->
  exists this',
    load rbush_search (supercluster user) points = Some this' /\
    (forall bbox (zoom : Z), is_Some (getClusters rbush_search this' bbox (IZR zoom))) /\
    forall bbox zoom out,
      getClusters rbush_search this' bbox zoom = Some out ->
      Forall (fun f =>
        (exists p, f = Original p /\ p ∈ points /\ feature_hit (projBBox bbox) p) \/
        (exists n lnglat, f = ClusterFeature n lnglat /\ (2 <= n)%Z)) out.
Proof.
  intros Hz Hc.
  destruct (load_new user points Hz Hc) as (this' & leaves & Hload & _).
  exists this'. split; [done|]. split.
  { intros bbox zoom.
    destruct (instance_tier user points this' zoom Hz (or_intror Hload)) as (_ & t & Ht).
    rewrite (getClusters_tier _ _ _ _ Ht). apply hits_get. }
  intros bbox zoom out Hout. apply Forall_forall. intros f Hf.
  destruct (getClusters_elem _ _ _ _ _ Hout Hf) as (i & c & Hi & Hhit & ->).
  pose proof (load_kinds user points this' Hload) as Hk.
  apply list_elem_of_lookup_2 in Hi. apply (proj1 (Forall_forall _ _) Hk) in Hi.
  destruct Hi as [(p & Hp & Hpc)|(Hpt & Hn & _)].
  - left. exists p. unfold getCluster, feature_hit. rewrite Hpc.
    apply createPointCluster_leaf in Hpc as (_ & _ & _ & Hpt & _). simpl in Hpt.
    rewrite Hpt. split; [done|]. split; [done|]. by apply (intersects_erase _ c).
  - right. unfold getCluster. rewrite Hpt. eauto.
Qed.

Lemma total_points_mass points h l out :
  Forall (fun c => is_leaf_of points c \/ is_aggregate c) h ->
  mapM (fun i => getCluster <$> h !! i) l = Some out ->
  total_points out = mass h l.
Proof.
  intros Hk H. apply mapM_Some_1 in H.
  induction H as [|i f l out Hi _ IH]; [done|]. simpl. rewrite IH. f_equal.
  destruct (h !! i) as [c|] eqn:Hc; simpl in *; [|done]. injection Hi as <-.
  apply list_elem_of_lookup_2 in Hc. apply (proj1 (Forall_forall _ _) Hk) in Hc.
  unfold getCluster. destruct Hc as [Hc|(-> & _)]; [|done].
  apply is_leaf_of_numPoints in Hc as (-> & _ & p & _ & ->). done.
Qed.

Lemma world_box :
  projBBox (-180, -90, 180, 90)%R = (0, 0, 1, 1)%R.
Proof.
  pose proof mercator_limit_range as HM. unfold projBBox.
  rewrite (latY_north_of_limit 90), (latY_south_of_limit (-90)) by lra.
  unfold Projector.lngX. repeat f_equal; lra.
Qed.

(** X12.  When every longitude given lies in [[-180, 180]], the
    features that [getClusters] returns for the box of the whole world
    stand for every input point once: at every integer zoom their
    point counts, one for an input feature and [numPoints] for a
    cluster feature, sum to the number of points loaded. *)
Theorem getClusters_world_counts_every_point user points :
  valid_zooms (options (supercluster user)) ->
  Forall valid_coordinates points ->
  exists this',
    load rbush_search (supercluster user) points = Some this' /\
    forall zoom : Z,
      exists out,
        getClusters rbush_search this' (-180, -90, 180, 90)%R (IZR zoom) = Some out /\
        total_points out = Z.of_nat (length points).
Proof.
  intros Hz Hv.
  assert (Forall has_coordinates points) as Hc
    by (eapply Forall_impl; [exact Hv|]; apply valid_coordinates_has).
  destruct (load_new user points Hz Hc) as (this' & leaves & Hload & _ & Ho & _ & Htiers & _).
  exists this'. split; [done|]. intros zoom.
  unfold valid_zooms in Hz. rewrite <- Ho in Hz.
  destruct (Htiers (Z.max (minZoom (options this'))
                      (Z.min zoom (maxZoom (options this') + 1)))) as (t & Ht & Hm & Hval);
    [lia|].
  rewrite (getClusters_tier _ _ _ _ Ht), world_box.
  destruct (hits_get this' t (0, 0, 1, 1)%R) as [out Hout].
  exists out. split; [done|].
  rewrite (total_points_mass points _ _ _ (load_kinds user points this' Hload) Hout).
  rewrite <- Hm. apply mass_Permutation. rewrite rbush_search_spec.
  rewrite filter_Forall; [done|].
  assert (Forall sound_cluster (heap this')) as Hs
    by (eapply load_sound; [exact Hload|done|constructor]).
  apply Forall_forall. intros j Hj.
  apply (proj1 (Forall_forall _ _) Hval) in Hj.
  destruct (lookup_lt_is_Some_2 _ _ Hj) as [c Hcj]. unfold hit. rewrite Hcj.
  apply list_elem_of_lookup_2 in Hcj. apply (proj1 (Forall_forall _ _) Hs) in Hcj.
  destruct Hcj as [(Hx & Hy & _) _]. unfold intersects. lra.
Qed.

(** X13.  The tiers that [load] builds: the tier [maxZoom + 1] holds
    the clusters of the input points, in their order, and for every
    zoom [z] from [minZoom] to [maxZoom] the tier [z] is what the pass
    at [z] makes of the tier [z + 1]: it lists no node twice and is
    not longer; each of its nodes is a node of the tier [z + 1], or a
    new cluster that a node of the tier [z + 1] built from other nodes
    of that tier within the radius at [z]; and every node of the tier
    [z + 1] is kept in the tier [z], or is the builder or a child of
    such a cluster.  The extent is not zero, so that the radius is
    the quotient the source computes. *)
Theorem tiers_refine user points :
  extent (options (supercluster user)) <> 0%R ->
  valid_zooms (options (supercluster user)) ->
  Forall has_coordinates points ->
  exists this',
    load rbush_search (supercluster user) points = Some this' /\
    array_get (trees this') (maxZoom (options this') + 1) = Some (seq 0 (length points)) /\
    forall z, (minZoom (options this') <= z <= maxZoom (options this'))%Z ->
      exists upper lower,
        array_get (trees this') (z + 1) = Some upper /\
        array_get (trees this') z = Some lower /\
        tier_below (options this') z (heap this') upper lower.
Proof.
  intros _ Hz Hc.
  destruct (load_tiers user points Hz Hc) as (this' & leaves & Hload & _ & _ & _ & Htop & Ht).
  exists this'. split; [done|]. split; [done|]. exact Ht.
Qed.

(** X14.  Every tier from [minZoom] to [maxZoom + 1] holds at most as
    many nodes as points were loaded, and at least one if a point was
    loaded. *)
Theorem tier_sizes user points :
  valid_zooms (options (supercluster user)) ->
  Forall has_coordinates points ->
  exists this',
    load rbush_search (supercluster user) points = Some this' /\
    forall z, (minZoom (options this') <= z <= maxZoom (options this') + 1)%Z ->
      exists t,
        array_get (trees this') z = Some t /\
        length t <= length points /\
        (points <> [] -> t <> []).
Proof.
  intros Hz Hc.
  destruct (load_tiers user points Hz Hc) as (this' & leaves & Hload & _ & _ & _ & Htop & Ht).
  destruct (load_new user points Hz Hc) as (this2 & _ & Hload2 & _ & _ & _ & Hmass & _).
  rewrite Hload in Hload2. injection Hload2 as <-.
  exists this'. split; [done|].
  assert (forall k : nat, forall z,
    z = (maxZoom (options this') + 1 - Z.of_nat k)%Z -> (minZoom (options this') <= z)%Z ->
    exists t, array_get (trees this') z = Some t /\ length t <= length points) as Hlen.
  { induction k as [|k IH]; intros z -> Hmin.
    - exists (seq 0 (length points)). rewrite Z.sub_0_r. split; [done|]. by rewrite length_seq.
    - destruct (IH (maxZoom (options this') + 1 - Z.of_nat k)%Z) as (u & Hu & Hul); [done|lia|].
      destruct (Ht (maxZoom (options this') + 1 - Z.of_nat (S k))%Z)
        as (upper & lower & Hup & Hlo & [_ Hle _ _]); [lia|].
      replace (maxZoom (options this') + 1 - Z.of_nat (S k) + 1)%Z
        with (maxZoom (options this') + 1 - Z.of_nat k)%Z in Hup by lia.
      rewrite Hu in Hup. injection Hup as <-. exists lower. split; [done|lia]. }
  intros z Hzr.
  destruct (Hlen (Z.to_nat (maxZoom (options this') + 1 - z)) z) as (t & Hget & Hl); [lia|lia|].
  exists t. split; [done|]. split; [done|].
  destruct (Hmass z Hzr) as (t' & Hget' & Hm & _).
  rewrite Hget in Hget'. injection Hget' as <-.
  intros Hne ->. simpl in Hm. destruct points; [done|]. simpl in Hm. lia.
Qed.

(** X15.  The [children] arrays of the objects that [load] leaves in
    the heap form a forest: the children of a cluster were allocated
    before it, no child is listed twice, and no object is a child of
    two clusters. *)
Theorem children_form_forest user points this' :
  load rbush_search (supercluster user) points = Some this' ->
  forest (heap this').
Proof.
  intros Hload. pose proof Hload as Hsome.
  apply load_Some_inv in Hsome as [Hz Hcoords].
  destruct (mapM_is_Some_2 createPointCluster points) as [leaves Hleaves].
  { eapply Forall_impl; [exact Hcoords|]. intros p. apply createPointCluster_is_Some. }
  destruct (load_new_invariant (fun _ => forest_inv) user points leaves Hz Hleaves)
    as (this2 & cl2 & [Hf _] & _ & _ & _ & Hload').
  - intros z this cl this1 this2 cl2 Hinv _ _ [Hf Hcur] H1 H2.
    destruct (load_inv_ready _ _ _ _ _ Hinv H1) as (_ & Hh1 & _ & _ & Hready).
    eapply pass_forest; [exact Hready| |exact H2]. rewrite <- Hh1 in Hf, Hcur. by split.
  - assert (forall c agg ns, leaves !! c = Some agg -> Cluster.children agg = Some ns -> False)
      as Hnone.
    { intros c agg ns Hc Hn. apply mapM_Some_1 in Hleaves.
      destruct (Forall2_lookup_r _ _ _ _ _ Hleaves Hc) as (p & _ & Hp).
      apply createPointCluster_leaf in Hp as (_ & _ & Hch & _). congruence. }
    split; [split|]; simpl.
    + intros c agg ns Hc Hn. exfalso. by eapply Hnone.
    + intros c c' agg agg' ns ns' j Hc Hn. exfalso. by eapply Hnone.
    + intros c agg ns j Hc Hn. exfalso. by eapply Hnone.
  - rewrite Hload in Hload'. by injection Hload' as ->.
Qed.

Lemma distSq_zero (a b : Cluster.t) :
  (distSq a b <= 0 -> Cluster.x b = Cluster.x a /\ Cluster.y b = Cluster.y a)%R.
Proof.
  unfold distSq. intros H.
  pose proof (Rle_0_sqr (Cluster.x a - Cluster.x b)) as H1.
  pose proof (Rle_0_sqr (Cluster.y a - Cluster.y b)) as H2. unfold Rsqr in *.
  assert ((Cluster.x a - Cluster.x b) * (Cluster.x a - Cluster.x b) = 0)%R as Hx by lra.
  assert ((Cluster.y a - Cluster.y b) * (Cluster.y a - Cluster.y b) = 0)%R as Hy by lra.
  apply Rmult_integral in Hx. apply Rmult_integral in Hy. lra.
Qed.

(** X16.  With a radius of zero and an extent that is not zero, for
    which the source computes the radius [0] at every zoom, only
    objects at exactly the same projected position are merged: every
    child of a cluster lies at the position of the cluster. *)
Theorem radius_zero_merges_coincident user points :
  radius (options (supercluster user)) = 0%R ->
  extent (options (supercluster user)) <> 0%R ->
  valid_zooms (options (supercluster user)) ->
  Forall has_coordinates points ->
  exists this',
    load rbush_search (supercluster user) points = Some this' /\
    forall c agg ns j,
      heap this' !! c = Some agg -> Cluster.children agg = Some ns -> j ∈ ns ->
      exists b, heap this' !! j = Some b /\
        Cluster.x b = Cluster.x agg /\ Cluster.y b = Cluster.y agg.
Proof.
  intros Hr _ Hz Hcoords.
  destruct (load_new user points Hz Hcoords) as (this' & _ & Hload & _).
  exists this'. split; [done|]. intros c agg ns j Hc Hn Hj.
  assert (forall o zoom, radius o = 0%R -> (search_radius o zoom * search_radius o zoom = 0)%R)
    as Hzero.
  { intros o zoom Ho. unfold search_radius. rewrite Ho. unfold Rdiv. lra. }
  destruct (load_aggregates user points this' Hload c agg ns Hc Hn)
    as (zoom & i & _ & [_ _ Hnear]).
  destruct (Hnear j Hj) as (b & Hb & Hd). exists b. split; [done|].
  rewrite Hzero in Hd; [by apply distSq_zero|].
  apply load_frame in Hload as [-> _]. done.
Qed.

Lemma wsum_unit (f : Cluster.t -> R) h ns :
  (forall j, j ∈ ns -> exists b, h !! j = Some b /\ Cluster.numPoints b = 1%Z) ->
  wsum f h ns = sum_of f h ns /\ mass h ns = Z.of_nat (length ns).
Proof.
  induction ns as [|j ns IH]; intros H; [done|].
  destruct IH as [IH1 IH2]; [intros k Hk; apply H; by right|].
  destruct (H j) as (b & Hb & Hn); [by left|].
  cbn [wsum sum_of mass foldr length]. fold (sum_of f h ns).
  rewrite IH1, IH2, Hb. simpl. rewrite Hn. split; [lra|lia].
Qed.

(** X17.  In the tier [maxZoom], which the first pass builds from the
    clusters of the input points, the weighted center of every cluster
    is the mean of the projected positions of the points it stands
    for, its builder and its children, and its [numPoints] is their
    number. *)
Theorem first_pass_center_is_mean user points :
  valid_zooms (options (supercluster user)) ->
  (minZoom (options (supercluster user)) <= maxZoom (options (supercluster user)))%Z ->
  Forall has_coordinates points ->
  exists this' lower,
    load rbush_search (supercluster user) points = Some this' /\
    array_get (trees this') (maxZoom (options this')) = Some lower /\
    forall c, c ∈ lower -> length points <= c ->
      exists agg i ns,
        heap this' !! c = Some agg /\
        Cluster.children agg = Some ns /\
        i < length points /\ Forall (fun j => j < length points) ns /\
        Cluster.numPoints agg = Z.of_nat (length (i :: ns)) /\
        Cluster.wx agg =
          (sum_of Cluster.x (heap this') (i :: ns) / IZR (Z.of_nat (length (i :: ns))))%R /\
        Cluster.wy agg =
          (sum_of Cluster.y (heap this') (i :: ns) / IZR (Z.of_nat (length (i :: ns))))%R.
Proof.
  intros Hz Hpass Hc.
  destruct (load_tiers user points Hz Hc)
    as (this' & leaves & Hload & Hleaves & Ho & Hle & Htop & Ht).
  rewrite <- Ho in Hpass.
  destruct (Ht (maxZoom (options this'))) as (upper & lower & Hup & Hlo & [_ _ Hnode _]);
    [unfold valid_zooms in Hz; rewrite <- Ho in Hz; lia|].
  rewrite Htop in Hup. injection Hup as <-.
  exists this', lower. split; [done|]. split; [done|]. intros c Hcl Hge.
  destruct (Hnode c Hcl) as [Hin|(_ & agg & i & ns & Hagg & [(pt & Hpt & E) (Hch & _) _] & Hi & Hns)].
  { apply elem_of_seq in Hin. lia. }
  assert (forall j, j ∈ seq 0 (length points) ->
    exists b, heap this' !! j = Some b /\ Cluster.numPoints b = 1%Z /\
      Cluster.wx b = Cluster.x b /\ Cluster.wy b = Cluster.y b) as Hleaf.
  { intros j Hj. apply elem_of_seq in Hj.
    assert (length leaves = length points) as Hlen.
    { symmetry. eapply Forall2_length. by apply mapM_Some_1. }
    destruct (lookup_lt_is_Some_2 leaves j) as [l Hl]; [lia|].
    destruct (Hle _ _ Hl) as (b & Hb & Eb). exists b. split; [done|].
    apply mapM_Some_1 in Hleaves.
    destruct (Forall2_lookup_r _ _ _ _ _ Hleaves Hl) as (p & _ & Hp).
    apply createPointCluster_leaf in Hp as (_ & Hn & _ & _ & Hwx & Hwy & _).
    by rewrite (erase_numPoints _ _ Eb), (erase_wx _ _ Eb), (erase_wy _ _ Eb),
      (erase_x _ _ Eb), (erase_y _ _ Eb). }
  destruct (Hleaf i Hi) as (pt' & Hpt' & Hn & Hwx & Hwy).
  rewrite Hpt in Hpt'. injection Hpt' as <-.
  assert (forall j, j ∈ ns ->
            exists b, heap this' !! j = Some b /\ Cluster.numPoints b = 1%Z) as Hunit.
  { intros j Hj. destruct (Hleaf j (Hns j Hj)) as (b & Hb & Hbn & _). eauto. }
  destruct (wsum_unit Cluster.x _ _ Hunit) as [Hsx Hm].
  destruct (wsum_unit Cluster.y _ _ Hunit) as [Hsy _].
  exists agg, i, ns. split; [done|]. split; [done|].
  split; [apply elem_of_seq in Hi; lia|].
  split; [apply Forall_forall; intros j Hj; apply Hns, elem_of_seq in Hj; lia|].
  rewrite (erase_numPoints _ _ E), (erase_wx _ _ E), (erase_wy _ _ E).
  cbn [aggregate Cluster.numPoints Cluster.wx Cluster.wy sum_of foldr length].
  fold (sum_of Cluster.x (heap this') ns). fold (sum_of Cluster.y (heap this') ns).
  rewrite Hsx, Hsy, Hm, Hn, Hpt, Hwx, Hwy. simpl from_option.
  replace (Z.of_nat (S (length ns))) with (1 + Z.of_nat (length ns))%Z by lia.
  split; [done|]. split; f_equal; lra.
Qed.

(** X18.  When every longitude given lies in [[-180, 180]], every
    cluster feature that [getClusters] returns has coordinates in
    range: a longitude in [[-180, 180]] and a latitude within the
    Mercator limit, hence strictly between the poles. *)
Theorem cluster_features_in_range user points :
  valid_zooms (options (supercluster user)) ->
  Forall valid_coordinates points ->
  exists this',
    load rbush_search (supercluster user) points = Some this' /\
    forall bbox zoom out n lng lat,
      getClusters rbush_search this' bbox zoom = Some out ->
      ClusterFeature n (lng, lat) ∈ out ->
      (-180 <= lng <= 180 /\ - mercator_limit <= lat <= mercator_limit /\
       -90 < lat < 90)%R.
Proof.
  intros Hz Hv.
  assert (Forall has_coordinates points) as Hc
    by (eapply Forall_impl; [exact Hv|]; apply valid_coordinates_has).
  destruct (load_new user points Hz Hc) as (this' & leaves & Hload & _).
  exists this'. split; [done|]. intros bbox zoom out n lng lat Hout Hf.
  destruct (getClusters_elem _ _ _ _ _ Hout Hf) as (i & c & Hi & _ & Hg).
  assert (Forall sound_cluster (heap this')) as Hs
    by (eapply load_sound; [exact Hload|done|constructor]).
  apply list_elem_of_lookup_2 in Hi. apply (proj1 (Forall_forall _ _) Hs) in Hi.
  destruct Hi as [(_ & _ & Hwx & Hwy) _].
  unfold getCluster in Hg. destruct (Cluster.point c); [done|].
  injection Hg as -> -> ->.
  pose proof (yLat_unit_interval _ Hwy). pose proof mercator_limit_range.
  unfold Projector.xLng. repeat split; lra.
Qed.

(** X19.  A larger box returns no less: when the box [[w', s', e',
    n']] contains the box [[w, s, e, n]], with latitudes between the
    poles, every feature that [getClusters] returns for the smaller
    box at an integer zoom is among those it returns for the larger
    one. *)
Theorem getClusters_monotone_in_box user points w s e n w' s' e' n' :
  valid_zooms (options (supercluster user)) ->
  Forall has_coordinates points ->
  (w' <= w)%R -> (e <= e')%R ->
  (-90 <= s')%R -> (s' <= s)%R -> (s <= 90)%R ->
  (-90 <= n)%R -> (n <= n')%R -> (n' <= 90)%R ->
  exists this',
    load rbush_search (supercluster user) points = Some this' /\
    forall zoom : Z,
      exists out out',
        getClusters rbush_search this' (w, s, e, n) (IZR zoom) = Some out /\
        getClusters rbush_search this' (w', s', e', n') (IZR zoom) = Some out' /\
        forall f, f ∈ out -> f ∈ out'.
Proof.
  intros Hz Hc Hw He Hs1 Hs2 Hs3 Hn1 Hn2 Hn3.
  destruct (load_new user points Hz Hc) as (this' & leaves & Hload & _).
  exists this'. split; [done|]. intros zoom.
  destruct (instance_tier user points this' zoom Hz (or_intror Hload)) as (_ & t & Ht).
  rewrite !(getClusters_tier _ _ _ _ Ht).
  destruct (hits_get this' t (projBBox (w, s, e, n))) as [out Hout].
  destruct (hits_get this' t (projBBox (w', s', e', n'))) as [out' Hout'].
  exists out, out'. split; [done|]. split; [done|]. intros f Hf.
  apply mapM_Some_1 in Hout. apply mapM_Some_1 in Hout'.
  apply list_elem_of_lookup in Hf as [k Hf].
  destruct (Forall2_lookup_r _ _ _ _ _ Hout Hf) as (i & Hi & Hg).
  apply list_elem_of_lookup_2 in Hi. rewrite rbush_search_spec in Hi.
  apply list_elem_of_filter in Hi as [Hhit Hi].
  assert (i ∈ rbush_search (heap this') t (projBBox (w', s', e', n'))) as Hi'.
  { rewrite rbush_search_spec. apply list_elem_of_filter. split; [|done].
    unfold hit in *. destruct (heap this' !! i) as [c|]; [|done].
    pose proof (latY_order n n' Hn1 Hn2 Hn3).
    pose proof (latY_order s' s Hs1 Hs2 Hs3).
    unfold projBBox, intersects, Projector.lngX in *. lra. }
  apply list_elem_of_lookup in Hi' as [k' Hi'].
  destruct (Forall2_lookup_l _ _ _ _ _ Hout' Hi') as (f' & Hf' & Hg').
  rewrite Hg in Hg'. injection Hg' as <-. by eapply list_elem_of_lookup_2.
Qed.

(** X20.  Every object that [load] leaves in the heap, the cluster of
    a point or a cluster built by a pass, is anchored at the projected
    position of one of the input points: a cluster that a pass builds
    takes the position of its builder. *)
Theorem clusters_anchored_at_points user points :
  valid_zooms (options (supercluster user)) ->
  Forall has_coordinates points ->
  exists this',
    load rbush_search (supercluster user) points = Some this' /\
    Forall (fun c =>
      exists p g lng lat,
        p ∈ points /\ geometry p = Some g /\ coordinates g = Some (lng, lat) /\
        Cluster.x c = Projector.lngX lng /\ Cluster.y c = Projector.latY lat)
      (heap this').
Proof.
  intros Hz Hc.
  destruct (load_new user points Hz Hc) as (this' & _ & Hload & _).
  exists this'. split; [done|].
  eapply (load_Forall _ (supercluster user) points); [| | |exact Hload|by constructor].
  - intros c c' E (p & g & lng & lat & Hp & Hg & Hl & Hx & Hy).
    exists p, g, lng, lat. by rewrite (erase_x _ _ E), (erase_y _ _ E).
  - intros p c Hp Hpc.
    apply createPointCluster_leaf in Hpc as (_ & _ & _ & _ & _ & _ & g & lng & lat & Hg & Hl & Hx & Hy).
    by exists p, g, lng, lat.
  - intros zoom h point ns _ Hpt _ _. exact Hpt.
Qed.

(** X21.  [_cluster] on points that are objects of the heap returns
    when the tree of the tier [zoom + 1] exists.  When that tree does
    not exist, it throws as soon as it reaches a point that it has not
    visited at [zoom]. *)
Theorem cluster_returns_or_throws this points zoom :
  Forall (fun j => j < length (heap this)) points ->
  (is_Some (array_get (trees this) (zoom + 1)) ->
   is_Some (_cluster rbush_search this points zoom)) /\
  (array_get (trees this) (zoom + 1) = None ->
   Exists (live (heap this) zoom) points ->
   _cluster rbush_search this points zoom = None).
Proof.
  intros Hv. unfold _cluster. generalize (@nil nat) as cl. split.
  - intros Ht. revert this cl Hv Ht.
    induction points as [|i points IH]; intros this cl Hv Ht; [by eexists|].
    apply Forall_cons in Hv as [Hi Hv].
    destruct (cluster_point_is_Some zoom i this cl Hi Ht) as [[this1 cl1] H1].
    simpl. rewrite H1. simpl.
    apply cluster_point_Step, Step_frame in H1 as (_ & Ht1 & Hle%heap_le_length).
    apply IH; [|by rewrite Ht1].
    eapply Forall_impl; [exact Hv|]. simpl. intros; lia.
  - intros Ht Hex. revert cl.
    induction points as [|i points IH]; intros cl; [by apply Exists_nil in Hex|].
    apply Forall_cons in Hv as [Hi Hv].
    destruct (lookup_lt_is_Some_2 _ _ Hi) as [point Hp].
    simpl. destruct (zoom_le (Cluster.zoom point) zoom) eqn:Hz.
    + rewrite (cluster_point_skip _ _ _ _ _ Hp Hz). simpl. apply IH; [done|].
      apply Exists_cons in Hex as [Hl|?]; [|done].
      unfold live in Hl. rewrite Hp, Hz in Hl. done.
    + unfold cluster_point, _getNeighbors. rewrite Hp. simpl. rewrite Hz.
      rewrite list_lookup_alter_eq, Hp. simpl. by rewrite Ht.
Qed.

(** ** Isolated points and coincident points *)

Lemma distSq_position (a a' b b' : Cluster.t) :
  Cluster.x a' = Cluster.x a -> Cluster.y a' = Cluster.y a ->
  Cluster.x b' = Cluster.x b -> Cluster.y b' = Cluster.y b ->
  distSq a' b' = distSq a b.
Proof. unfold distSq. by intros -> -> -> ->. Qed.


(** The iterations of the loop of [_cluster], by their effect. *)
Lemma Step_cases zoom i this clusters this' clusters' :
  Step rbush_search zoom i this clusters this' clusters' ->
  exists point, heap this !! i = Some point /\
    (zoom_le (Cluster.zoom point) zoom = true /\ this' = this /\ clusters' = clusters \/
     zoom_le (Cluster.zoom point) zoom = false /\
     exists ns new,
       _getNeighbors rbush_search (assign_zoom i zoom this) i zoom = Some ns /\
       heap this' = mark_all zoom (i :: ns) (heap this) ++ new /\
       options this' = options this /\
       (ns = [] /\ new = [] /\ clusters' = clusters ++ [i] \/
        ns <> [] /\ new = [aggregate point (heap this) ns] /\
        clusters' = clusters ++ [length (heap this)])).
Proof.
  intros HS.
  destruct HS as [point Hp Hz|point Hp Hz Hns|point ns this' Hp Hz Hns Hne Hv Ho Ht Hh Hw];
    exists point; (split; [done|]).
  - by left.
  - right. split; [done|]. exists [], []. split; [done|].
    split; [by rewrite app_nil_r|]. split; [done|]. by left.
  - right. split; [done|]. exists ns, [aggregate point (heap this) ns].
    split; [done|]. split; [done|]. split; [done|]. by right.
Qed.



(** The neighbors found for [i] once [i.zoom = zoom] is done hold
    every unvisited object of the tree within the radius, when the
    radius is not negative. *)
Lemma claimed_neighbors_complete this i zoom point ns t j b :
  heap this !! i = Some point ->
  _getNeighbors rbush_search (assign_zoom i zoom this) i zoom = Some ns ->
  (0 <= search_radius (options this) zoom)%R ->
  array_get (trees this) (zoom + 1) = Some t ->
  j ∈ t -> j <> i -> heap this !! j = Some b -> live (heap this) zoom j ->
  (distSq point b <=
   search_radius (options this) zoom * search_radius (options this) zoom)%R ->
  j ∈ ns.
Proof.
  intros Hp Hns Hr Ht Hj Hne Hb Hl Hd. unfold _getNeighbors in Hns.
  rewrite heap_assign_zoom, list_lookup_alter_eq, Hp in Hns. simpl in Hns.
  change (trees (assign_zoom i zoom this)) with (trees this) in Hns.
  rewrite Ht in Hns. simpl in Hns. injection Hns as <-.
  change (options (assign_zoom i zoom this)) with (options this).
  assert (near (alter (Cluster.set_zoom (Level zoom)) i (heap this))
            (Cluster.set_zoom (Level zoom) point) zoom
            (search_radius (options this) zoom) j = true) as Hn.
  { unfold near. rewrite list_lookup_alter_ne, Hb by done.
    unfold live in Hl. rewrite Hb in Hl. rewrite zoom_lt_le, Hl. simpl.
    by apply bool_decide_eq_true. }
  apply list_elem_of_filter. split; [done|].
  rewrite rbush_search_spec. apply list_elem_of_filter. split; [|done].
  by apply (near_hit _ _ zoom) in Hn.
Qed.

Lemma together_later o zoom h h' cl cl' a b :
  heap_le h h' -> (forall c, c ∈ cl -> c ∈ cl') ->
  together o zoom h cl a b -> together o zoom h' cl' a b.
Proof.
  intros Hle Hsub (c & agg & i & ns & Hc & Hagg & Hcl & Ha & Hb).
  destruct (claimed_by_later _ _ _ _ _ _ _ _ Hle Hagg Hcl) as (agg' & Hagg' & Hcl').
  exists c, agg', i, ns. split; [by apply Hsub|done].
Qed.

Lemma Step_together zoom a b i rest this clusters this' clusters' t oa ob :
  pass_ready zoom this (i :: rest) clusters ->
  Step rbush_search zoom i this clusters this' clusters' ->
  (0 <= search_radius (options this) zoom)%R ->
  a <> b ->
  array_get (trees this) (zoom + 1) = Some t -> a ∈ t -> b ∈ t ->
  heap this !! a = Some oa -> heap this !! b = Some ob ->
  Cluster.x oa = Cluster.x ob -> Cluster.y oa = Cluster.y ob ->
  (a ∈ i :: rest /\ live (heap this) zoom a /\
   b ∈ i :: rest /\ live (heap this) zoom b) \/
    together (options this) zoom (heap this) clusters a b ->
  (a ∈ rest /\ live (heap this') zoom a /\ b ∈ rest /\ live (heap this') zoom b) \/
    together (options this') zoom (heap this') clusters' a b.
Proof.
  intros [_ [Hrnd _] _] HS Hr Hab Ht Hat Hbt Hoa Hob Hx Hy Hpos.
  apply NoDup_cons in Hrnd as [Hi _].
  pose proof (Step_frame _ _ _ _ _ _ HS) as (Ho' & _ & Hle).
  destruct (Step_cases _ _ _ _ _ _ HS)
    as (point & Hp & [(Hz & -> & ->)|(Hz & ns & new & Hns & Hh & Ho & Hcase)]).
  { destruct Hpos as [(Ha & Hla & Hb & Hlb)|?]; [left|by right].
    assert (a <> i /\ b <> i) as [Hai Hbi].
    { split; intros ->; [unfold live in Hla; rewrite Hp, Hz in Hla
                        |unfold live in Hlb; rewrite Hp, Hz in Hlb]; done. }
    apply elem_of_cons in Ha as [?|Ha]; [done|].
    apply elem_of_cons in Hb as [?|Hb]; [done|]. done. }
  destruct Hpos as [(Ha & Hla & Hb & Hlb)|Htog].
  2:{ right. rewrite Ho'. eapply together_later; [exact Hle| |exact Htog].
      intros c Hc. destruct Hcase as [(_ & _ & ->)|(_ & _ & ->)]; set_solver. }
  destruct (claimed_neighbors _ _ _ _ _ Hp Hns) as (t' & Ht' & _ & Hnear).
  assert (forall j oj k ok,
    j ∈ t -> k ∈ t -> j <> k ->
    heap this !! j = Some oj -> heap this !! k = Some ok ->
    Cluster.x oj = Cluster.x ok -> Cluster.y oj = Cluster.y ok ->
    live (heap this) zoom k ->
    j = i \/ j ∈ ns -> k = i \/ k ∈ ns) as Hboth.
  { intros j oj k ok Hjt Hkt Hjk Hoj Hok Hxj Hyj Hlk [->|Hjn].
    - right. rewrite Hp in Hoj. injection Hoj as <-.
      apply (claimed_neighbors_complete this i zoom point ns t k ok Hp Hns Hr Ht Hkt);
        [by intros ->|done|done|].
      rewrite (distSq_position point point point ok) by done.
      unfold distSq. nra.
    - destruct (decide (k = i)) as [?|Hki]; [by left|right].
      destruct (Hnear j Hjn) as (_ & _ & _ & bj & Hbj & Hd).
      rewrite Hoj in Hbj. injection Hbj as <-.
      apply (claimed_neighbors_complete this i zoom point ns t k ok Hp Hns Hr Ht Hkt);
        [done|done|done|].
      by rewrite (distSq_position point point oj ok). }
  destruct (decide (a = i \/ a ∈ ns)) as [Hain|Haout].
  - assert (b = i \/ b ∈ ns) as Hbin by (by eapply (Hboth a oa b ob)).
    right. assert (ns <> []) as Hne.
    { intros ->. destruct Hain as [->|Hin], Hbin as [->|Hin']; try done;
        by apply elem_of_nil in Hin || by apply elem_of_nil in Hin'. }
    destruct (Step_merge_claimed _ _ _ _ _ _ _ _ HS Hp Hz Hns) as (_ & Hm).
    destruct (Hm Hne) as (-> & _ & Hagg & Hcl).
    exists (length (heap this)), (aggregate point (heap this) ns), i, ns.
    rewrite Ho'. split; [set_solver|done].
  - assert (~ (b = i \/ b ∈ ns)) as Hbout.
    { intros Hbin. apply Haout. by eapply (Hboth b ob a oa). }
    left.
    assert (forall j, j ∈ i :: rest -> live (heap this) zoom j -> ~ (j = i \/ j ∈ ns) ->
              j ∈ rest /\ live (heap this') zoom j) as Hkeep.
    { intros j Hj Hl Hout. apply elem_of_cons in Hj as [->|Hj]; [tauto|].
      split; [done|]. rewrite Hh. apply live_mark_all; [by eapply live_lt|].
      split; [done|]. intros [->|?]%elem_of_cons; tauto. }
    destruct (Hkeep a Ha Hla Haout). destruct (Hkeep b Hb Hlb Hbout). done.
Qed.

Lemma pass_together this points z this' clusters a b oa ob :
  pass_ready z this points [] ->
  array_get (trees this) (z + 1) = Some points ->
  (0 <= search_radius (options this) z)%R ->
  a <> b -> a ∈ points -> b ∈ points ->
  live (heap this) z a -> live (heap this) z b ->
  heap this !! a = Some oa -> heap this !! b = Some ob ->
  Cluster.x oa = Cluster.x ob -> Cluster.y oa = Cluster.y ob ->
  _cluster rbush_search this points z = Some (this', clusters) ->
  together (options this) z (heap this') clusters a b.
Proof.
  intros Hready Ht Hr Hab Ha Hb Hla Hlb Hoa Hob Hx Hy H. unfold _cluster in H.
  apply (cluster_loop_ready_invariant
    (fun this1 rest cl =>
       options this1 = options this /\ trees this1 = trees this /\
       (exists oa1 ob1, heap this1 !! a = Some oa1 /\ heap this1 !! b = Some ob1 /\
          Cluster.x oa1 = Cluster.x ob1 /\ Cluster.y oa1 = Cluster.y ob1) /\
       ((a ∈ rest /\ live (heap this1) z a /\ b ∈ rest /\ live (heap this1) z b) \/
        together (options this1) z (heap this1) cl a b)) z) in H; [| |exact Hready|].
  - destruct H as (Ho & _ & _ & [(Hin & _)|Htog]); [by apply elem_of_nil in Hin|].
    by rewrite <- Ho.
  - clear H Hready Hoa Hob Hx Hy Hla Hlb.
    intros i rest this1 cl this2 cl2 Hr1 (Ho & Ht1 & (oa1 & ob1 & Hoa & Hob & Hx & Hy) & Hpos) HS.
    pose proof (Step_frame _ _ _ _ _ _ HS) as (Ho2 & Ht2 & Hle).
    split; [by rewrite Ho2|]. split; [by rewrite Ht2|]. split.
    + destruct (Hle _ _ Hoa) as (oa2 & Hoa2 & Ea). destruct (Hle _ _ Hob) as (ob2 & Hob2 & Eb).
      exists oa2, ob2. split; [done|]. split; [done|].
      by rewrite (erase_x _ _ Ea), (erase_y _ _ Ea), (erase_x _ _ Eb), (erase_y _ _ Eb).
    + eapply (Step_together z a b i rest this1 cl this2 cl2 points oa1 ob1); try done.
      * by rewrite Ho.
      * by rewrite Ht1.
  - split; [done|]. split; [done|]. split; [by exists oa, ob|]. by left.
Qed.

(** Two objects of the first tier at one position, within a radius
    that is not negative, are in one cluster of the next tier. *)
Lemma load_together user points leaves a b la lb :
  valid_zooms (options (supercluster user)) ->
  (minZoom (options (supercluster user)) <= maxZoom (options (supercluster user)))%Z ->
  (0 <= search_radius (options (supercluster user))
          (maxZoom (options (supercluster user))))%R ->
  mapM createPointCluster points = Some leaves ->
  a <> b -> leaves !! a = Some la -> leaves !! b = Some lb ->
  Cluster.x la = Cluster.x lb -> Cluster.y la = Cluster.y lb ->
  exists this' lower,
    load rbush_search (supercluster user) points = Some this' /\
    array_get (trees this') (maxZoom (options this')) = Some lower /\
    together (options this') (maxZoom (options this')) (heap this') lower a b.
Proof.
  intros Hz Hpass Hr Hleaves Hab Hla Hlb Hx Hy. set (o := options (supercluster user)) in *.
  destruct (load_new_invariant
    (fun z this cl =>
       options this = o /\
       (z = maxZoom o -> heap this = leaves /\ cl = seq 0 (length leaves)) /\
       ((z < maxZoom o)%Z ->
        exists lower,
          (if decide (z + 1 = maxZoom o)%Z then cl = lower
           else array_get (trees this) (maxZoom o) = Some lower) /\
          together o (maxZoom o) (heap this) lower a b))
    user points leaves Hz Hleaves)
    as (this2 & cl2 & (Ho2 & _ & Hlow) & Hinv2 & _ & _ & Hload).
  - intros z this cl this1 this2 cl2 Hinv _ Hzr (Ho & Hfirst & Hlater) H1 H2.
    destruct (load_inv_ready _ _ _ _ _ Hinv H1) as (Ho1 & Hh1 & Hnew & Hold & Hready).
    pose proof (cluster_loop_frame _ _ _ _ _ _ H2) as (Ho2 & Ht2 & Hle).
    rewrite Ho in Hzr. change (options (supercluster user)) with o in Hzr.
    split; [by rewrite Ho2, Ho1|]. split; [intros ?; lia|]. intros _.
    destruct (decide (z = maxZoom o)) as [->|Hne].
    + destruct Hfirst as [Hheap ->]; [done|].
      exists cl2. rewrite decide_True by lia. split; [done|].
      assert (a ∈ seq 0 (length leaves) /\ b ∈ seq 0 (length leaves)) as [Ha Hb].
      { split; apply elem_of_seq; [apply lookup_lt_Some in Hla|apply lookup_lt_Some in Hlb]; lia. }
      destruct Hinv as [_ _ _ (_ & Hlive & _) _]. rewrite <- Hh1 in Hlive.
      assert (together (options this1) (maxZoom o) (heap this2) cl2 a b) as Htog.
      { apply (pass_together this1 (seq 0 (length leaves)) (maxZoom o) this2 cl2 a b la lb
                 Hready Hnew); try done.
        - by rewrite Ho1, Ho.
        - by apply (proj1 (Forall_forall _ _) Hlive).
        - by apply (proj1 (Forall_forall _ _) Hlive).
        - by rewrite Hh1, Hheap.
        - by rewrite Hh1, Hheap. }
      by rewrite Ho1, Ho in Htog.
    + destruct Hlater as (lower & Hwhere & Htog); [lia|].
      exists lower. rewrite decide_False by lia. split.
      * rewrite Ht2. case_decide as Hd.
        -- subst lower. by rewrite <- Hd.
        -- by rewrite Hold by lia.
      * eapply together_later; [|done|exact Htog]. by rewrite <- Hh1.
  - split; [done|]. split; [done|]. intros Hlt. exfalso. by apply Z.lt_irrefl in Hlt.
  - change (options (supercluster user)) with o in Hload, Hlow.
    unfold valid_zooms in Hz.
    destruct Hinv2 as [Hl2 _ _ _ _]. rewrite Ho2 in Hl2.
    destruct Hlow as (lower & Hwhere & Htog); [lia|].
    eexists _, lower. split; [exact Hload|].
    unfold with_trees. cbn [options trees heap]. rewrite Ho2. split; [|done].
    case_decide as Hd.
    + subst lower. replace (maxZoom o) with (minZoom o) by lia.
      apply array_get_insert_eq; lia.
    + rewrite array_get_insert_ne by lia. done.
Qed.

(** X23.  Two input points at the same projected position are merged
    by the first pass, whenever the extent is not zero and the radius
    at [maxZoom] is not negative: one cluster of the tier [maxZoom]
    has both of them among its builder and its children. *)
Theorem coincident_points_merge user points leaves a b la lb :
  extent (options (supercluster user)) <> 0%R ->
  valid_zooms (options (supercluster user)) ->
  (minZoom (options (supercluster user)) <= maxZoom (options (supercluster user)))%Z ->
  (0 <= search_radius (options (supercluster user))
          (maxZoom (options (supercluster user))))%R ->
  mapM createPointCluster points = Some leaves ->
  a <> b -> leaves !! a = Some la -> leaves !! b = Some lb ->
  Cluster.x la = Cluster.x lb -> Cluster.y la = Cluster.y lb ->
  exists this' lower,
    load rbush_search (supercluster user) points = Some this' /\
    array_get (trees this') (maxZoom (options this')) = Some lower /\
    together (options this') (maxZoom (options this')) (heap this') lower a b.
Proof.
  intros _ Hz Hpass Hr Hleaves Hab Hla Hlb Hx Hy.
  destruct (load_together user points leaves a b la lb Hz Hpass Hr Hleaves Hab Hla Hlb Hx Hy)
    as (this' & lower & Hload & Hlower & Htog).
  by exists this', lower.
Qed.

(** X24.  A zoom that is no integer is accepted when it lies at or
    beyond the ends of the range: at or above [maxZoom + 1],
    [getClusters] returns what it returns for [maxZoom + 1], and at or
    below [minZoom], what it returns for [minZoom]. *)
Theorem getClusters_clamps_zoom_beyond_range user points this bbox (zoom : R) :
  valid_zooms (options (supercluster user)) ->
  this = supercluster user \/ load rbush_search (supercluster user) points = Some this ->
  (IZR (maxZoom (options this) + 1) <= zoom \/ zoom <= IZR (minZoom (options this)))%R ->
  is_Some (getClusters rbush_search this bbox zoom) /\
  ((IZR (maxZoom (options this) + 1) <= zoom)%R ->
   getClusters rbush_search this bbox zoom =
   getClusters rbush_search this bbox (IZR (maxZoom (options this) + 1))) /\
  ((zoom <= IZR (minZoom (options this)))%R ->
   getClusters rbush_search this bbox zoom =
   getClusters rbush_search this bbox (IZR (minZoom (options this)))).
Proof.
  intros Hz Hthis Hzoom.
  destruct (instance_tier user points this 0 Hz Hthis) as (Ho & _).
  pose proof Hz as Hz'. unfold valid_zooms in Hz. rewrite <- Ho in Hz.
  set (lo := minZoom (options this)) in *. set (hi := (maxZoom (options this) + 1)%Z) in *.
  assert (IZR lo <= IZR hi)%R as Hlh by (apply IZR_le; lia).
  assert (forall z1 z2 : R,
    Rmax (IZR lo) (Rmin z1 (IZR hi)) = Rmax (IZR lo) (Rmin z2 (IZR hi)) ->
    getClusters rbush_search this bbox z1 = getClusters rbush_search this bbox z2) as Hsame.
  { intros z1 z2 Heq. unfold getClusters. destruct bbox as [[[west south] east] north].
    fold lo hi. by rewrite Heq. }
  assert ((IZR hi <= zoom)%R ->
    getClusters rbush_search this bbox zoom = getClusters rbush_search this bbox (IZR hi))
    as Hhigh.
  { intros Hge. apply Hsame. by rewrite !Rmin_right by lra. }
  assert ((zoom <= IZR lo)%R ->
    getClusters rbush_search this bbox zoom = getClusters rbush_search this bbox (IZR lo))
    as Hlow.
  { intros Hle. apply Hsame. rewrite !Rmin_left by lra. by rewrite !Rmax_left by lra. }
  split; [|by split].
  destruct Hzoom as [Hge|Hle].
  - rewrite (Hhigh Hge).
    destruct (instance_tier user points this hi Hz' Hthis) as (_ & t & Ht).
    rewrite (getClusters_tier _ _ _ _ Ht). apply hits_get.
  - rewrite (Hlow Hle).
    destruct (instance_tier user points this lo Hz' Hthis) as (_ & t & Ht).
    rewrite (getClusters_tier _ _ _ _ Ht). apply hits_get.
Qed.

(** X25.  [load] never fills a tier below [minZoom]: the trees of the
    zooms from 0 to [minZoom - 1], which [_initTrees] creates, stay
    empty. *)
Theorem tiers_below_minZoom_stay_empty user points :
  valid_zooms (options (supercluster user)) ->
  Forall has_coordinates points ->
  exists this',
    load rbush_search (supercluster user) points = Some this' /\
    forall z, (0 <= z < minZoom (options this'))%Z ->
      array_get (trees this') z = Some [].
Proof.
  intros Hz Hc.
  destruct (mapM_is_Some_2 createPointCluster points) as [leaves Hleaves].
  { eapply Forall_impl; [exact Hc|]. intros p. apply createPointCluster_is_Some. }
  destruct (load_new_invariant (fun _ _ _ => True) user points leaves Hz Hleaves)
    as (this2 & cl2 & _ & [Hl2 Hempty _ _ _] & Ho2 & _ & Hload); [done|done|].
  eexists. split; [exact Hload|].
  unfold with_trees. cbn [options trees]. rewrite Ho2 in *.
  unfold valid_zooms in Hz.
  set (o := options (supercluster user)) in *.
  intros z Hzr. rewrite array_get_insert_ne by lia.
  assert (Z.to_nat z < length (trees this2)) as Hidx by lia.
  destruct (lookup_lt_is_Some_2 _ _ Hidx) as [t Ht].
  assert (array_get (trees this2) z = Some t) as Hget
    by (apply array_get_Some; split; [lia|done]).
  rewrite Hget. f_equal. eapply Hempty; [|exact Hget]. lia.
Qed.

(** ** [load] on an instance that is loaded *)

Lemma zoom_le_mono a (z z' : Z) : zoom_le a z = true -> (z <= z')%Z -> zoom_le a z' = true.
Proof.
  destruct a as [|a]; [done|]. simpl. intros H%bool_decide_eq_true Hz.
  apply bool_decide_eq_true. lia.
Qed.

(** An object that a pass at [zoom] finds visited at [zoom'], not
    below [zoom], is visited at [zoom'] when the pass returns. *)
Lemma cluster_loop_keeps_visited zoom zoom' points this clusters this' clusters' j c :
  cluster_loop rbush_search zoom points this clusters = Some (this', clusters') ->
  (zoom <= zoom')%Z ->
  heap this !! j = Some c -> zoom_le (Cluster.zoom c) zoom' = true ->
  exists c', heap this' !! j = Some c' /\ zoom_le (Cluster.zoom c') zoom' = true.
Proof.
  intros H Hz Hc Hv.
  eapply (cluster_loop_invariant
    (fun this2 _ => exists c, heap this2 !! j = Some c /\
                      zoom_le (Cluster.zoom c) zoom' = true)); [| |exact H].
  - clear - Hz. intros k this2 cl2 this3 cl3 (c & Hc & Hv) HS.
    destruct (Step_cases _ _ _ _ _ _ HS)
      as (point & Hp & [(_ & -> & _)|(_ & ns & new & _ & -> & _)]); [by exists c|].
    rewrite lookup_app_l by (rewrite mark_all_length; by eapply lookup_lt_Some).
    rewrite mark_all_lookup, Hc. simpl. eexists. split; [done|].
    case_decide; [|done]. simpl. apply bool_decide_eq_true. lia.
  - by exists c.
Qed.

(** A pass at [zoom] leaves alone the objects it finds visited. *)
Lemma cluster_loop_keeps_object zoom points this clusters this' clusters' j c :
  cluster_loop rbush_search zoom points this clusters = Some (this', clusters') ->
  heap this !! j = Some c -> zoom_le (Cluster.zoom c) zoom = true ->
  heap this' !! j = Some c.
Proof.
  intros H Hc Hv.
  eapply (cluster_loop_invariant (fun this2 _ => heap this2 !! j = Some c)); [| |exact H];
    [|done].
  clear - Hv rbush_search_spec. intros i this2 cl2 this3 cl3 Hc HS.
  destruct (Step_cases _ _ _ _ _ _ HS)
    as (point & Hp & [(_ & -> & _)|(Hl & ns & new & Hns & -> & _)]); [done|].
  rewrite lookup_app_l by (rewrite mark_all_length; by eapply lookup_lt_Some).
  rewrite mark_all_lookup, Hc. simpl.
  rewrite decide_False; [done|].
  intros [->|Hj]%elem_of_cons.
  - rewrite Hc in Hp. injection Hp as <-. by rewrite Hv in Hl.
  - destruct (claimed_neighbors _ _ _ _ _ Hp Hns) as (t & _ & _ & Hcl).
    destruct (Hcl j Hj) as (_ & _ & Hlive & _).
    unfold live in Hlive. rewrite Hc, Hv in Hlive. done.
Qed.

(** The clusters a pass returns are points of its input or objects
    it allocates. *)
Lemma cluster_loop_from (base : nat) zoom : forall points this clusters this' clusters',
  cluster_loop rbush_search zoom points this clusters = Some (this', clusters') ->
  base <= length (heap this) ->
  Forall (fun j => base <= j) points -> Forall (fun j => base <= j) clusters ->
  base <= length (heap this') /\ Forall (fun j => base <= j) clusters'.
Proof.
  induction points as [|i rest IH]; intros this cl this' cl' H Hb Hp Hc; simpl in H.
  - by simplify_eq.
  - destruct (cluster_point rbush_search zoom i this cl) as [[this1 cl1]|] eqn:H1;
      simpl in H; [|done].
    apply cluster_point_Step in H1. apply Forall_cons in Hp as [Hi Hp].
    destruct (Step_cases _ _ _ _ _ _ H1)
      as (point & _ & [(_ & -> & ->)|(_ & ns & new & _ & Hh & _ & Hcl)]).
    + by eapply IH.
    + assert (base <= length (heap this1)) as Hb1.
      { rewrite Hh, length_app, mark_all_length. lia. }
      eapply IH; [exact H|done|done|].
      destruct Hcl as [(_ & _ & ->)|(_ & _ & ->)]; apply Forall_app; split; try done;
        by repeat constructor.
Qed.

(** After [load] on a new instance, no tree holds an object twice or
    an object that does not exist, and the nodes of every tier above
    [minZoom] were visited by the pass that read the tier. *)
Lemma load_old_tiers user points this' :
  load rbush_search (supercluster user) points = Some this' ->
  options this' = options (supercluster user) /\
  length (trees this') = Z.to_nat (maxZoom (options this') + 2) /\
  (forall k t, array_get (trees this') k = Some t ->
     NoDup t /\ Forall (fun j => j < length (heap this')) t) /\
  forall k t j,
    (minZoom (options this') < k)%Z ->
    array_get (trees this') k = Some t -> j ∈ t ->
    exists c, heap this' !! j = Some c /\ zoom_le (Cluster.zoom c) (k - 1) = true.
Proof.
  intros Hload. pose proof Hload as Hsome.
  apply load_Some_inv in Hsome as [Hz Hcoords].
  destruct (mapM_is_Some_2 createPointCluster points) as [leaves Hleaves].
  { eapply Forall_impl; [exact Hcoords|]. intros p. apply createPointCluster_is_Some. }
  destruct (load_new_invariant
    (fun z this _ =>
       forall k t, (z + 1 < k)%Z -> array_get (trees this) k = Some t ->
         NoDup t /\
         forall j, j ∈ t ->
           exists c, heap this !! j = Some c /\ zoom_le (Cluster.zoom c) (k - 1) = true)
    user points leaves Hz Hleaves)
    as (this2 & cl2 & HL & Hinv2 & Ho2 & _ & Hload').
  - intros z this cl this1 this2 cl2 Hinv _ _ HL H1 H2 k t Hk Ht.
    destruct (load_inv_ready _ _ _ _ _ Hinv H1) as (Ho1 & Hh1 & Hnew & Hold & Hready).
    pose proof (cluster_loop_frame _ _ _ _ _ _ H2) as (Ho2 & Ht2 & _).
    rewrite Ht2 in Ht.
    destruct (decide (k = z + 1)%Z) as [->|Hne].
    + rewrite Hnew in Ht. injection Ht as <-. split; [apply Hinv|].
      pose proof (cluster_loop_visited _ z _ _ _ _ _ H2 (Z.le_refl z)) as Hv.
      replace (z + 1 - 1)%Z with z by lia.
      intros j Hj. by apply (proj1 (Forall_forall _ _) Hv).
    + rewrite Hold in Ht by done.
      destruct (HL k t) as [Hnd Hv]; [lia|done|]. split; [done|].
      intros j Hj. destruct (Hv j Hj) as (c & Hc & Hvc).
      rewrite <- Hh1 in Hc.
      eapply (cluster_loop_keeps_visited z (k - 1)); [exact H2|lia|exact Hc|exact Hvc].
  - intros k t _ Ht. apply lookup_new_trees in Ht as ->.
    split; [constructor|]. intros j Hj. by apply elem_of_nil in Hj.
  - rewrite Hload in Hload'. injection Hload' as ->.
    destruct Hinv2 as [Hl2 Hempty _ (Hnd & Hlive & _) _].
    unfold with_trees. cbn [options trees heap]. rewrite Ho2 in *.
    unfold valid_zooms in Hz. set (o := options (supercluster user)) in *.
    change (default 0%Z (u_minZoom user)) with (minZoom o).
    split; [done|]. split; [by rewrite length_insert|]. split.
    + intros k t Ht. destruct (decide (k = minZoom o)) as [->|Hne].
      * rewrite array_get_insert_eq in Ht by lia. injection Ht as <-.
        split; [done|]. eapply Forall_impl; [exact Hlive|]. intros j. apply live_lt.
      * rewrite array_get_insert_ne in Ht by lia.
        destruct (decide (k <= minZoom o - 1 + 1)%Z) as [Hk|Hk].
        { apply (Hempty _ _ Hk) in Ht as ->. split; constructor. }
        destruct (HL k t) as [Hndt Hv]; [lia|done|]. split; [done|].
        apply Forall_forall. intros j Hj. destruct (Hv j Hj) as (c & Hc & _).
        by eapply lookup_lt_Some.
    + intros k t j Hk Ht Hj. rewrite array_get_insert_ne in Ht by lia.
      destruct (HL k t) as [_ Hv]; [lia|done|]. by apply Hv.
Qed.

(** The loop of [load] on a loaded instance runs and keeps
    [reload_inv]. *)
Lemma reload_loop_spec base old low N o :
  (0 <= low)%Z -> length old = Z.to_nat (maxZoom o + 2) ->
  (forall k t0, array_get old k = Some t0 ->
     NoDup t0 /\ Forall (fun j => j < base) t0) ->
  forall n z this clusters,
    options this = o ->
    reload_inv base old low N z this clusters ->
    (low <= z - Z.of_nat n + 1)%Z -> (z <= maxZoom o)%Z ->
    exists this' clusters',
      load_loop rbush_search n z this clusters = Some (this', clusters') /\
      reload_inv base old low N (z - Z.of_nat n) this' clusters' /\
      options this' = o /\ heap_le (heap this) (heap this').
Proof.
  intros Hlow Hlen Hold.
  induction n as [|n IH]; intros z this cl Ho Hinv Hn Hz.
  { exists this, cl. replace (z - Z.of_nat 0)%Z with z by lia.
    split; [done|]. split; [done|]. split; [done|]. apply heap_le_refl. }
  destruct Hinv as [Hl Hb Hlower Hupper Hvis (Hnd & Hlive & Hfrom & Hmass)].
  assert (Forall (fun j => j < length (heap this)) cl) as Hvalid.
  { eapply Forall_impl; [exact Hlive|]. intros j. apply live_lt. }
  assert (Z.to_nat (z + 1) < length old) as Hidx by lia.
  destruct (lookup_lt_is_Some_2 _ _ Hidx) as [t0 Ht0].
  assert (array_get old (z + 1) = Some t0) as Hget0
    by (apply array_get_Some; split; [lia|done]).
  assert (array_get (trees this) (z + 1) = Some t0) as Hget
    by (rewrite Hlower; [done|lia]).
  destruct (Hold _ _ Hget0) as [Hnd0 Hv0].
  simpl. rewrite (tree_load_eq _ _ _ _ Hget). simpl. unfold rbush_load.
  set (this1 := with_trees _ this).
  assert (array_get (trees this1) (z + 1) = Some (t0 ++ cl)) as Hget1.
  { unfold this1. simpl. apply array_get_insert_eq; [lia|]. rewrite Hl. lia. }
  assert (pass_ready z this1 cl []) as Hready.
  { split.
    - exists (t0 ++ cl). split; [done|]. split; [|split].
      + apply NoDup_app. split; [done|]. split; [|done].
        intros j Hj0 Hj.
        apply (proj1 (Forall_forall _ _) Hv0) in Hj0.
        apply (proj1 (Forall_forall _ _) Hfrom) in Hj. lia.
      + apply Forall_app. split; [|done].
        eapply Forall_impl; [exact Hv0|]. intros j Hj. simpl in *. lia.
      + intros j [Hj|Hj]%elem_of_app Hlj; [|done]. exfalso.
        destruct (Hvis (z + 1)%Z t0 j) as (c & Hc & Hvc); [lia|done|done|].
        replace (z + 1 - 1)%Z with z in Hvc by lia.
        unfold live, this1 in Hlj. simpl in Hlj. by rewrite Hc, Hvc in Hlj.
    - done.
    - split; [constructor|]. split; [constructor|].
      intros c Hc. by apply elem_of_nil in Hc. }
  destruct (cluster_loop_spec z cl this1 [] Hready) as (this2 & cl2 & Hloop & Hdone).
  unfold _cluster. rewrite Hloop. simpl.
  destruct (cluster_loop_from base z _ _ _ _ _ Hloop) as [Hb2 Hfrom2];
    [done|done|constructor|].
  destruct Hdone as [Ho2 Ht2 Hle2 Hm2 [Hnd2 Hlive2] _].
  simpl in Ho2, Ht2, Hle2, Hm2.
  rewrite filter_Forall in Hm2 by done.
  pose proof (heap_le_length _ _ Hle2) as Hlen2.
  destruct (IH (z - 1)%Z this2 cl2) as (this' & cl' & Hrun & Hinv' & Ho' & Hle').
  { by rewrite Ho2. }
  { split.
    - by rewrite Ht2, length_insert.
    - done.
    - intros k Hk. rewrite Ht2, array_get_insert_ne by lia. apply Hlower. lia.
    - intros k tk Hk Hgetk. rewrite Ht2. destruct (decide (k = z + 1)%Z) as [->|Hne].
      + rewrite Hget0 in Hgetk. injection Hgetk as <-.
        exists cl. split; [exact Hget1|].
        rewrite (mass_heap_le _ _ _ Hle2 Hvalid). split; [done|].
        apply Forall_forall. intros j Hj.
        apply (proj1 (Forall_forall _ _) Hfrom) in Hj as Hj1.
        apply (proj1 (Forall_forall _ _) Hvalid) in Hj as Hj2. simpl in *. lia.
      + rewrite array_get_insert_ne by lia.
        destruct (Hupper k tk) as (t & Hkt & Hkm & Hkv); [lia|done|].
        exists t. split; [done|].
        assert (Forall (fun j => j < length (heap this)) t) as Hkv'.
        { eapply Forall_impl; [exact Hkv|]. intros j Hj. simpl in *. lia. }
        rewrite (mass_heap_le _ _ _ Hle2 Hkv'). split; [done|].
        eapply Forall_impl; [exact Hkv|]. intros j Hj. simpl in *. lia.
    - intros k tk j Hk Hgetk Hj.
      destruct (Hvis k tk j) as (c & Hc & Hvc); [lia|done|done|].
      exists c. split; [|done].
      eapply cluster_loop_keeps_object; [exact Hloop|exact Hc|].
      eapply zoom_le_mono; [exact Hvc|lia].
    - split; [done|]. split; [done|]. split; [done|]. rewrite Hm2. simpl. lia. }
  { lia. }
  { lia. }
  exists this', cl'. split; [done|].
  replace (z - Z.of_nat (S n))%Z with (z - 1 - Z.of_nat n)%Z by lia.
  split; [done|]. split; [done|]. by eapply heap_le_trans.
Qed.

(** X26.  [load] can be called again on a loaded instance: it returns,
    and to every tier from [minZoom] to [maxZoom + 1] it appends nodes
    for the new points after the nodes the tier had.  The old nodes
    still hold as many points as the first call was given; the
    appended nodes are objects the second call created and hold as
    many points as the second call was given. *)
Theorem load_again_appends_tiers user points1 points2 :
  valid_zooms (options (supercluster user)) ->
  Forall has_coordinates points1 -> Forall has_coordinates points2 ->
  exists this1 this2,
    load rbush_search (supercluster user) points1 = Some this1 /\
    load rbush_search this1 points2 = Some this2 /\
    options this2 = options (supercluster user) /\
    heap_le (heap this1) (heap this2) /\
    forall z, (minZoom (options this2) <= z <= maxZoom (options this2) + 1)%Z ->
      exists t1 t2,
        array_get (trees this1) z = Some t1 /\
        array_get (trees this2) z = Some (t1 ++ t2) /\
        mass (heap this2) t1 = Z.of_nat (length points1) /\
        mass (heap this2) t2 = Z.of_nat (length points2) /\
        Forall (fun j => length (heap this1) <= j < length (heap this2)) t2.
Proof.
  intros Hz Hc1 Hc2.
  destruct (load_new user points1 Hz Hc1)
    as (this1 & leaves1 & Hload1 & _ & Ho1 & _ & Htiers1 & _).
  destruct (load_old_tiers _ _ _ Hload1) as (_ & Hlen1 & Hnd1 & Hvis1).
  destruct (mapM_is_Some_2 createPointCluster points2) as [leaves Hleaves].
  { eapply Forall_impl; [exact Hc2|]. intros p. apply createPointCluster_is_Some. }
  pose proof (mapM_Some_1 _ _ _ Hleaves) as Hall.
  assert (length leaves = length points2) as Hlen by (symmetry; by eapply Forall2_length).
  assert (Forall (fun c => Cluster.zoom c = Infinity /\ Cluster.numPoints c = 1%Z) leaves)
    as Hleaf.
  { apply Forall_forall. intros c Hc.
    apply list_elem_of_lookup in Hc as [i Hc].
    destruct (Forall2_lookup_r _ _ _ _ _ Hall Hc) as (p & _ & Hp).
    apply createPointCluster_leaf in Hp. tauto. }
  unfold valid_zooms in Hz. rewrite Ho1 in *.
  set (o := options (supercluster user)) in *.
  set (base := length (heap this1)).
  set (N := Z.of_nat (length points2)).
  set (start := with_heap (heap this1 ++ leaves) this1).
  destruct (reload_loop_spec base (trees this1) (minZoom o) N o) with
    (n := Z.to_nat (maxZoom o - minZoom o + 1)) (z := maxZoom o)
    (this := start) (clusters := seq base (length leaves))
    as (this2 & cl2 & Hloop & Hinv & Ho2 & Hle2).
  { lia. }
  { done. }
  { intros k t0 Ht0. apply (Hnd1 _ _ Ht0). }
  { done. }
  { split.
    - done.
    - unfold start. simpl. rewrite length_app. unfold base. lia.
    - done.
    - intros k t0 Hk [Hk0 Ht0%lookup_lt_Some]%array_get_Some. lia.
    - intros k t0 j Hk Ht0 Hj.
      destruct (Hvis1 k t0 j) as (c & Hc & Hv); [lia|done|done|].
      exists c. split; [|done]. unfold start. simpl.
      rewrite lookup_app_l; [done|]. by eapply lookup_lt_Some.
    - split; [apply NoDup_seq|]. split; [|split].
      + apply Forall_forall. intros i Hi. apply elem_of_seq in Hi.
        unfold live, start. simpl. rewrite lookup_app_r by (unfold base in Hi; lia).
        destruct (lookup_lt_is_Some_2 leaves (i - length (heap this1))) as [c Hc];
          [unfold base in Hi; lia|].
        rewrite Hc. apply list_elem_of_lookup_2 in Hc.
        by apply (proj1 (Forall_forall _ _) Hleaf) in Hc as [-> _].
      + apply Forall_forall. intros i Hi. apply elem_of_seq in Hi. lia.
      + unfold start, base. simpl. rewrite mass_leaves.
        * unfold N. by rewrite Hlen.
        * eapply Forall_impl; [exact Hleaf|]. simpl. tauto. }
  { lia. }
  { lia. }
  replace (maxZoom o - Z.of_nat (Z.to_nat (maxZoom o - minZoom o + 1)))%Z
    with (minZoom o - 1)%Z in Hinv by lia.
  destruct Hinv as [Hl2 Hb2 Hlower Hupper _ (Hnd & Hlive & Hfrom & Hmass)].
  destruct (Htiers1 (minZoom o)) as (tm & Htm & _); [lia|].
  assert (array_get (trees this2) (minZoom o) = Some tm) as Hget
    by (rewrite Hlower; [done|lia]).
  assert (heap_le (heap this1) (heap this2)) as Hle.
  { eapply heap_le_trans; [apply (heap_le_app _ leaves)|exact Hle2]. }
  exists this1, (with_trees (<[Z.to_nat (minZoom o) := rbush_load cl2 tm]> (trees this2)) this2).
  split; [done|]. split.
  { rewrite (load_unfold _ _ _ Hleaves), Ho1. fold o. fold start. fold base.
    rewrite Hloop. exact (tree_load_eq _ _ _ _ Hget). }
  unfold with_trees, rbush_load. cbn [options trees heap].
  split; [done|]. split; [done|]. rewrite Ho2.
  intros z Hzr.
  destruct (Htiers1 z) as (t1 & Ht1 & Hm1 & Hv1); [lia|].
  exists t1. rewrite (mass_heap_le _ _ _ Hle Hv1).
  destruct (decide (z = minZoom o)) as [->|Hne].
  - exists cl2. rewrite Htm in Ht1. injection Ht1 as ->.
    split; [done|]. split; [|split; [done|split; [done|]]].
    + apply array_get_insert_eq; [lia|]. rewrite Hl2, Hlen1. lia.
    + apply Forall_forall. intros j Hj.
      apply (proj1 (Forall_forall _ _) Hfrom) in Hj as Hj1.
      apply (proj1 (Forall_forall _ _) Hlive) in Hj as Hj2. apply live_lt in Hj2.
      fold base. lia.
  - destruct (Hupper z t1) as (t & Hkt & Hkm & Hkv); [lia|done|].
    exists t. split; [done|]. split; [|done].
    rewrite array_get_insert_ne by lia. done.
Qed.

End EngineFacts.

(** ** The worked example, evaluated *)

Lemma scan_search_spec h t a : scan_search h t a ≡ₚ filter (hit h a) t.
Proof. done. Qed.

Lemma latY_0 : Projector.latY 0 = (1 / 2)%R.
Proof.
  unfold Projector.latY, Projector.mercatorY.
  replace (0 * PI / 180)%R with 0%R by lra. rewrite sin_0.
  rewrite decide_False by lra. rewrite decide_False by lra.
  replace ((1 + 0) / (1 - 0))%R with 1%R by lra. rewrite ln_1.
  replace (0.5 - 0.25 * 0 / PI)%R with (1 / 2)%R by (unfold Rdiv; lra).
  rewrite decide_False by lra. rewrite decide_False by lra. done.
Qed.

(** Comparisons of the numbers of the example. *)
Ltac ex_arith :=
  unfold hit, intersects, near, distSq, search_radius; simpl;
  unfold Projector.lngX, Projector.xLng; simpl; rewrite ?latY_0; lra.

Ltac ex_near :=
  unfold near; simpl;
  first
    [ done
    | rewrite bool_decide_eq_true_2 by ex_arith; done
    | rewrite bool_decide_eq_false_2 by ex_arith; done ].

Ltac ex_filter :=
  repeat first
    [ rewrite filter_nil
    | rewrite filter_cons_True by first [ex_arith | ex_near]
    | rewrite filter_cons_False by first [ex_arith | ex_near] ].

Ltac ex_neighbors :=
  unfold _getNeighbors, scan_search; simpl; ex_filter; reflexivity.

Lemma ex_pass1 :
  _cluster scan_search ex_start [0; 1; 2; 3] 1 = Some (ex_zoom1, [0; 4]).
Proof.
  unfold _cluster.
  rewrite (cluster_loop_cons _ _ _ _ _ _ (assign_zoom 0 1 ex_start) [0]).
  2:{ apply (cluster_point_single scan_search 1 0 ex_start [] (ex_leaf (-90))); [done|done|ex_neighbors]. }
  rewrite (cluster_loop_cons _ _ _ _ _ _ ex_zoom1 [0; 4]).
  2:{ apply (cluster_point_merge scan_search 1 1 (assign_zoom 0 1 ex_start) [0] (ex_leaf 0) [2; 3]);
        [done|done|ex_neighbors|done]. }
  rewrite (cluster_loop_cons _ _ _ _ _ _ ex_zoom1 [0; 4]).
  2:{ by apply (cluster_point_skip _ _ _ _ _ (Cluster.set_zoom (Level 1) (ex_leaf (-33.75)))). }
  rewrite (cluster_loop_cons _ _ _ _ _ _ ex_zoom1 [0; 4]).
  2:{ by apply (cluster_point_skip _ _ _ _ _ (Cluster.set_zoom (Level 1) (ex_leaf 45))). }
  done.
Qed.

Lemma ex_pass0 :
  _cluster scan_search (with_trees (<[1 := [0; 4]]> (trees ex_zoom1)) ex_zoom1) [0; 4] 0 =
  Some (ex_zoom0, [5]).
Proof.
  unfold _cluster.
  rewrite (cluster_loop_cons _ _ _ _ _ _ ex_zoom0 [5]).
  2:{ apply (cluster_point_merge scan_search 0 0
          (with_trees (<[1 := [0; 4]]> (trees ex_zoom1)) ex_zoom1) []
          (Cluster.set_zoom (Level 1) (ex_leaf (-90))) [4]);
        [done|done|ex_neighbors|done]. }
  rewrite (cluster_loop_cons _ _ _ _ _ _ ex_zoom0 [5]).
  2:{ by apply (cluster_point_skip _ _ _ _ _
                  (Cluster.set_zoom (Level 0) (aggregate (ex_leaf 0)
                     (heap (assign_zoom 0 1 ex_start)) [2; 3]))). }
  done.
Qed.

Lemma ex_load : load scan_search (supercluster ex_options) ex_points = Some ex_loaded.
Proof.
  rewrite (load_unfold _ _ _
    [ex_leaf (-90); ex_leaf 0; ex_leaf (-33.75); ex_leaf 45]) by done.
  change (Z.to_nat _) with 2.
  rewrite (load_loop_S _ _ _ _ _ ex_start ex_zoom1 [0; 4]); [|done|exact ex_pass1].
  rewrite (load_loop_S _ _ _ _ _
             (with_trees (<[1 := [0; 4]]> (trees ex_zoom1)) ex_zoom1) ex_zoom0 [5]);
    [|done|exact ex_pass0].
  done.
Qed.

Lemma ex_far_pass (z : Z) (this : SuperCluster) (c : Cluster.t) :
  heap this = [c] ->
  zoom_le (Cluster.zoom c) z = false ->
  array_get (trees this) (z + 1) = Some [0] ->
  _cluster scan_search this [0] z = Some (assign_zoom 0 z this, [0]).
Proof.
  intros Hh Hz Ht. unfold _cluster.
  rewrite (cluster_loop_cons _ _ _ _ _ _ (assign_zoom 0 z this) [0]); [done|].
  apply (cluster_point_single scan_search z 0 this [] c); [by rewrite Hh|done|].
  unfold _getNeighbors, scan_search. rewrite heap_assign_zoom, Hh. simpl.
  change (trees (assign_zoom 0 z this)) with (trees this). rewrite Ht. simpl.
  f_equal. rewrite list_filter_filter, filter_cons_False; [done|].
  intros [Hn _]. unfold near in Hn. simpl in Hn.
  rewrite bool_decide_eq_false_2 in Hn by lia. done.
Qed.

Lemma ex_far_load :
  load scan_search (supercluster ex_options) ex_far_east = Some ex_far_loaded.
Proof.
  rewrite (load_unfold _ _ _ [ex_leaf 540]) by done.
  change (Z.to_nat _) with 2.
  set (s0 := with_heap _ _).
  set (s1 := with_trees (<[2 := [0]]> (trees s0)) s0).
  rewrite (load_loop_S _ _ _ _ _ s1 (assign_zoom 0 1 s1) [0]);
    [|done|by apply (ex_far_pass 1 s1 (ex_leaf 540))].
  set (s2 := with_trees (<[1 := [0]]> (trees s1)) (assign_zoom 0 1 s1)).
  rewrite (load_loop_S _ _ _ _ _ s2 (assign_zoom 0 0 s2) [0]);
    [|done|by apply (ex_far_pass 0 s2 (Cluster.set_zoom (Level 1) (ex_leaf 540)))].
  done.
Qed.

(** Equations between the numbers of the example. *)
Ltac ex_real :=
  simpl; unfold spec_weighted_center, Projector.lngX; simpl; rewrite ?latY_0;
  repeat match goal with
  | |- context [IZR ?z] =>
      let z' := eval vm_compute in z in progress change (IZR z) with (IZR z')
  end;
  first [lra | lia | done].

(** ** The claims that the code does not meet, on the example *)

(** C1.  The code weights the claiming point's [wx, wy] but the
    neighbors' [x, y].  In the example, at zoom 0 the point [C] claims
    the cluster that [P] built at zoom 1, whose anchor is 1/2 and whose
    weighted center is 49/96: the new cluster gets [wx = 7/16], the
    average with the anchor, where the weighted average of the weighted
    centers is 57/128. *)
Theorem weighted_center_uses_neighbor_anchors :
  exists this' agg point b,
    load scan_search (supercluster ex_options) ex_points = Some this' /\
    heap this' !! 5 = Some agg /\
    heap this' !! 0 = Some point /\
    heap this' !! 4 = Some b /\
    Cluster.children agg = Some [4] /\
    Cluster.x agg = Cluster.x point /\
    Cluster.numPoints point = 1%Z /\ Cluster.numPoints b = 3%Z /\
    Cluster.x b = (1 / 2)%R /\ Cluster.wx b = (49 / 96)%R /\
    Cluster.wx agg = (7 / 16)%R /\
    (spec_weighted_center point (heap this') [4]).1 = (57 / 128)%R /\
    (Cluster.wx agg, Cluster.wy agg) <> spec_weighted_center point (heap this') [4].
Proof.
  eexists _, _, _, _. split; [exact ex_load|].
  split; [reflexivity|]. split; [reflexivity|]. split; [reflexivity|].
  repeat split; try ex_real.
  intros H. apply (f_equal fst) in H. revert H. ex_real.
Qed.

(** C2 fails.  In the pass at zoom 1 of the example the point [P],
    at reference 1, claims the neighbors 2 and 3.  The cluster it
    builds has the children [[2; 3]], not [[1; 2; 3]], and its
    [numPoints] is 3 while those of its children sum to 2. *)
Lemma children_omit_claiming_point :
  exists this agg,
    _cluster scan_search ex_start [0; 1; 2; 3] 1 = Some (this, [0; 4]) /\
    _getNeighbors scan_search (assign_zoom 1 1 (assign_zoom 0 1 ex_start)) 1 1 =
      Some [2; 3] /\
    heap this !! 4 = Some agg /\
    Cluster.children agg <> Some (1 :: [2; 3]) /\
    Cluster.numPoints agg <> mass (heap this) (default [] (Cluster.children agg)).
Proof.
  eexists _, _. split; [exact ex_pass1|].
  split; [ex_neighbors|]. split; [reflexivity|]. split; [done|]. simpl. lia.
Qed.

(** C4 fails.  In the pass at zoom 1 of the example the radius is
    1/8.  The input points [A] and [B], at references 2 and 3, are 7/32
    apart, and both become children of the cluster that [P] builds. *)
Lemma separated_points_merged :
  exists this a b agg,
    _cluster scan_search ex_start [0; 1; 2; 3] 1 = Some (this, [0; 4]) /\
    heap ex_start !! 2 = Some a /\ heap ex_start !! 3 = Some b /\
    (0 < search_radius (options ex_start) 1)%R /\
    (distSq a b >
     search_radius (options ex_start) 1 * search_radius (options ex_start) 1)%R /\
    heap this !! 4 = Some agg /\
    Cluster.children agg = Some [2; 3].
Proof.
  eexists _, _, _, _. split; [exact ex_pass1|].
  split; [reflexivity|]. split; [reflexivity|].
  repeat split; try ex_arith.
Qed.

(** C5 fails.  A longitude of 540 degrees is out of range, and [load]
    returns. *)
Lemma load_accepts_longitude_out_of_range :
  Exists (fun p => ~ valid_coordinates p) ex_far_east /\
  is_Some (load scan_search (supercluster no_options) ex_far_east).
Proof.
  split.
  - constructor. intros (g & lng & lat & Hg & Hc & Hr).
    injection Hg as <-. simpl in Hc. injection Hc as <- <-. lra.
  - destruct (load_new scan_search scan_search_spec no_options ex_far_east)
      as (this' & _ & H & _).
    + unfold valid_zooms. simpl. lia.
    + constructor; [|constructor]. by eexists _, _, _.
    + by eexists.
Qed.

(** C7 fails.  For the longitude 540, [load] returns an instance whose
    tiers hold a node with [x = 2]. *)
Lemma node_outside_unit_square :
  exists this' c,
    load scan_search (supercluster ex_options) ex_far_east = Some this' /\
    (forall z, (0 <= z <= 2)%Z -> array_get (trees this') z = Some [0]) /\
    heap this' !! 0 = Some c /\
    Cluster.x c = 2%R /\
    ~ in_unit_square c.
Proof.
  eexists _, _. split; [exact ex_far_load|].
  split.
  { intros z Hz. assert (z = 0 \/ z = 1 \/ z = 2)%Z as [->|[->| ->]] by lia; done. }
  split; [reflexivity|]. split.
  - simpl. unfold Projector.lngX. lra.
  - intros ((_ & Hx) & _). simpl in Hx. unfold Projector.lngX in Hx. lra.
Qed.

(** C8 fails.  On the instance loaded in the example, whose tiers are
    0, 1 and 2, the zoom 1/2 is in range; [getClusters] looks up the
    tree at the key 1/2, which no array has, and throws. *)
Lemma getClusters_fails_on_fractional_zoom :
  load scan_search (supercluster ex_options) ex_points = Some ex_loaded /\
  getClusters scan_search ex_loaded (-180, -85, 180, 85)%R (1 / 2) = None.
Proof.
  split; [exact ex_load|].
  unfold getClusters.
  change (Rmax _ _) with (Rmax 0 (Rmin (1 / 2) 2)).
  rewrite Rmin_left by lra. rewrite Rmax_right by lra.
  rewrite array_get_num_not_integer; [done|].
  intros k Hk. assert (IZR (2 * k) = IZR 1) as H by (rewrite mult_IZR; lra).
  apply eq_IZR in H. lia.
Qed.

(** ** The statements at the example *)

Lemma ex_extent : extent (options ex_start) <> 0%R.
Proof. simpl. lra. Qed.

Lemma ex_valid_zooms : valid_zooms (options (supercluster ex_options)).
Proof. unfold valid_zooms. simpl. lia. Qed.

Lemma ex_has_coordinates : Forall has_coordinates ex_points.
Proof.
  repeat (apply Forall_cons; split); [..|apply Forall_nil_2]; by eexists _, _, _.
Qed.

Lemma ex_valid_coordinates : Forall valid_coordinates ex_points.
Proof.
  repeat (apply Forall_cons; split); [..|apply Forall_nil_2];
    (eexists _, _, _; split; [done|split; [done|lra]]).
Qed.

Lemma ex_neighbors_P :
  _getNeighbors scan_search (assign_zoom 1 1 (assign_zoom 0 1 ex_start)) 1 1 = Some [2; 3].
Proof. ex_neighbors. Qed.

Lemma ex_step_P :
  cluster_point scan_search 1 1 (assign_zoom 0 1 ex_start) [0] = Some (ex_zoom1, [0; 4]).
Proof.
  apply (cluster_point_merge scan_search 1 1 (assign_zoom 0 1 ex_start) [0] (ex_leaf 0) [2; 3]);
    [done|done|exact ex_neighbors_P|done].
Qed.

Lemma mass_conservation_witness :
  valid_zooms (options (supercluster ex_options)) /\
  Forall has_coordinates ex_points /\
  exists this',
    load scan_search (supercluster ex_options) ex_points = Some this' /\
    forall z, (minZoom (options this') <= z <= maxZoom (options this') + 1)%Z ->
      exists t, array_get (trees this') z = Some t /\
        mass (heap this') t = Z.of_nat (length ex_points).
Proof.
  split; [exact ex_valid_zooms|]. split; [exact ex_has_coordinates|].
  exact (mass_conservation scan_search scan_search_spec ex_options ex_points
           ex_valid_zooms ex_has_coordinates).
Defined.

Lemma load_accepts_witness :
  valid_zooms (options (supercluster ex_options)) /\
  (is_Some (load scan_search (supercluster ex_options) ex_points) <->
   Forall has_coordinates ex_points) /\
  (Forall valid_coordinates ex_points ->
   is_Some (load scan_search (supercluster ex_options) ex_points)) /\
  (forall this' i p,
     load scan_search (supercluster ex_options) ex_points = Some this' ->
     ex_points !! i = Some p ->
     exists g lng lat c,
       geometry p = Some g /\ coordinates g = Some (lng, lat) /\
       heap this' !! i = Some c /\ Cluster.point c = Some p /\
       Cluster.x c = Projector.lngX lng /\ Cluster.y c = Projector.latY lat /\
       (0 <= Cluster.y c <= 1)%R).
Proof.
  split; [exact ex_valid_zooms|].
  exact (load_accepts scan_search scan_search_spec ex_options ex_points ex_valid_zooms).
Defined.

Lemma zoom_written_once_and_decreasing_witness :
  valid_zooms (options (supercluster ex_options)) /\
  Forall has_coordinates ex_points /\
  exists this' passes,
    load scan_search (supercluster ex_options) ex_points = Some this' /\
    writes this' = trace (maxZoom (options this')) passes /\
    length passes = Z.to_nat (maxZoom (options this') - minZoom (options this') + 1) /\
    Forall NoDup passes /\
    (forall i, decreasing (written_to i (writes this'))).
Proof.
  split; [exact ex_valid_zooms|]. split; [exact ex_has_coordinates|].
  exact (zoom_written_once_and_decreasing scan_search scan_search_spec
           ex_options ex_points ex_valid_zooms ex_has_coordinates).
Defined.

Lemma coordinates_in_unit_square_witness :
  valid_zooms (options (supercluster ex_options)) /\
  Forall valid_coordinates ex_points /\
  (forall lat, 0 <= Projector.latY lat <= 1)%R /\
  exists this',
    load scan_search (supercluster ex_options) ex_points = Some this' /\
    Forall in_unit_square (heap this') /\
    forall z t j c,
      array_get (trees this') z = Some t -> j ∈ t -> heap this' !! j = Some c ->
      in_unit_square c.
Proof.
  split; [exact ex_valid_zooms|]. split; [exact ex_valid_coordinates|].
  exact (coordinates_in_unit_square scan_search scan_search_spec
           ex_options ex_points ex_valid_zooms ex_valid_coordinates).
Defined.

Lemma getClusters_clamps_integer_zoom_witness :
  valid_zooms (options (supercluster ex_options)) /\
  load scan_search (supercluster ex_options) ex_points = Some ex_loaded /\
  (0 <= 2 <= 2)%Z /\
  is_Some (getClusters scan_search ex_loaded (-180, -85, 180, 85)%R (IZR 7)) /\
  getClusters scan_search ex_loaded (-180, -85, 180, 85)%R (IZR 7) =
    getClusters scan_search ex_loaded (-180, -85, 180, 85)%R (IZR 2) /\
  exists t, array_get (trees ex_loaded) 2 = Some t /\
    getClusters scan_search ex_loaded (-180, -85, 180, 85)%R (IZR 7) =
    mapM (fun i => getCluster <$> heap ex_loaded !! i)
      (scan_search (heap ex_loaded) t
         (Projector.lngX (-180), Projector.latY 85,
          Projector.lngX 180, Projector.latY (-85))).
Proof.
  split; [exact ex_valid_zooms|]. split; [exact ex_load|].
  exact (getClusters_clamps_integer_zoom scan_search scan_search_spec
           ex_options ex_points ex_loaded (-180, -85, 180, 85)%R 7
           ex_valid_zooms (or_intror ex_load)).
Defined.

Lemma merge_children_and_numPoints_witness :
  exists c agg,
    [0; 4] = [0] ++ [c] /\
    heap ex_zoom1 !! c = Some agg /\
    Cluster.children agg = Some [2; 3] /\
    Cluster.numPoints agg = (Cluster.numPoints (ex_leaf 0) + mass (heap ex_zoom1) [2%nat; 3%nat])%Z /\
    Cluster.x agg = Cluster.x (ex_leaf 0) /\ Cluster.y agg = Cluster.y (ex_leaf 0).
Proof.
  apply (merge_children_and_numPoints scan_search 1 1 (assign_zoom 0 1 ex_start)
           [0] ex_zoom1 [0; 4] (ex_leaf 0) [2; 3]).
  - reflexivity.
  - reflexivity.
  - exact ex_neighbors_P.
  - discriminate.
  - exact ex_step_P.
Defined.

Lemma claiming_point_not_a_candidate_witness :
  exists ns,
    _getNeighbors scan_search (assign_zoom 1 1 (assign_zoom 0 1 ex_start)) 1 1 = Some ns /\
    (Cluster.zoom <$> heap (assign_zoom 1 1 (assign_zoom 0 1 ex_start)) !! 1) =
      Some (Level 1) /\
    (forall j, j ∈ ns ->
       exists b, heap (assign_zoom 1 1 (assign_zoom 0 1 ex_start)) !! j = Some b /\
         zoom_lt 1 (Cluster.zoom b) = true) /\
    (1 ∉ ns) /\
    (ns <> [] ->
     exists agg,
       heap ex_zoom1 !! length (heap (assign_zoom 0 1 ex_start)) = Some agg /\
       Cluster.children agg = Some ns /\
       Cluster.numPoints agg =
         (Cluster.numPoints (ex_leaf 0) + mass (heap (assign_zoom 0 1 ex_start)) ns)%Z).
Proof.
  apply (claiming_point_not_a_candidate scan_search 1 1 (assign_zoom 0 1 ex_start)
           [0] ex_zoom1 [0; 4] (ex_leaf 0)).
  - reflexivity.
  - reflexivity.
  - exact ex_step_P.
Defined.

Lemma absorbed_within_radius_witness :
  extent (options ex_start) <> 0%R /\
  let r := search_radius (options ex_start) 1 in
  exists i point ns,
    heap ex_zoom1 !! i = Some point /\
    Cluster.x (aggregate (ex_leaf 0) (heap (assign_zoom 0 1 ex_start)) [2; 3]) =
      Cluster.x point /\
    Cluster.y (aggregate (ex_leaf 0) (heap (assign_zoom 0 1 ex_start)) [2; 3]) =
      Cluster.y point /\
    Cluster.children (aggregate (ex_leaf 0) (heap (assign_zoom 0 1 ex_start)) [2; 3]) =
      Some ns /\
    (forall j, j ∈ ns -> exists b, heap ex_zoom1 !! j = Some b /\
       (distSq point b <= r * r)%R) /\
    (forall j k, j ∈ ns -> k ∈ ns -> exists b b',
       heap ex_zoom1 !! j = Some b /\ heap ex_zoom1 !! k = Some b' /\
       (distSq b b' <= 4 * (r * r))%R).
Proof.
  split; [exact ex_extent|].
  apply (absorbed_within_radius scan_search ex_start [0; 1; 2; 3] 1 ex_zoom1 [0; 4]
           ex_extent ex_pass1 4).
  - simpl. lia.
  - reflexivity.
Defined.

(** ** The further statements at the example *)

Lemma latY_antitone_witness :
  (-90 <= 0)%R /\ (0 <= 45)%R /\ (45 <= 90)%R /\
  (Projector.latY 45 <= Projector.latY 0)%R.
Proof.
  assert (-90 <= 0)%R as H1 by lra. assert (0 <= 45)%R as H2 by lra.
  assert (45 <= 90)%R as H3 by lra.
  split; [exact H1|]. split; [exact H2|]. split; [exact H3|].
  exact (latY_antitone 0 45 H1 H2 H3).
Defined.

Lemma ex_below_zero_invalid : ~ valid_zooms (options (supercluster ex_below_zero)).
Proof. unfold valid_zooms. simpl. lia. Qed.

Lemma load_rejects_zoom_options_witness :
  ~ valid_zooms (options (supercluster ex_below_zero)) /\
  load scan_search (supercluster ex_below_zero) ex_points = None.
Proof.
  split; [exact ex_below_zero_invalid|].
  exact (load_rejects_zoom_options scan_search ex_below_zero ex_points
           ex_below_zero_invalid).
Defined.


Lemma cluster_pass_idempotent_witness :
  _cluster scan_search ex_start [0; 1; 2; 3] 1 = Some (ex_zoom1, [0; 4]) /\
  (1 <= 1)%Z /\
  _cluster scan_search ex_zoom1 [0; 1; 2; 3] 1 = Some (ex_zoom1, []).
Proof.
  split; [exact ex_pass1|]. split; [lia|].
  apply (cluster_pass_idempotent scan_search ex_start [0; 1; 2; 3] 1 ex_zoom1 [0; 4] 1 ex_pass1).
  lia.
Defined.

Lemma getClusters_empty_instance_witness :
  valid_zooms (options (supercluster ex_options)) /\
  (supercluster ex_options = supercluster ex_options \/
   load scan_search (supercluster ex_options) [] = Some (supercluster ex_options)) /\
  getClusters scan_search (supercluster ex_options) (-180, -85, 180, 85)%R (IZR 0) = Some [].
Proof.
  split; [exact ex_valid_zooms|]. split; [by left|].
  exact (getClusters_empty_instance scan_search scan_search_spec ex_options
           (supercluster ex_options) (-180, -85, 180, 85)%R 0 ex_valid_zooms
           (or_introl eq_refl)).
Defined.

Lemma getClusters_inverted_box_empty_witness :
  valid_zooms (options (supercluster ex_options)) /\
  (ex_loaded = supercluster ex_options \/
   load scan_search (supercluster ex_options) ex_points = Some ex_loaded) /\
  (Projector.lngX (-170) < Projector.lngX 170 \/
   Projector.latY (-10) < Projector.latY 10)%R /\
  getClusters scan_search ex_loaded (170, -10, -170, 10)%R (IZR 0) = Some [].
Proof.
  assert (Projector.lngX (-170) < Projector.lngX 170 \/
          Projector.latY (-10) < Projector.latY 10)%R as Hbox
    by (left; unfold Projector.lngX; lra).
  split; [exact ex_valid_zooms|]. split; [right; exact ex_load|]. split; [exact Hbox|].
  exact (getClusters_inverted_box_empty scan_search scan_search_spec ex_options ex_points
           ex_loaded 170 (-10) (-170) 10 0 ex_valid_zooms (or_intror ex_load) Hbox).
Defined.

Lemma getClusters_top_tier_returns_points_witness :
  valid_zooms (options (supercluster ex_options)) /\
  Forall has_coordinates ex_points /\
  exists this',
    load scan_search (supercluster ex_options) ex_points = Some this' /\
    forall bbox (zoom : Z), (maxZoom (options this') + 1 <= zoom)%Z ->
      exists out,
        getClusters scan_search this' bbox (IZR zoom) = Some out /\
        out ≡ₚ Original <$> filter (feature_hit (projBBox bbox)) ex_points.
Proof.
  split; [exact ex_valid_zooms|]. split; [exact ex_has_coordinates|].
  exact (getClusters_top_tier_returns_points scan_search scan_search_spec
           ex_options ex_points ex_valid_zooms ex_has_coordinates).
Defined.

Lemma getClusters_returns_points_or_clusters_witness :
  valid_zooms (options (supercluster ex_options)) /\
  Forall has_coordinates ex_points /\
  exists this',
    load scan_search (supercluster ex_options) ex_points = Some this' /\
    (forall bbox (zoom : Z), is_Some (getClusters scan_search this' bbox (IZR zoom))) /\
    forall bbox zoom out,
      getClusters scan_search this' bbox zoom = Some out ->
      Forall (fun f =>
        (exists p, f = Original p /\ p ∈ ex_points /\ feature_hit (projBBox bbox) p) \/
        (exists n lnglat, f = ClusterFeature n lnglat /\ (2 <= n)%Z)) out.
Proof.
  split; [exact ex_valid_zooms|]. split; [exact ex_has_coordinates|].
  exact (getClusters_returns_points_or_clusters scan_search scan_search_spec
           ex_options ex_points ex_valid_zooms ex_has_coordinates).
Defined.

Lemma getClusters_world_counts_every_point_witness :
  valid_zooms (options (supercluster ex_options)) /\
  Forall valid_coordinates ex_points /\
  exists this',
    load scan_search (supercluster ex_options) ex_points = Some this' /\
    forall zoom : Z,
      exists out,
        getClusters scan_search this' (-180, -90, 180, 90)%R (IZR zoom) = Some out /\
        total_points out = Z.of_nat (length ex_points).
Proof.
  split; [exact ex_valid_zooms|]. split; [exact ex_valid_coordinates|].
  exact (getClusters_world_counts_every_point scan_search scan_search_spec
           ex_options ex_points ex_valid_zooms ex_valid_coordinates).
Defined.

Lemma tiers_refine_witness :
  extent (options (supercluster ex_options)) <> 0%R /\
  valid_zooms (options (supercluster ex_options)) /\
  Forall has_coordinates ex_points /\
  exists this',
    load scan_search (supercluster ex_options) ex_points = Some this' /\
    array_get (trees this') (maxZoom (options this') + 1) = Some (seq 0 (length ex_points)) /\
    forall z, (minZoom (options this') <= z <= maxZoom (options this'))%Z ->
      exists upper lower,
        array_get (trees this') (z + 1) = Some upper /\
        array_get (trees this') z = Some lower /\
        tier_below (options this') z (heap this') upper lower.
Proof.
  split; [exact ex_extent|].
  split; [exact ex_valid_zooms|]. split; [exact ex_has_coordinates|].
  exact (tiers_refine scan_search scan_search_spec
           ex_options ex_points ex_extent ex_valid_zooms ex_has_coordinates).
Defined.

Lemma tier_sizes_witness :
  valid_zooms (options (supercluster ex_options)) /\
  Forall has_coordinates ex_points /\
  exists this',
    load scan_search (supercluster ex_options) ex_points = Some this' /\
    forall z, (minZoom (options this') <= z <= maxZoom (options this') + 1)%Z ->
      exists t,
        array_get (trees this') z = Some t /\
        length t <= length ex_points /\
        (ex_points <> [] -> t <> []).
Proof.
  split; [exact ex_valid_zooms|]. split; [exact ex_has_coordinates|].
  exact (tier_sizes scan_search scan_search_spec
           ex_options ex_points ex_valid_zooms ex_has_coordinates).
Defined.

Lemma children_form_forest_witness :
  load scan_search (supercluster ex_options) ex_points = Some ex_loaded /\
  forest (heap ex_loaded).
Proof.
  split; [exact ex_load|].
  exact (children_form_forest scan_search scan_search_spec ex_options ex_points ex_loaded
           ex_load).
Defined.

Lemma ex_no_radius_zero : radius (options (supercluster ex_no_radius)) = 0%R.
Proof. reflexivity. Qed.

Lemma ex_no_radius_extent : extent (options (supercluster ex_no_radius)) <> 0%R.
Proof. simpl. lra. Qed.

Lemma ex_no_radius_zooms : valid_zooms (options (supercluster ex_no_radius)).
Proof. unfold valid_zooms. simpl. lia. Qed.

Lemma ex_no_radius_one_pass :
  (minZoom (options (supercluster ex_no_radius))
   <= maxZoom (options (supercluster ex_no_radius)))%Z.
Proof. simpl. lia. Qed.

Lemma ex_no_radius_top :
  (0 <= search_radius (options (supercluster ex_no_radius))
          (maxZoom (options (supercluster ex_no_radius))))%R.
Proof. ex_arith. Qed.

Lemma ex_twins_leaves : mapM createPointCluster ex_twins = Some [ex_leaf 0; ex_leaf 0].
Proof. reflexivity. Qed.

Lemma ex_twins_differ : 0 <> 1.
Proof. discriminate. Qed.

Lemma ex_twins_coordinates : Forall has_coordinates ex_twins.
Proof.
  repeat (apply Forall_cons; split); [..|apply Forall_nil_2]; by eexists _, _, _.
Qed.

(** With a radius of zero the two points at one position are merged:
    the instance has a cluster with a child. *)
Lemma radius_zero_merges_coincident_witness :
  radius (options (supercluster ex_no_radius)) = 0%R /\
  extent (options (supercluster ex_no_radius)) <> 0%R /\
  valid_zooms (options (supercluster ex_no_radius)) /\
  Forall has_coordinates ex_twins /\
  exists this',
    load scan_search (supercluster ex_no_radius) ex_twins = Some this' /\
    (exists c agg ns j,
       heap this' !! c = Some agg /\ Cluster.children agg = Some ns /\ j ∈ ns) /\
    forall c agg ns j,
      heap this' !! c = Some agg -> Cluster.children agg = Some ns -> j ∈ ns ->
      exists b, heap this' !! j = Some b /\
        Cluster.x b = Cluster.x agg /\ Cluster.y b = Cluster.y agg.
Proof.
  split; [exact ex_no_radius_zero|]. split; [exact ex_no_radius_extent|].
  split; [exact ex_no_radius_zooms|]. split; [exact ex_twins_coordinates|].
  destruct (radius_zero_merges_coincident scan_search scan_search_spec ex_no_radius ex_twins
              ex_no_radius_zero ex_no_radius_extent ex_no_radius_zooms ex_twins_coordinates)
    as (this' & Hload & Hsame).
  exists this'. split; [exact Hload|]. split; [|exact Hsame].
  destruct (load_together scan_search scan_search_spec ex_no_radius ex_twins
              [ex_leaf 0; ex_leaf 0] 0 1 (ex_leaf 0) (ex_leaf 0)
              ex_no_radius_zooms ex_no_radius_one_pass ex_no_radius_top ex_twins_leaves
              ex_twins_differ eq_refl eq_refl eq_refl eq_refl)
    as (this2 & lower & Hload2 & _ & c & agg & i & ns & _ & Hc & [_ (Hch & _ & Hi) _] & Ha & Hb).
  rewrite Hload in Hload2. injection Hload2 as <-.
  destruct Ha as [<-|Ha].
  - destruct Hb as [Hb|Hb]; [discriminate Hb|]. by exists c, agg, ns, 1.
  - by exists c, agg, ns, 0.
Defined.

Lemma ex_one_pass :
  (minZoom (options (supercluster ex_options)) <= maxZoom (options (supercluster ex_options)))%Z.
Proof. simpl. lia. Qed.

Lemma first_pass_center_is_mean_witness :
  valid_zooms (options (supercluster ex_options)) /\
  (minZoom (options (supercluster ex_options)) <= maxZoom (options (supercluster ex_options)))%Z /\
  Forall has_coordinates ex_points /\
  exists this' lower,
    load scan_search (supercluster ex_options) ex_points = Some this' /\
    array_get (trees this') (maxZoom (options this')) = Some lower /\
    forall c, c ∈ lower -> length ex_points <= c ->
      exists agg i ns,
        heap this' !! c = Some agg /\
        Cluster.children agg = Some ns /\
        i < length ex_points /\ Forall (fun j => j < length ex_points) ns /\
        Cluster.numPoints agg = Z.of_nat (length (i :: ns)) /\
        Cluster.wx agg =
          (sum_of Cluster.x (heap this') (i :: ns) / IZR (Z.of_nat (length (i :: ns))))%R /\
        Cluster.wy agg =
          (sum_of Cluster.y (heap this') (i :: ns) / IZR (Z.of_nat (length (i :: ns))))%R.
Proof.
  split; [exact ex_valid_zooms|]. split; [exact ex_one_pass|].
  split; [exact ex_has_coordinates|].
  exact (first_pass_center_is_mean scan_search scan_search_spec ex_options ex_points
           ex_valid_zooms ex_one_pass ex_has_coordinates).
Defined.

Lemma cluster_features_in_range_witness :
  valid_zooms (options (supercluster ex_options)) /\
  Forall valid_coordinates ex_points /\
  exists this',
    load scan_search (supercluster ex_options) ex_points = Some this' /\
    forall bbox zoom out n lng lat,
      getClusters scan_search this' bbox zoom = Some out ->
      ClusterFeature n (lng, lat) ∈ out ->
      (-180 <= lng <= 180 /\ - mercator_limit <= lat <= mercator_limit /\
       -90 < lat < 90)%R.
Proof.
  split; [exact ex_valid_zooms|]. split; [exact ex_valid_coordinates|].
  exact (cluster_features_in_range scan_search scan_search_spec ex_options ex_points
           ex_valid_zooms ex_valid_coordinates).
Defined.

Lemma getClusters_monotone_in_box_witness :
  valid_zooms (options (supercluster ex_options)) /\
  Forall has_coordinates ex_points /\
  (-100 <= -50)%R /\ (50 <= 100)%R /\
  (-90 <= -20)%R /\ (-20 <= -10)%R /\ (-10 <= 90)%R /\
  (-90 <= 10)%R /\ (10 <= 20)%R /\ (20 <= 90)%R /\
  exists this',
    load scan_search (supercluster ex_options) ex_points = Some this' /\
    forall zoom : Z,
      exists out out',
        getClusters scan_search this' (-50, -10, 50, 10)%R (IZR zoom) = Some out /\
        getClusters scan_search this' (-100, -20, 100, 20)%R (IZR zoom) = Some out' /\
        forall f, f ∈ out -> f ∈ out'.
Proof.
  assert (-100 <= -50)%R as H1 by lra. assert (50 <= 100)%R as H2 by lra.
  assert (-90 <= -20)%R as H3 by lra. assert (-20 <= -10)%R as H4 by lra.
  assert (-10 <= 90)%R as H5 by lra. assert (-90 <= 10)%R as H6 by lra.
  assert (10 <= 20)%R as H7 by lra. assert (20 <= 90)%R as H8 by lra.
  split; [exact ex_valid_zooms|]. split; [exact ex_has_coordinates|].
  split; [exact H1|]. split; [exact H2|]. split; [exact H3|]. split; [exact H4|].
  split; [exact H5|]. split; [exact H6|]. split; [exact H7|]. split; [exact H8|].
  exact (getClusters_monotone_in_box scan_search scan_search_spec ex_options ex_points
           (-50) (-10) 50 10 (-100) (-20) 100 20
           ex_valid_zooms ex_has_coordinates H1 H2 H3 H4 H5 H6 H7 H8).
Defined.

Lemma clusters_anchored_at_points_witness :
  valid_zooms (options (supercluster ex_options)) /\
  Forall has_coordinates ex_points /\
  exists this',
    load scan_search (supercluster ex_options) ex_points = Some this' /\
    Forall (fun c =>
      exists p g lng lat,
        p ∈ ex_points /\ geometry p = Some g /\ coordinates g = Some (lng, lat) /\
        Cluster.x c = Projector.lngX lng /\ Cluster.y c = Projector.latY lat)
      (heap this').
Proof.
  split; [exact ex_valid_zooms|]. split; [exact ex_has_coordinates|].
  exact (clusters_anchored_at_points scan_search scan_search_spec ex_options ex_points
           ex_valid_zooms ex_has_coordinates).
Defined.

Lemma ex_start_refs : Forall (fun j => j < length (heap ex_start)) [0; 1; 2; 3].
Proof. repeat constructor. Qed.

Lemma cluster_returns_or_throws_witness :
  Forall (fun j => j < length (heap ex_start)) [0; 1; 2; 3] /\
  (is_Some (array_get (trees ex_start) (1 + 1)) ->
   is_Some (_cluster scan_search ex_start [0; 1; 2; 3] 1)) /\
  (array_get (trees ex_start) (1 + 1) = None ->
   Exists (live (heap ex_start) 1) [0; 1; 2; 3] ->
   _cluster scan_search ex_start [0; 1; 2; 3] 1 = None).
Proof.
  split; [exact ex_start_refs|].
  exact (cluster_returns_or_throws scan_search scan_search_spec ex_start [0; 1; 2; 3] 1
           ex_start_refs).
Defined.




Lemma ex_radius_top :
  (0 <= search_radius (options (supercluster ex_options))
          (maxZoom (options (supercluster ex_options))))%R.
Proof. ex_arith. Qed.

Lemma coincident_points_merge_witness :
  extent (options (supercluster ex_options)) <> 0%R /\
  valid_zooms (options (supercluster ex_options)) /\
  (minZoom (options (supercluster ex_options)) <= maxZoom (options (supercluster ex_options)))%Z /\
  (0 <= search_radius (options (supercluster ex_options))
          (maxZoom (options (supercluster ex_options))))%R /\
  mapM createPointCluster ex_twins = Some [ex_leaf 0; ex_leaf 0] /\
  0 <> 1 /\
  [ex_leaf 0; ex_leaf 0] !! 0 = Some (ex_leaf 0) /\
  [ex_leaf 0; ex_leaf 0] !! 1 = Some (ex_leaf 0) /\
  Cluster.x (ex_leaf 0) = Cluster.x (ex_leaf 0) /\
  Cluster.y (ex_leaf 0) = Cluster.y (ex_leaf 0) /\
  exists this' lower,
    load scan_search (supercluster ex_options) ex_twins = Some this' /\
    array_get (trees this') (maxZoom (options this')) = Some lower /\
    together (options this') (maxZoom (options this')) (heap this') lower 0 1.
Proof.
  split; [exact ex_extent|].
  split; [exact ex_valid_zooms|]. split; [exact ex_one_pass|].
  split; [exact ex_radius_top|]. split; [exact ex_twins_leaves|].
  split; [exact ex_twins_differ|]. split; [reflexivity|]. split; [reflexivity|].
  split; [reflexivity|]. split; [reflexivity|].
  exact (coincident_points_merge scan_search scan_search_spec ex_options ex_twins
           [ex_leaf 0; ex_leaf 0] 0 1 (ex_leaf 0) (ex_leaf 0)
           ex_extent ex_valid_zooms ex_one_pass ex_radius_top ex_twins_leaves ex_twins_differ
           eq_refl eq_refl eq_refl eq_refl).
Defined.

Lemma ex_beyond_range :
  (IZR (maxZoom (options ex_loaded) + 1) <= 7 / 2 \/
   7 / 2 <= IZR (minZoom (options ex_loaded)))%R.
Proof. left. change (maxZoom (options ex_loaded) + 1)%Z with 2%Z. lra. Qed.

Lemma getClusters_clamps_zoom_beyond_range_witness :
  valid_zooms (options (supercluster ex_options)) /\
  (ex_loaded = supercluster ex_options \/
   load scan_search (supercluster ex_options) ex_points = Some ex_loaded) /\
  (IZR (maxZoom (options ex_loaded) + 1) <= 7 / 2 \/
   7 / 2 <= IZR (minZoom (options ex_loaded)))%R /\
  is_Some (getClusters scan_search ex_loaded (-180, -85, 180, 85)%R (7 / 2)) /\
  ((IZR (maxZoom (options ex_loaded) + 1) <= 7 / 2)%R ->
   getClusters scan_search ex_loaded (-180, -85, 180, 85)%R (7 / 2) =
   getClusters scan_search ex_loaded (-180, -85, 180, 85)%R
     (IZR (maxZoom (options ex_loaded) + 1))) /\
  ((7 / 2 <= IZR (minZoom (options ex_loaded)))%R ->
   getClusters scan_search ex_loaded (-180, -85, 180, 85)%R (7 / 2) =
   getClusters scan_search ex_loaded (-180, -85, 180, 85)%R
     (IZR (minZoom (options ex_loaded)))).
Proof.
  split; [exact ex_valid_zooms|]. split; [right; exact ex_load|].
  split; [exact ex_beyond_range|].
  exact (getClusters_clamps_zoom_beyond_range scan_search scan_search_spec ex_options
           ex_points ex_loaded (-180, -85, 180, 85)%R (7 / 2)
           ex_valid_zooms (or_intror ex_load) ex_beyond_range).
Defined.

Lemma ex_from_one_zooms : valid_zooms (options (supercluster ex_from_one)).
Proof. unfold valid_zooms. simpl. lia. Qed.

(** With [minZoom = 1] the tree of zoom 0 exists and stays empty. *)
Lemma tiers_below_minZoom_stay_empty_witness :
  valid_zooms (options (supercluster ex_from_one)) /\
  Forall has_coordinates ex_points /\
  exists this',
    load scan_search (supercluster ex_from_one) ex_points = Some this' /\
    array_get (trees this') 0 = Some [] /\
    forall z, (0 <= z < minZoom (options this'))%Z ->
      array_get (trees this') z = Some [].
Proof.
  split; [exact ex_from_one_zooms|]. split; [exact ex_has_coordinates|].
  destruct (tiers_below_minZoom_stay_empty scan_search scan_search_spec ex_from_one ex_points
              ex_from_one_zooms ex_has_coordinates) as (this' & Hload & Hempty).
  exists this'. split; [exact Hload|]. split; [|exact Hempty].
  apply Hempty. apply load_frame in Hload as [-> _]. simpl. lia.
Defined.

Lemma load_again_appends_tiers_witness :
  valid_zooms (options (supercluster ex_options)) /\
  Forall has_coordinates ex_points /\ Forall has_coordinates ex_twins /\
  exists this1 this2,
    load scan_search (supercluster ex_options) ex_points = Some this1 /\
    load scan_search this1 ex_twins = Some this2 /\
    options this2 = options (supercluster ex_options) /\
    heap_le (heap this1) (heap this2) /\
    forall z, (minZoom (options this2) <= z <= maxZoom (options this2) + 1)%Z ->
      exists t1 t2,
        array_get (trees this1) z = Some t1 /\
        array_get (trees this2) z = Some (t1 ++ t2) /\
        mass (heap this2) t1 = Z.of_nat (length ex_points) /\
        mass (heap this2) t2 = Z.of_nat (length ex_twins) /\
        Forall (fun j => length (heap this1) <= j < length (heap this2)) t2.
Proof.
  split; [exact ex_valid_zooms|]. split; [exact ex_has_coordinates|].
  split; [exact ex_twins_coordinates|].
  exact (load_again_appends_tiers scan_search scan_search_spec ex_options ex_points ex_twins
           ex_valid_zooms ex_has_coordinates ex_twins_coordinates).
Defined.

(** A rounding that overshoots every result by one sixteenth. *)
Lemma ex_rounding : rounds_within (1 / 16) 0 5000 (fun x => x * (17 / 16))%R.
Proof.
  intros x _. replace (x * (17 / 16) - x)%R with (x * (1 / 16))%R by lra.
  rewrite Rabs_mult, (Rabs_pos_eq (1 / 16)) by lra. lra.
Qed.

Lemma lngX_round_trip_within_tolerance_witness :
  (0 <= 1 / 16 <= 1 / 8)%R /\ (0 <= 0 <= 1)%R /\ (5000 <= 5000)%R /\
  rounds_within (1 / 16) 0 5000 (fun x => x * (17 / 16))%R /\
  (Rabs 36 <= 5000 / 2)%R /\
  (Rabs (Rounded.xLng (fun x => x * (17 / 16)) (Rounded.lngX (fun x => x * (17 / 16)) 36) - 36)
   <= 1 / 16 * (5 * Rabs 36 + 228) + 1500 * 0)%R.
Proof.
  assert (0 <= 1 / 16 <= 1 / 8)%R as Hu by lra.
  assert (0 <= 0 <= 1)%R as He by lra.
  assert (5000 <= 5000)%R as HM by lra.
  assert (Rabs 36 <= 5000 / 2)%R as Hl by (rewrite Rabs_pos_eq; lra).
  split; [exact Hu|]. split; [exact He|]. split; [exact HM|].
  split; [exact ex_rounding|]. split; [exact Hl|].
  exact (lngX_round_trip_within_tolerance (1 / 16) 0 5000 (fun x => x * (17 / 16))%R 36
           Hu He HM ex_rounding Hl).
Defined.
